(** * Expression parser and evaluator of Tutorials/Week4 (expr.c)

    A shallow embedding of [src/Tutorials/Week4/src/expr.c]: the recursive
    descent parser that builds the expression tree in the C heap,
    [EvalExpression], the interpreter that walks the tree and prints one
    three-address instruction per operator node, and [ReleaseAstExpr],
    which gives the tree back.

    The C program keeps its state in globals ([tmpNo], [curToken]), in the
    heap ([malloc]ed nodes linked by pointers) and in the two output
    streams.  All of that is gathered in the record [World], and every C
    function becomes a function from a world to an [outcome].

    The file has three parts: the embedding of the program, the notions
    used to state its properties, and the properties; the last part ends
    with what holds of the program as a whole: the parser and the grammar
    of its comments, the value and the code of a tree, and the release of
    what was parsed. *)

From stdpp Require Import gmap strings list fin_maps pretty.
From Stdlib Require Import ZArith Lia.

(** * The embedding *)

(** ** Machine integers *)

(** [int] and [long] on the LP64 hosts the tutorial targets: 32 and 64
    bits, two's complement.  C leaves signed overflow undefined; on these
    hosts the sum, difference and product of two [long]s, and [tmpNo++],
    wrap around, and that is what the embedding does. *)
Definition wrap (bits z : Z) : Z :=
  ((z + 2 ^ (bits - 1)) mod 2 ^ bits - 2 ^ (bits - 1))%Z.

Definition wrap_int (z : Z) : Z := wrap 32 z.

Definition wrap_long (z : Z) : Z := wrap 64 z.

Definition INT_MIN : Z := (- 2 ^ 31)%Z.

Definition INT_MAX : Z := (2 ^ 31 - 1)%Z.

Definition LONG_MIN : Z := (- 2 ^ 63)%Z.

Definition long_add (a b : Z) : Z := wrap_long (a + b).

Definition long_sub (a b : Z) : Z := wrap_long (a - b).

Definition long_mul (a b : Z) : Z := wrap_long (a * b).

(** [a / b] on [long]: the quotient truncated towards zero.  The operation
    has no result when the divisor is zero or when the quotient is not
    representable ([LONG_MIN / -1]): C leaves both undefined and the
    division instruction of the host traps on both. *)
Definition long_div (a b : Z) : option Z :=
  if decide (b = 0%Z ∨ (a = LONG_MIN ∧ b = (-1)%Z)) then None
  else Some (Z.quot a b).

(** ** Data model *)

(** Modelled from the spec: the token kinds of the absent [lex.h] (a
    literal number, the four operators, the two parentheses, end of
    input); [TK_NA] stands for every kind the parser does not know. *)
Inductive TokenKind : Set :=
  | TK_NA | TK_ADD | TK_SUB | TK_MUL | TK_DIV
  | TK_NUM | TK_LPAREN | TK_RPAREN | TK_EOF.

#[global] Instance TokenKind_eq_dec : EqDecision TokenKind.
Proof. solve_decision. Defined.

(** [Value]: the [name] buffer and the [long numVal] that the code reads
    and writes. *)
Record Value : Set := mkValue { name : string; numVal : Z }.

(** [Token]: [curToken.kind] and [curToken.value]; the second is called
    [tokval] here, [value] being the field of the node. *)
Record Token : Set := mkToken { kind : TokenKind; tokval : Value }.

(** A pointer to a node: [NULL] or the address of a heap cell. *)
Inductive AstExprNodePtr : Set :=
  | NULL
  | Addr (l : positive).

#[global] Instance AstExprNodePtr_eq_dec : EqDecision AstExprNodePtr.
Proof. solve_decision. Defined.

(** [struct astExprNode]: [op], [value], [kids[0]] and [kids[1]]. *)
Record astExprNode : Set := mkNode {
  op : TokenKind;
  value : Value;
  kids0 : AstExprNodePtr;
  kids1 : AstExprNodePtr
}.

(** The state of the process. *)
Record World : Type := mkWorld {
  tmpNo : Z;                          (* static int tmpNo *)
  curToken : Token;                   (* the look-ahead token *)
  source : list Token;                (* tokens the lexer has yet to deliver *)
  heap : gmap positive astExprNode;   (* the malloc'ed nodes *)
  out : list string;                  (* what each EmitIR call printed *)
  err : list string                   (* the messages handed to Error *)
}.

Definition set_tmpNo (z : Z) (w : World) : World :=
  mkWorld z (curToken w) (source w) (heap w) (out w) (err w).

Definition set_token (t : Token) (s : list Token) (w : World) : World :=
  mkWorld (tmpNo w) t s (heap w) (out w) (err w).

Definition set_heap (h : gmap positive astExprNode) (w : World) : World :=
  mkWorld (tmpNo w) (curToken w) (source w) h (out w) (err w).

Definition print (s : string) (w : World) : World :=
  mkWorld (tmpNo w) (curToken w) (source w) (heap w) (out w ++ [s]) (err w).

Definition report (s : string) (w : World) : World :=
  mkWorld (tmpNo w) (curToken w) (source w) (heap w) (out w) (err w ++ [s]).

(** ** Outcomes *)

(** How a call can end other than by returning. *)
Inductive stop : Set :=
  | Exited      (* Error ended the process *)
  | Aborted     (* an assert failed *)
  | Undefined.  (* a bad pointer was followed or a division has no result *)

Inductive outcome (A : Type) : Type :=
  | Ret (a : A) (w : World)
  | Stop (s : stop) (w : World)
  | OutOfFuel.

Arguments Ret {A} a w.

Arguments Stop {A} s w.

Arguments OutOfFuel {A}.

Definition M (A : Type) : Type := World → outcome A.

Definition ret {A} (a : A) : M A := fun w => Ret a w.

Definition bind {A B} (m : M A) (k : A → M B) : M B := fun w =>
  match m w with
  | Ret a w' => k a w'
  | Stop s w' => Stop s w'
  | OutOfFuel => OutOfFuel
  end.

Notation "'let*' x ':=' m 'in' k" := (bind m (fun x => k))
  (at level 10, x name, m at level 100, k at level 200).

Definition get {A} (f : World → A) : M A := fun w => Ret (f w) w.

Definition modify (f : World → World) : M unit := fun w => Ret tt (f w).

Definition halt {A} (s : stop) : M A := fun w => Stop s w.

Definition out_of_fuel {A} : M A := fun _ => OutOfFuel.

(** [assert(c)] *)
Definition assert (c : bool) : M unit :=
  if c then ret tt else halt Aborted.

(** ** The collaborators *)

(** What expr.c takes from the headers that are not part of the file:
    the size of the [name] buffer, whether [Error] hands control back to
    its caller, and the text [Expect] reports. *)
Record Collaborators : Type := mkCollaborators {
  MAX_ID_LEN : nat;
  error_returns : bool;
  expect_message : TokenKind → string
}.

Definition eof_token : Token := mkToken TK_EOF (mkValue "" 0).

(** Modelled from the spec: the token source of the absent lexer.
    [GetToken] delivers the next token of the stream and, once the stream
    is exhausted, an end-of-input token. *)
Definition GetToken (s : list Token) : Token * list Token :=
  match s with
  | [] => (eof_token, [])
  | t :: s' => (t, s')
  end.

(** The world once the cursor has moved to the next token. *)
Definition advance (w : World) : World :=
  let '(t, s) := GetToken (source w) in set_token t s w.

(** Modelled from the spec: the [NEXT_TOKEN] macro of the absent header,
    which discards the current token and loads the next one. *)
Definition NEXT_TOKEN : M unit := modify advance.

Section Program.

Context (C : Collaborators).

(** Modelled from the spec: [Error] of the absent error.h.  The message is
    recorded; whether the call returns is the collaborator's choice. *)
Definition Error (msg : string) : M unit := fun w =>
  if error_returns C then Ret tt (report msg w)
  else Stop Exited (report msg w).

(** Modelled from the spec: [Expect] of the absent lexer interface: the
    current token must have the given kind and is then skipped; any other
    token is an error. *)
Definition Expect (tk : TokenKind) : M unit :=
  let* k := get (fun w => kind (curToken w)) in
  if decide (k = tk) then NEXT_TOKEN else Error (expect_message C tk).

(** ** expr.c *)

(** [static int NewTemp(void) { return tmpNo++; }] *)
Definition NewTemp : M Z := fun w =>
  Ret (tmpNo w) (set_tmpNo (wrap_int (tmpNo w + 1)) w).

(** [snprintf(value.name, MAX_ID_LEN, "t%d", n)] into a zeroed buffer: at
    most [MAX_ID_LEN - 1] characters are stored. *)
Definition temp_name (n : Z) : string :=
  String.substring 0 (MAX_ID_LEN C - 1) ("t" +:+ pretty n).

(** [malloc]: an address that is not in use. *)
Definition malloc : M positive := get (fun w => fresh (dom (heap w))).

(** [CreateAstExprNode]: the new cell is zeroed, then its four fields are
    set.  Both call sites pass the address of a live [Value], so the
    assertion on [pVal] holds; [malloc] is taken to succeed. *)
Definition CreateAstExprNode (tk : TokenKind) (pVal : Value)
    (left right : AstExprNodePtr) : M AstExprNodePtr :=
  let* pNode := malloc in
  let* _ := modify (fun w => set_heap (<[pNode := mkNode tk pVal left right]> (heap w)) w) in
  ret (Addr pNode).

(** Reading and writing through a node pointer.  Following [NULL] or an
    address that holds no node is undefined. *)
Definition load (p : AstExprNodePtr) : M astExprNode := fun w =>
  match p with
  | NULL => Stop Undefined w
  | Addr l =>
      match heap w !! l with
      | Some nd => Ret nd w
      | None => Stop Undefined w
      end
  end.

Definition store (p : AstExprNodePtr) (f : astExprNode → astExprNode) : M unit :=
  let* nd := load p in
  match p with
  | NULL => halt Undefined
  | Addr l => modify (fun w => set_heap (<[l := f nd]> (heap w)) w)
  end.

Definition set_kids0 (k : AstExprNodePtr) (nd : astExprNode) : astExprNode :=
  mkNode (op nd) (value nd) k (kids1 nd).

Definition set_kids1 (k : AstExprNodePtr) (nd : astExprNode) : astExprNode :=
  mkNode (op nd) (value nd) (kids0 nd) k.

Definition curKind : M TokenKind := get (fun w => kind (curToken w)).

Definition is_mop (k : TokenKind) : bool :=
  bool_decide (k = TK_MUL) || bool_decide (k = TK_DIV).

Definition is_aop (k : TokenKind) : bool :=
  bool_decide (k = TK_SUB) || bool_decide (k = TK_ADD).

(** The parser.  The C functions call each other recursively; the
    embedding counts the depth of the calls (each call and each loop
    iteration takes one unit) and gives up when the count is used up.
    [Expression_total] below shows that this never happens when the count
    is large enough for the input. *)
Fixpoint PrimaryExpression (n : nat) : M AstExprNodePtr :=
  match n with
  | O => out_of_fuel
  | S n =>
      let* k := curKind in
      if decide (k = TK_NUM) then
        let* v := get (fun w => tokval (curToken w)) in
        let* expr := CreateAstExprNode k v NULL NULL in
        let* _ := NEXT_TOKEN in
        ret expr
      else if decide (k = TK_LPAREN) then
        let* _ := NEXT_TOKEN in
        let* expr := Expression n in
        let* _ := Expect TK_RPAREN in
        ret expr
      else
        let* _ := Error "number or '(' expected" in
        ret NULL
  end

with MultiplicativeExpression (n : nat) : M AstExprNodePtr :=
  match n with
  | O => out_of_fuel
  | S n =>
      let* left := PrimaryExpression n in
      MultiplicativeExpression_while n left
  end

(** [while (curToken.kind == TK_MUL || curToken.kind == TK_DIV) { ... }] *)
with MultiplicativeExpression_while (n : nat) (left : AstExprNodePtr)
    : M AstExprNodePtr :=
  match n with
  | O => out_of_fuel
  | S n =>
      let* k := curKind in
      if is_mop k then
        let* t := NewTemp in
        let* k := curKind in
        let* expr := CreateAstExprNode k (mkValue (temp_name t) 0) NULL NULL in
        let* _ := NEXT_TOKEN in
        let* _ := store expr (set_kids0 left) in
        let* right := PrimaryExpression n in
        let* _ := store expr (set_kids1 right) in
        MultiplicativeExpression_while n expr
      else ret left
  end

with AdditiveExpression (n : nat) : M AstExprNodePtr :=
  match n with
  | O => out_of_fuel
  | S n =>
      let* left := MultiplicativeExpression n in
      AdditiveExpression_while n left
  end

(** [while (curToken.kind == TK_SUB || curToken.kind == TK_ADD) { ... }] *)
with AdditiveExpression_while (n : nat) (left : AstExprNodePtr)
    : M AstExprNodePtr :=
  match n with
  | O => out_of_fuel
  | S n =>
      let* k := curKind in
      if is_aop k then
        let* t := NewTemp in
        let* k := curKind in
        let* expr := CreateAstExprNode k (mkValue (temp_name t) 0) NULL NULL in
        let* _ := NEXT_TOKEN in
        let* _ := store expr (set_kids0 left) in
        let* right := MultiplicativeExpression n in
        let* _ := store expr (set_kids1 right) in
        AdditiveExpression_while n expr
      else ret left
  end

with Expression (n : nat) : M AstExprNodePtr :=
  match n with
  | O => out_of_fuel
  | S n => AdditiveExpression n
  end.

(** [isArithmeticOperator] *)
Definition isArithmeticOperator (tk : TokenKind) : bool :=
  bool_decide (tk = TK_ADD) || bool_decide (tk = TK_SUB)
  || bool_decide (tk = TK_MUL) || bool_decide (tk = TK_DIV).

Definition is_null (p : AstExprNodePtr) : bool :=
  match p with NULL => true | Addr _ => false end.

Definition newline : string := String (Ascii.ascii_of_nat 10) EmptyString.

(** The text of ["%s = %s <sym> %s\n"] for the three names. *)
Definition instruction (sym d a b : string) : string :=
  d +:+ " = " +:+ a +:+ " " +:+ sym +:+ " " +:+ b +:+ newline.

(** [EmitIR("%s = %s <sym> %s\n", d, a, b)] *)
Definition EmitIR (sym d a b : string) : M unit :=
  modify (print (instruction sym d a b)).

(** [p->value.name] *)
Definition name_of (p : AstExprNodePtr) : M string :=
  let* nd := load p in ret (name (value nd)).

(** [EvalExpression].  Every [root->...] of the C text is a read of the
    heap at the moment it is executed. *)
Fixpoint EvalExpression (n : nat) (root : AstExprNodePtr) : M Z :=
  match n with
  | O => out_of_fuel
  | S n =>
      let* _ := assert (negb (is_null root)) in
      let* nd := load root in
      if decide (op nd = TK_NUM) then
        ret (numVal (value nd))
      else if isArithmeticOperator (op nd) then
        let* _ := assert (negb (is_null (kids0 nd))) in
        let* _ := assert (negb (is_null (kids1 nd))) in
        let* leftOperand := EvalExpression n (kids0 nd) in
        let* nd := load root in
        let* rightOperand := EvalExpression n (kids1 nd) in
        let* nd := load root in
        match op nd with
        | TK_ADD =>
            let* d := name_of root in let* a := name_of (kids0 nd) in let* b := name_of (kids1 nd) in
            let* _ := EmitIR "+" d a b in
            ret (long_add leftOperand rightOperand)
        | TK_SUB =>
            let* d := name_of root in let* a := name_of (kids0 nd) in let* b := name_of (kids1 nd) in
            let* _ := EmitIR "-" d a b in
            ret (long_sub leftOperand rightOperand)
        | TK_MUL =>
            let* d := name_of root in let* a := name_of (kids0 nd) in let* b := name_of (kids1 nd) in
            let* _ := EmitIR "*" d a b in
            ret (long_mul leftOperand rightOperand)
        | TK_DIV =>
            match long_div leftOperand rightOperand with
            | None => halt Undefined
            | Some result =>
                let* d := name_of root in let* a := name_of (kids0 nd) in let* b := name_of (kids1 nd) in
                let* _ := EmitIR "/" d a b in
                ret result
            end
        | _ => ret 0%Z
        end
      else
        let* _ := Error "Unknown operator/operand" in
        ret 0%Z
  end.

End Program.

(** [free(p)]: the cell is given back; freeing an address that holds no
    node (a second time, say) is undefined. *)
Definition free (p : AstExprNodePtr) : M unit := fun w =>
  match p with
  | NULL => Ret tt w
  | Addr l =>
      match heap w !! l with
      | Some _ => Ret tt (set_heap (delete l (heap w)) w)
      | None => Stop Undefined w
      end
  end.

(** [ReleaseAstExpr]: both subtrees, then the node itself.  The count is
    the depth of the recursion, as for the parser. *)
Fixpoint ReleaseAstExpr (n : nat) (root : AstExprNodePtr) : M unit :=
  match n with
  | O => out_of_fuel
  | S n =>
      if is_null root then ret tt
      else
        let* nd := load root in
        let* _ := ReleaseAstExpr n (kids0 nd) in
        let* nd := load root in
        let* _ := ReleaseAstExpr n (kids1 nd) in
        free root
  end.

(** ** Running the program on a token stream *)

Definition num (s : string) (v : Z) : Token := mkToken TK_NUM (mkValue s v).

Definition sym (k : TokenKind) (s : string) : Token := mkToken k (mkValue s 0).

(** The world in which [main] calls [Expression]: [tmpNo] still has its
    static initial value, nothing is allocated or printed, and the first
    token has been loaded. *)
Definition start (ts : list Token) : World :=
  mkWorld 0 (fst (GetToken ts)) (snd (GetToken ts)) ∅ [] [].

(** A collaborator whose [Error] ends the process. *)
Definition host : Collaborators := mkCollaborators 127 false (fun _ => "expected").

(** A collaborator whose [Error] returns. *)
Definition lenient : Collaborators := mkCollaborators 127 true (fun _ => "expected").

Definition run (C : Collaborators) (n : nat) (ts : list Token) : outcome Z :=
  (let* root := Expression C n in EvalExpression C n root) (start ts).

(** What a run shows to the outside: the value returned, the lines
    printed and the messages reported. *)
Definition summary (r : outcome Z) : option (Z * list string * list string) :=
  match r with
  | Ret v w => Some (v, out w, err w)
  | _ => None
  end.

(** [n] calls of [NewTemp] in a row, and the values they return. *)
Fixpoint NewTemps (n : nat) : M (list Z) :=
  match n with
  | O => ret []
  | S n => let* t := NewTemp in let* ts := NewTemps n in ret (t :: ts)
  end.

(** ** Sample inputs *)

(** The token streams of ["2 * 3 + 4"], ["(1 + 2) * 3"] and ["3 + 4"].
    The name a literal token carries is the lexer's business and is left
    open. *)
Definition input_2_mul_3_add_4 (a b c : string) : list Token :=
  [num a 2; sym TK_MUL "*"; num b 3; sym TK_ADD "+"; num c 4].

Definition input_paren_1_add_2_mul_3 (a b c : string) : list Token :=
  [sym TK_LPAREN "("; num a 1; sym TK_ADD "+"; num b 2; sym TK_RPAREN ")";
   sym TK_MUL "*"; num c 3].

Definition input_3_add_4 (a b : string) : list Token :=
  [num a 3; sym TK_ADD "+"; num b 4].


(** The tokens of ["(1 + 2"]. *)
Definition input_unterminated (a b : string) : list Token :=
  [sym TK_LPAREN "("; num a 1; sym TK_ADD "+"; num b 2].

(** The tokens of ["(0 - 7) / 2"]. *)
Definition input_minus_7_div_2 : list Token :=
  [sym TK_LPAREN "("; num "0" 0; sym TK_SUB "-"; num "7" 7; sym TK_RPAREN ")";
   sym TK_DIV "/"; num "2" 2].

(** The tokens of ["(0 - 9223372036854775807 - 1) / (0 - 1)"]. *)
Definition input_min_div_minus_1 : list Token :=
  [sym TK_LPAREN "("; num "0" 0; sym TK_SUB "-";
   num "9223372036854775807" 9223372036854775807; sym TK_SUB "-"; num "1" 1;
   sym TK_RPAREN ")"; sym TK_DIV "/";
   sym TK_LPAREN "("; num "0" 0; sym TK_SUB "-"; num "1" 1; sym TK_RPAREN ")"].

(** The three nodes of ["3 + 4"], laid out by hand. *)
Definition heap_3_add_4 : gmap positive astExprNode :=
  <[3%positive := mkNode TK_ADD (mkValue "t0" 0) (Addr 1) (Addr 2)]>
    (<[2%positive := mkNode TK_NUM (mkValue "4" 4) NULL NULL]>
       (<[1%positive := mkNode TK_NUM (mkValue "3" 3) NULL NULL]> ∅)).

(** The three nodes of ["7 / 2"], laid out by hand. *)
Definition heap_7_div_2 : gmap positive astExprNode :=
  <[3%positive := mkNode TK_DIV (mkValue "t0" 0) (Addr 1) (Addr 2)]>
    (<[2%positive := mkNode TK_NUM (mkValue "2" 2) NULL NULL]>
       (<[1%positive := mkNode TK_NUM (mkValue "7" 7) NULL NULL]> ∅)).

(** * Notions used to state the properties *)

(** ** The two operator layers share one shape

    [MultiplicativeExpression] and [AdditiveExpression] are the same text
    up to the operators they accept and the function that parses an
    operand.  [binary_while] is that shape; [MultiplicativeExpression_while_eq]
    and [AdditiveExpression_while_eq] below show that the two loops of
    expr.c are instances of it, so that each property of the loops is
    proved once. *)

Section Layer.

Context (C : Collaborators).
Context (isop : TokenKind → bool) (operand : nat → M AstExprNodePtr).

(** One iteration: the node for the operator under the cursor. *)
Definition operator_node (n : nat) (left : AstExprNodePtr) : M AstExprNodePtr :=
  let* t := NewTemp in
  let* k := curKind in
  let* expr := CreateAstExprNode k (mkValue (temp_name C t) 0) NULL NULL in
  let* _ := NEXT_TOKEN in
  let* _ := store expr (set_kids0 left) in
  let* right := operand n in
  let* _ := store expr (set_kids1 right) in
  ret expr.

Fixpoint binary_while (n : nat) (left : AstExprNodePtr) : M AstExprNodePtr :=
  match n with
  | O => out_of_fuel
  | S n =>
      let* k := curKind in
      if isop k then
        let* expr := operator_node n left in
        binary_while n expr
      else ret left
  end.

End Layer.

(** The world once [operator_node] has numbered, allocated and linked the
    node of the operator under the cursor and has skipped the operator. *)
Definition enter_operator (C : Collaborators) (left : AstExprNodePtr) (w : World) : World :=
  let nd := mkNode (kind (curToken w)) (mkValue (temp_name C (tmpNo w)) 0) left NULL in
  advance (set_heap (<[fresh (dom (heap w)) := nd]> (heap w))
             (set_tmpNo (wrap_int (tmpNo w + 1)) w)).

(** The world once [PrimaryExpression] has built the node of the literal
    under the cursor and has skipped the literal. *)
Definition enter_literal (w : World) : World :=
  advance (set_heap (<[fresh (dom (heap w)) :=
                         mkNode TK_NUM (tokval (curToken w)) NULL NULL]> (heap w)) w).

(** ** What a parse leaves alone *)

(** Tokens still to be consumed: the cursor, unless it is at the end of
    the input, and the rest of the stream. *)
Definition pending (w : World) : nat :=
  length (source w) + (if decide (kind (curToken w) = TK_EOF) then 0 else 1).

(** A parsing call changes no cell that existed when it was entered,
    prints nothing, never moves the cursor backwards, and stops only by
    way of [Error], with exactly one message. *)
Definition framed (C : Collaborators) {A} (w : World) (r : outcome A) : Prop :=
  match r with
  | Ret _ w' =>
      heap w ⊆ heap w' ∧ out w' = out w ∧ pending w' ≤ pending w
      ∧ length (err w) ≤ length (err w')
      ∧ (error_returns C = false → err w' = err w)
  | Stop s w' =>
      s = Exited ∧ error_returns C = false ∧ out w' = out w
      ∧ ∃ msg, err w' = err w ++ [msg]
  | OutOfFuel => True
  end.

(** ** The tree a pointer stands for *)

(** The shape the parser builds: a literal, or an operator with its
    destination and two operands. *)
Inductive tree : Set :=
  | Leaf (v : Value)
  | Bin (o : TokenKind) (v : Value) (a b : tree).

(** [repr D h p t]: in heap [h], pointer [p] is the root of [t], and no
    node of [t] lives at an address of [D]. *)
Fixpoint repr (D : gset positive) (h : gmap positive astExprNode)
    (p : AstExprNodePtr) (t : tree) : Prop :=
  match t with
  | Leaf v =>
      ∃ l, p = Addr l ∧ (l ∉ D) ∧ h !! l = Some (mkNode TK_NUM v NULL NULL)
  | Bin o v a b =>
      ∃ l pa pb, p = Addr l ∧ (l ∉ D) ∧ isArithmeticOperator o = true
        ∧ h !! l = Some (mkNode o v pa pb) ∧ repr D h pa a ∧ repr D h pb b
  end.

(** Operators, destinations and literals of a tree, from left to right. *)
Fixpoint operators (t : tree) : list TokenKind :=
  match t with
  | Leaf _ => []
  | Bin o _ a b => operators a ++ o :: operators b
  end.

Fixpoint temporaries (t : tree) : list string :=
  match t with
  | Leaf _ => []
  | Bin _ v a b => temporaries a ++ name v :: temporaries b
  end.

Fixpoint literals (t : tree) : list Value :=
  match t with
  | Leaf v => [v]
  | Bin _ _ a b => literals a ++ literals b
  end.

Fixpoint height (t : tree) : nat :=
  match t with
  | Leaf _ => 0
  | Bin _ _ a b => S (Nat.max (height a) (height b))
  end.

(** ** The tokens a parse consumes *)

Definition tokens (w : World) : list Token := curToken w :: source w.

Fixpoint operator_tokens (ts : list Token) : list TokenKind :=
  match ts with
  | [] => []
  | t :: ts =>
      if isArithmeticOperator (kind t) then kind t :: operator_tokens ts
      else operator_tokens ts
  end.

Fixpoint literal_tokens (ts : list Token) : list Value :=
  match ts with
  | [] => []
  | t :: ts =>
      if decide (kind t = TK_NUM) then tokval t :: literal_tokens ts
      else literal_tokens ts
  end.

(** ** The temporaries a parse allocates *)

(** The values of [n] successive calls of [NewTemp] when the counter is
    [k], and the counter afterwards. *)
Fixpoint allocated (n : nat) (k : Z) : list Z :=
  match n with
  | O => []
  | S n => k :: allocated n (wrap_int (k + 1))
  end.

Fixpoint counter_after (n : nat) (k : Z) : Z :=
  match n with
  | O => k
  | S n => counter_after n (wrap_int (k + 1))
  end.

(** ** What a successful parse builds *)

(** [parsed w0 p w t]: between [w0] and [w] the parser has built [t] at
    [p] out of fresh cells; the operators and literals of [t] are, in
    order, the operator and literal tokens consumed; the destinations of
    its operators are, in the same order, the temporaries allocated. *)
Definition parsed (C : Collaborators) (w0 : World) (p : AstExprNodePtr) (w : World) (t : tree) : Prop :=
  repr (dom (heap w0)) (heap w) p t
  ∧ operator_tokens (tokens w0) = operators t ++ operator_tokens (tokens w)
  ∧ literal_tokens (tokens w0) = literals t ++ literal_tokens (tokens w)
  ∧ temporaries t = map (temp_name C) (allocated (length (operators t)) (tmpNo w0))
  ∧ tmpNo w = counter_after (length (operators t)) (tmpNo w0).

(** No message was handed to [Error] between [w] and [w']. *)
Definition quiet (w w' : World) : Prop := length (err w') ≤ length (err w).

Definition builds (C : Collaborators) (m : M AstExprNodePtr) : Prop :=
  ∀ w p w', m w = Ret p w' → quiet w w' → ∃ t, parsed C w p w' t.

(** A successful parse: the call returned and reported nothing. *)
Definition parses (C : Collaborators) (w : World) (p : AstExprNodePtr) (w' : World) : Prop :=
  ∃ n, Expression C n w = Ret p w' ∧ quiet w w'.

(** [k], [k + 1], ..., [k + n - 1]. *)
Definition consecutive (k : Z) (n : nat) : list Z :=
  map (fun i => (k + Z.of_nat i)%Z) (seq 0 n).

(** Each number of the list is smaller than those after it. *)
Definition increasing (l : list Z) : Prop :=
  ∀ i j a b, i < j → l !! i = Some a → l !! j = Some b → (a < b)%Z.

(** The destinations of a tree are numbered [k], [k + 1], ... from left to
    right. *)
Definition numbered_from (C : Collaborators) (k : Z) (t : tree) : Prop :=
  temporaries t = map (temp_name C) (consecutive k (length (operators t))).

(** The structural invariant of the nodes below a pointer: a literal node
    has no children, an operator node has two, and nothing else occurs. *)
Inductive well_shaped (h : gmap positive astExprNode) : AstExprNodePtr → Prop :=
  | shaped_literal l nd :
      h !! l = Some nd → op nd = TK_NUM →
      kids0 nd = NULL → kids1 nd = NULL →
      well_shaped h (Addr l)
  | shaped_operator l nd :
      h !! l = Some nd → isArithmeticOperator (op nd) = true →
      kids0 nd ≠ NULL → kids1 nd ≠ NULL →
      well_shaped h (kids0 nd) → well_shaped h (kids1 nd) →
      well_shaped h (Addr l).

(** ** Evaluation *)

(** [untouched w w']: the globals of the parser and every cell of the
    heap are in [w'] what they were in [w]. *)
Definition untouched (w w' : World) : Prop :=
  heap w' = heap w ∧ tmpNo w' = tmpNo w
  ∧ curToken w' = curToken w ∧ source w' = source w.

Definition reads_only {A} (m : M A) : Prop :=
  ∀ w, match m w with
       | Ret _ w' | Stop _ w' => untouched w w'
       | OutOfFuel => True
       end.

Definition root_name (t : tree) : string :=
  match t with Leaf v | Bin _ v _ _ => name v end.

(** What [EvalExpression] computes and prints, read off the tree. *)
Fixpoint eval_tree (t : tree) : M Z :=
  match t with
  | Leaf v => ret (numVal v)
  | Bin o v a b =>
      let* l := eval_tree a in
      let* r := eval_tree b in
      let emit s := EmitIR s (name v) (root_name a) (root_name b) in
      match o with
      | TK_ADD => let* _ := emit "+" in ret (long_add l r)
      | TK_SUB => let* _ := emit "-" in ret (long_sub l r)
      | TK_MUL => let* _ := emit "*" in ret (long_mul l r)
      | TK_DIV =>
          match long_div l r with
          | None => halt Undefined
          | Some q => let* _ := emit "/" in ret q
          end
      | _ => ret 0%Z
      end
  end.

Definition symbol (o : TokenKind) : string :=
  match o with
  | TK_ADD => "+" | TK_SUB => "-" | TK_MUL => "*" | TK_DIV => "/" | _ => ""
  end.

(** One instruction per operator, operands before the operator that uses
    them. *)
Fixpoint code (t : tree) : list string :=
  match t with
  | Leaf _ => []
  | Bin o v a b =>
      code a ++ code b ++ [instruction (symbol o) (name v) (root_name a) (root_name b)]
  end.

Fixpoint arith_tree (t : tree) : Prop :=
  match t with
  | Leaf _ => True
  | Bin o _ a b => isArithmeticOperator o = true ∧ arith_tree a ∧ arith_tree b
  end.

(** ** The depth count *)

Definition fuel_le {A} (r r' : outcome A) : Prop := r = OutOfFuel ∨ r = r'.

(** ** Two parses of the same input *)

Definition same_input (w1 w2 : World) : Prop :=
  tmpNo w1 = tmpNo w2 ∧ curToken w1 = curToken w2 ∧ source w1 = source w2.

Definition alike {A} (r1 r2 : outcome A) : Prop :=
  match r1, r2 with
  | Ret _ v1, Ret _ v2 => same_input v1 v2
  | Stop s1 _, Stop s2 _ => s1 = s2
  | OutOfFuel, OutOfFuel => True
  | _, _ => False
  end.

(** ** Ownership *)

(** [owns h p t F]: in heap [h], pointer [p] is the root of [t], the nodes
    of [t] live at the addresses of [F], and no two of them at the same
    address. *)
Fixpoint owns (h : gmap positive astExprNode) (p : AstExprNodePtr) (t : tree)
    (F : gset positive) : Prop :=
  match t with
  | Leaf v =>
      ∃ l, p = Addr l ∧ F = {[l]} ∧ h !! l = Some (mkNode TK_NUM v NULL NULL)
  | Bin o v a b =>
      ∃ l pa pb Fa Fb,
        p = Addr l ∧ F = {[l]} ∪ Fa ∪ Fb
        ∧ (l ∉ Fa) ∧ (l ∉ Fb) ∧ Fa ## Fb
        ∧ isArithmeticOperator o = true
        ∧ h !! l = Some (mkNode o v pa pb) ∧ owns h pa a Fa ∧ owns h pb b Fb
  end.

(** Number of nodes of a tree. *)
Fixpoint nodes (t : tree) : nat :=
  match t with
  | Leaf _ => 1
  | Bin _ _ a b => S (nodes a + nodes b)
  end.

(** [released F w w']: [w'] is [w] without the cells of [F]; nothing else
    differs. *)
Definition released (F : gset positive) (w w' : World) : Prop :=
  w' = set_heap (heap w') w
  ∧ heap w' ⊆ heap w ∧ dom (heap w') = dom (heap w) ∖ F.

(** [allocates m]: whenever [m] returns without a report, the cells it
    has added to the heap are exactly the nodes of the tree it returns. *)
Definition allocates (m : M AstExprNodePtr) : Prop :=
  ∀ w p w', m w = Ret p w' → quiet w w' →
    ∃ t F, owns (heap w') p t F ∧ F ## dom (heap w)
           ∧ dom (heap w') = dom (heap w) ∪ F.

(** The shape of what hangs below a pointer: nothing, below a null
    pointer, or a node and what hangs below its two children. *)
Inductive shape : Set :=
  | Hole
  | Node (a b : shape).

Fixpoint depth (s : shape) : nat :=
  match s with
  | Hole => 0
  | Node a b => S (Nat.max (depth a) (depth b))
  end.

(** [holds h p s F]: what hangs below [p] has shape [s], and its nodes
    are pairwise distinct cells, those of [F].  Unlike [owns] this says
    nothing about the contents of the nodes, and a child may be null. *)
Fixpoint holds (h : gmap positive astExprNode) (p : AstExprNodePtr) (s : shape)
    (F : gset positive) : Prop :=
  match s with
  | Hole => p = NULL ∧ F = ∅
  | Node a b =>
      ∃ l nd Fa Fb,
        p = Addr l ∧ F = {[l]} ∪ Fa ∪ Fb
        ∧ (l ∉ Fa) ∧ (l ∉ Fb) ∧ Fa ## Fb
        ∧ h !! l = Some nd
        ∧ holds h (kids0 nd) a Fa ∧ holds h (kids1 nd) b Fb
  end.

(** Whatever the call returns, the cells it has added hang below the
    pointer it returns. *)
Definition reserves (m : M AstExprNodePtr) : Prop :=
  ∀ w p w', m w = Ret p w' →
    ∃ s F, holds (heap w') p s F ∧ F ## dom (heap w)
           ∧ dom (heap w') = dom (heap w) ∪ F.

(** ** The value of a tree *)

(** The world once the lines [ls] have been printed. *)
Definition printed (ls : list string) (w : World) : World :=
  mkWorld (tmpNo w) (curToken w) (source w) (heap w) (out w ++ ls) (err w).

(** The value of a tree in the arithmetic of [long]; there is none where
    a division has no result. *)
Fixpoint value_of (t : tree) : option Z :=
  match t with
  | Leaf v => Some (numVal v)
  | Bin o _ a b =>
      match value_of a, value_of b with
      | Some l, Some r =>
          match o with
          | TK_ADD => Some (long_add l r)
          | TK_SUB => Some (long_sub l r)
          | TK_MUL => Some (long_mul l r)
          | TK_DIV => long_div l r
          | _ => Some 0%Z
          end
      | _, _ => None
      end
  end.

(** The value of a tree in the integers: sum, difference, product, and
    the quotient truncated towards zero. *)
Fixpoint exact (t : tree) : option Z :=
  match t with
  | Leaf v => Some (numVal v)
  | Bin o _ a b =>
      match exact a, exact b with
      | Some l, Some r =>
          match o with
          | TK_ADD => Some (l + r)%Z
          | TK_SUB => Some (l - r)%Z
          | TK_MUL => Some (l * r)%Z
          | TK_DIV => if decide (r = 0%Z) then None else Some (Z.quot l r)
          | _ => Some 0%Z
          end
      | _, _ => None
      end
  end.

Definition LONG_MAX : Z := (2 ^ 63 - 1)%Z.

(** Every literal and every intermediate result of the tree is a [long]. *)
Fixpoint fits (t : tree) : Prop :=
  match exact t with
  | Some z => (LONG_MIN ≤ z ≤ LONG_MAX)%Z
  | None => True
  end
  ∧ match t with
    | Leaf _ => True
    | Bin _ _ a b => fits a ∧ fits b
    end.

(** ** The grammar

    The comments of expr.c give the grammar the parser is written for:
    a primary expression is a number or an expression in parentheses; a
    multiplicative expression is a chain of primary expressions joined by
    [*] and [/]; an additive expression is a chain of multiplicative
    expressions joined by [+] and [-]; an expression is an additive
    expression.  A chain stands for the expression that groups it from
    the left. *)

(** An expression, without the names of its temporaries. *)
Inductive expr : Set :=
  | Num (v : Value)
  | Op (o : TokenKind) (a b : expr).

Fixpoint nops (e : expr) : nat :=
  match e with
  | Num _ => 0
  | Op _ a b => nops a + S (nops b)
  end.

(** The tree of an expression when the counter of the temporaries stands
    at [k]: an operator is numbered after the operators of its left
    operand and before those of its right operand. *)
Fixpoint label (C : Collaborators) (k : Z) (e : expr) : tree :=
  match e with
  | Num v => Leaf v
  | Op o a b =>
      Bin o (mkValue (temp_name C (counter_after (nops a) k)) 0)
        (label C k a)
        (label C (wrap_int (counter_after (nops a) k + 1)) b)
  end.

Inductive level : Set := Additive | Multiplicative | Primary.

(** [derives lv e ts]: the tokens [ts] are a phrase of level [lv] and [e]
    is the expression they stand for. *)
Inductive derives : level → expr → list Token → Prop :=
  | derives_num t :
      kind t = TK_NUM → derives Primary (Num (tokval t)) [t]
  | derives_paren l r e ts :
      kind l = TK_LPAREN → kind r = TK_RPAREN →
      derives Additive e ts → derives Primary e (l :: ts ++ [r])
  | derives_primary e ts :
      derives Primary e ts → derives Multiplicative e ts
  | derives_mop t a ta b tb :
      is_mop (kind t) = true →
      derives Multiplicative a ta → derives Primary b tb →
      derives Multiplicative (Op (kind t) a b) (ta ++ t :: tb)
  | derives_multiplicative e ts :
      derives Multiplicative e ts → derives Additive e ts
  | derives_aop t a ta b tb :
      is_aop (kind t) = true →
      derives Additive a ta → derives Multiplicative b tb →
      derives Additive (Op (kind t) a b) (ta ++ t :: tb).

(** The tokens the cursor shows from [w] on begin with [l]. *)
Fixpoint reads (w : World) (l : list Token) : Prop :=
  match l with
  | [] => True
  | t :: l => curToken w = t ∧ reads (advance w) l
  end.

(** The cursor of [w'] stands where the cursor of [w] stands once it has
    passed over the tokens [ts]. *)
Fixpoint passes (w : World) (ts : list Token) (w' : World) : Prop :=
  match ts with
  | [] => curToken w' = curToken w ∧ source w' = source w
  | t :: ts => curToken w = t ∧ passes (advance w) ts w'
  end.

(** For some depth count, the call returns [a] and leaves [w']. *)
Definition returns {A} (m : nat → M A) (w : World) (a : A) (w' : World) : Prop :=
  ∃ n, m n w = Ret a w'.

(** Between [w] and [w'] the tree of [e] was built at [p], out of fresh
    cells and with the temporaries the counter gave. *)
Definition grown (C : Collaborators) (w : World) (p : AstExprNodePtr) (w' : World)
    (e : expr) : Prop :=
  repr (dom (heap w)) (heap w') p (label C (tmpNo w) e)
  ∧ heap w ⊆ heap w'
  ∧ tmpNo w' = counter_after (nops e) (tmpNo w).

(** The same, and no message went to [Error]. *)
Definition built (C : Collaborators) (w : World) (p : AstExprNodePtr) (w' : World)
    (e : expr) : Prop :=
  grown C w p w' e ∧ err w' = err w.

Definition not_mop (rest : list Token) : Prop :=
  match rest with
  | r :: _ => is_mop (kind r) = false
  | [] => False
  end.

(** What the function of a level does on a phrase of that level: the
    function for primary expressions returns its tree; the other two reach
    their loop with the tree as left operand. *)
Definition accepts (C : Collaborators) (lv : level) (e : expr) (ts : list Token) : Prop :=
  ∀ w rest, reads w (ts ++ rest) →
    match lv with
    | Primary =>
        ∃ p w1, returns (PrimaryExpression C) w p w1
                ∧ reads w1 rest ∧ built C w p w1 e
    | Multiplicative =>
        ∃ p w1, reads w1 rest ∧ built C w p w1 e
                ∧ ∀ q w2,
                    returns (fun n => binary_while C is_mop (PrimaryExpression C) n p) w1 q w2 →
                    returns (MultiplicativeExpression C) w q w2
    | Additive =>
        not_mop rest →
        ∃ p w1, reads w1 rest ∧ built C w p w1 e
                ∧ ∀ q w2,
                    returns (fun n => binary_while C is_aop (MultiplicativeExpression C) n p) w1 q w2 →
                    returns (AdditiveExpression C) w q w2
    end.

(** Between [w0] and [w] the cursor has passed over a phrase of level
    [lv], and [p] is the tree of the expression the phrase stands for. *)
Definition shaped (C : Collaborators) (w0 : World) (lv : level) (p : AstExprNodePtr)
    (w : World) : Prop :=
  ∃ ts e, derives lv e ts ∧ passes w0 ts w ∧ grown C w0 p w e.

Definition derived (C : Collaborators) (lv : level) (m : M AstExprNodePtr) : Prop :=
  ∀ w p w', m w = Ret p w' → quiet w w' → shaped C w lv p w'.

(** * Properties *)

(** ** The equations of the parser *)

(** Case analysis on the innermost call of a chain of [bind]s. *)
Ltac step_matches :=
  repeat match goal with
         | |- context [match ?m with Ret _ _ => _ | Stop _ _ => _ | OutOfFuel => _ end] =>
             lazymatch m with
             | context [match _ with Ret _ _ => _ | Stop _ _ => _ | OutOfFuel => _ end] => fail
             | _ => destruct m; try reflexivity
             end
         end.

Section Equations.

Context (C : Collaborators).

Lemma PrimaryExpression_S n :
  PrimaryExpression C (S n) =
    (let* k := curKind in
     if decide (k = TK_NUM) then
       let* v := get (fun w => tokval (curToken w)) in
       let* expr := CreateAstExprNode k v NULL NULL in
       let* _ := NEXT_TOKEN in
       ret expr
     else if decide (k = TK_LPAREN) then
       let* _ := NEXT_TOKEN in
       let* expr := Expression C n in
       let* _ := Expect C TK_RPAREN in
       ret expr
     else
       let* _ := Error C "number or '(' expected" in
       ret NULL).
Proof. reflexivity. Qed.

Lemma MultiplicativeExpression_S n :
  MultiplicativeExpression C (S n) =
    (let* left := PrimaryExpression C n in MultiplicativeExpression_while C n left).
Proof. reflexivity. Qed.

Lemma AdditiveExpression_S n :
  AdditiveExpression C (S n) =
    (let* left := MultiplicativeExpression C n in AdditiveExpression_while C n left).
Proof. reflexivity. Qed.

Lemma Expression_S n : Expression C (S n) = AdditiveExpression C n.
Proof. reflexivity. Qed.

(** The loop of [MultiplicativeExpression] is [binary_while] over
    [PrimaryExpression]. *)
Lemma MultiplicativeExpression_while_eq n left w :
  MultiplicativeExpression_while C n left w =
    binary_while C is_mop (PrimaryExpression C) n left w.
Proof.
  revert left w. induction n as [|n IH]; intros left w; [reflexivity|].
  cbn [binary_while].
  change (MultiplicativeExpression_while C (S n) left) with
    (let* k := curKind in
     if is_mop k then
       let* t := NewTemp in
       let* k := curKind in
       let* expr := CreateAstExprNode k (mkValue (temp_name C t) 0) NULL NULL in
       let* _ := NEXT_TOKEN in
       let* _ := store expr (set_kids0 left) in
       let* right := PrimaryExpression C n in
       let* _ := store expr (set_kids1 right) in
       MultiplicativeExpression_while C n expr
     else ret left).
  cbv beta iota delta [operator_node bind curKind get ret].
  destruct (is_mop _); [|reflexivity].
  step_matches. apply IH.
Qed.

(** The loop of [AdditiveExpression] is [binary_while] over
    [MultiplicativeExpression]. *)
Lemma AdditiveExpression_while_eq n left w :
  AdditiveExpression_while C n left w =
    binary_while C is_aop (MultiplicativeExpression C) n left w.
Proof.
  revert left w. induction n as [|n IH]; intros left w; [reflexivity|].
  cbn [binary_while].
  change (AdditiveExpression_while C (S n) left) with
    (let* k := curKind in
     if is_aop k then
       let* t := NewTemp in
       let* k := curKind in
       let* expr := CreateAstExprNode k (mkValue (temp_name C t) 0) NULL NULL in
       let* _ := NEXT_TOKEN in
       let* _ := store expr (set_kids0 left) in
       let* right := MultiplicativeExpression C n in
       let* _ := store expr (set_kids1 right) in
       AdditiveExpression_while C n expr
     else ret left).
  cbv beta iota delta [operator_node bind curKind get ret].
  destruct (is_aop _); [|reflexivity].
  step_matches. apply IH.
Qed.

End Equations.

(** ** What one call does, case by case *)

Section Cases.

Context (C : Collaborators).

(** One iteration of a loop, as a function of what the operand parser
    does in the world [enter_operator] leaves. *)
Lemma operator_node_cases operand n left w :
  operator_node C operand n left w =
    match operand n (enter_operator C left w) with
    | Ret rhs w' =>
        match heap w' !! fresh (dom (heap w)) with
        | Some nd =>
            Ret (Addr (fresh (dom (heap w))))
              (set_heap (<[fresh (dom (heap w)) := set_kids1 rhs nd]> (heap w')) w')
        | None => Stop Undefined w'
        end
    | Stop s w' => Stop s w'
    | OutOfFuel => OutOfFuel
    end.
Proof.
  unfold operator_node, enter_operator.
  cbv beta iota delta [bind NewTemp curKind get CreateAstExprNode malloc
                       modify NEXT_TOKEN store load ret halt].
  cbn [heap set_heap set_tmpNo tmpNo curToken source out err].
  assert (Hadv : ∀ v, heap (advance v) = heap v) by (intros v; unfold advance; destruct (GetToken _); reflexivity).
  rewrite Hadv. cbn [heap set_heap]. rewrite lookup_insert_eq.
  cbn [set_kids0 op value kids1].
  assert (Hset : ∀ v h, set_heap h (advance v) = advance (set_heap h v))
    by (intros v h; unfold advance; cbn; destruct (GetToken _); reflexivity).
  rewrite Hadv, Hset. cbn [heap set_heap]. rewrite insert_insert_eq.
  unfold set_heap at 1 2. cbn [heap set_heap set_tmpNo tmpNo curToken source out err].
  unfold set_heap at 2. cbn [heap set_heap set_tmpNo tmpNo curToken source out err].
  destruct (operand n _) as [rhs w'| |]; try reflexivity.
  destruct (heap w' !! _); reflexivity.
Qed.

Lemma binary_while_S isop operand n left w :
  binary_while C isop operand (S n) left w =
    if isop (kind (curToken w)) then
      match operator_node C operand n left w with
      | Ret expr w' => binary_while C isop operand n expr w'
      | Stop s w' => Stop s w'
      | OutOfFuel => OutOfFuel
      end
    else Ret left w.
Proof. cbn [binary_while]. unfold bind, curKind, get, ret. destruct (isop _); reflexivity. Qed.

Lemma PrimaryExpression_num n w :
  kind (curToken w) = TK_NUM →
  PrimaryExpression C (S n) w = Ret (Addr (fresh (dom (heap w)))) (enter_literal w).
Proof.
  intros Hk. rewrite PrimaryExpression_S.
  cbv beta iota delta [bind curKind get CreateAstExprNode malloc modify NEXT_TOKEN ret].
  rewrite Hk. reflexivity.
Qed.

Lemma Expect_cases tk w :
  Expect C tk w =
    if decide (kind (curToken w) = tk) then Ret tt (advance w)
    else Error C (expect_message C tk) w.
Proof. unfold Expect, bind, get. destruct (decide _); reflexivity. Qed.

Lemma PrimaryExpression_paren n w :
  kind (curToken w) = TK_LPAREN →
  PrimaryExpression C (S n) w =
    match Expression C n (advance w) with
    | Ret expr w' =>
        match Expect C TK_RPAREN w' with
        | Ret _ w'' => Ret expr w''
        | Stop s w'' => Stop s w''
        | OutOfFuel => OutOfFuel
        end
    | Stop s w' => Stop s w'
    | OutOfFuel => OutOfFuel
    end.
Proof.
  intros Hk. rewrite PrimaryExpression_S.
  cbv beta iota delta [bind curKind get modify NEXT_TOKEN ret].
  rewrite Hk. reflexivity.
Qed.

Lemma PrimaryExpression_other n w :
  kind (curToken w) ≠ TK_NUM → kind (curToken w) ≠ TK_LPAREN →
  PrimaryExpression C (S n) w =
    if error_returns C then Ret NULL (report "number or '(' expected" w)
    else Stop Exited (report "number or '(' expected" w).
Proof.
  intros Hn Hp. rewrite PrimaryExpression_S.
  cbv beta iota delta [bind curKind get ret Error].
  destruct (decide _) as [|_]; [done|]. destruct (decide _) as [|_]; [done|].
  destruct (error_returns C); reflexivity.
Qed.

Lemma MultiplicativeExpression_cases n w :
  MultiplicativeExpression C (S n) w =
    match PrimaryExpression C n w with
    | Ret lhs w' => binary_while C is_mop (PrimaryExpression C) n lhs w'
    | Stop s w' => Stop s w'
    | OutOfFuel => OutOfFuel
    end.
Proof.
  rewrite MultiplicativeExpression_S. unfold bind.
  destruct (PrimaryExpression C n w); try reflexivity.
  apply MultiplicativeExpression_while_eq.
Qed.

Lemma AdditiveExpression_cases n w :
  AdditiveExpression C (S n) w =
    match MultiplicativeExpression C n w with
    | Ret lhs w' => binary_while C is_aop (MultiplicativeExpression C) n lhs w'
    | Stop s w' => Stop s w'
    | OutOfFuel => OutOfFuel
    end.
Proof.
  rewrite AdditiveExpression_S. unfold bind.
  destruct (MultiplicativeExpression C n w); try reflexivity.
  apply AdditiveExpression_while_eq.
Qed.

End Cases.

(** ** What a parse leaves alone *)

Lemma heap_advance w : heap (advance w) = heap w.
Proof. unfold advance. destruct (GetToken _). reflexivity. Qed.

Lemma out_advance w : out (advance w) = out w.
Proof. unfold advance. destruct (GetToken _). reflexivity. Qed.

Lemma err_advance w : err (advance w) = err w.
Proof. unfold advance. destruct (GetToken _). reflexivity. Qed.

Lemma tmpNo_advance w : tmpNo (advance w) = tmpNo w.
Proof. unfold advance. destruct (GetToken _). reflexivity. Qed.

Lemma pending_advance w : pending (advance w) ≤ pending w.
Proof.
  unfold pending, advance.
  destruct (source w) as [|t s]; cbn; repeat case_decide; cbn in *; done || lia.
Qed.

Lemma pending_advance_lt w :
  kind (curToken w) ≠ TK_EOF → pending (advance w) < pending w.
Proof.
  intros Hk. unfold pending, advance.
  destruct (source w) as [|t s]; cbn; repeat case_decide; cbn in *; done || lia.
Qed.

Lemma pending_set_heap h w : pending (set_heap h w) = pending w.
Proof. reflexivity. Qed.

Lemma fresh_heap (h : gmap positive astExprNode) : h !! fresh (dom h) = None.
Proof. apply not_elem_of_dom, is_fresh. Qed.

Section Frame.

Context (C : Collaborators).

Lemma framed_step {A B} w (a : A) w1 (r : outcome B) :
  framed C w (Ret a w1) → framed C w1 r → framed C w r.
Proof.
  intros (Hh & Ho & Hp & He & Hx). destruct r as [b w2|s w2|]; cbn; [| |done].
  - intros (Hh' & Ho' & Hp' & He' & Hx'). repeat split.
    + by etrans.
    + congruence.
    + lia.
    + lia.
    + intros Hm. rewrite Hx', Hx; done.
  - intros (-> & Hm & Ho' & msg & Hmsg). repeat split; try done.
    + congruence.
    + exists msg. rewrite Hmsg, Hx; done.
Qed.

Lemma framed_advance {A} (a : A) w : framed C w (Ret a (advance w)).
Proof.
  cbn. rewrite heap_advance, out_advance, err_advance.
  repeat split; try done. apply pending_advance.
Qed.

Lemma framed_Error {A} msg (a : A) w :
  framed C w (if error_returns C then Ret a (report msg w) else Stop Exited (report msg w)).
Proof.
  destruct (error_returns C) eqn:Hm; cbn.
  - repeat split; try done; [rewrite length_app; cbn; lia | congruence].
  - repeat split; try done. by exists msg.
Qed.

Lemma framed_Expect tk w : framed C w (Expect C tk w).
Proof.
  rewrite Expect_cases. destruct (decide _).
  - apply framed_advance.
  - apply (framed_Error _ tt).
Qed.

Lemma framed_operator_node operand n left w :
  (∀ v, framed C v (operand n v)) →
  framed C w (operator_node C operand n left w).
Proof.
  intros Hop. rewrite operator_node_cases.
  specialize (Hop (enter_operator C left w)).
  set (l := fresh (dom (heap w))) in *.
  assert (Hl : heap w !! l = None) by apply fresh_heap.
  assert (He : heap (enter_operator C left w) !! l
               = Some (mkNode (kind (curToken w)) (mkValue (temp_name C (tmpNo w)) 0) left NULL)).
  { unfold enter_operator. rewrite heap_advance. cbn. apply lookup_insert_eq. }
  assert (Hsub : heap w ⊆ heap (enter_operator C left w)).
  { unfold enter_operator. rewrite heap_advance. cbn. by apply insert_subseteq. }
  assert (Hent : @framed C unit w (Ret tt (enter_operator C left w))).
  { cbn. unfold enter_operator. rewrite out_advance, err_advance.
    repeat split; try done.
    etrans; [apply pending_advance|]. done. }
  destruct (operand n _) as [rhs w'| |] eqn:Hrun; [| |done].
  - pose proof (framed_step _ _ _ _ Hent Hop) as (Hh & Ho & Hp & Hn & Hx).
    destruct Hop as (Hh' & _).
    rewrite (lookup_weaken _ _ _ _ He Hh').
    cbn. repeat split; try done.
    apply map_subseteq_spec. intros i x Hi.
    destruct (decide (i = l)) as [->|Hne]; [congruence|].
    rewrite lookup_insert_ne by done. by eapply lookup_weaken.
  - eapply framed_step; [exact Hent|exact Hop].
Qed.

Lemma framed_refl {A} (a : A) w : framed C w (Ret a w).
Proof. cbn. repeat split; done. Qed.

Lemma framed_binary_while isop operand n :
  (∀ k v, k < n → framed C v (operand k v)) →
  ∀ left w, framed C w (binary_while C isop operand n left w).
Proof.
  induction n as [|n IH]; intros Hop left w; [done|].
  rewrite binary_while_S. destruct (isop _); [|apply framed_refl].
  pose proof (framed_operator_node operand n left w) as Hnode.
  destruct (operator_node C operand n left w) as [expr w'| |].
  - eapply framed_step; [apply Hnode; intros; apply Hop; lia|].
    apply IH. intros; apply Hop; lia.
  - apply Hnode. intros; apply Hop; lia.
  - done.
Qed.

Lemma framed_enter_literal {A} (a : A) w : framed C w (Ret a (enter_literal w)).
Proof.
  cbn. unfold enter_literal. rewrite heap_advance, out_advance, err_advance. cbn.
  repeat split; try done.
  - apply insert_subseteq, fresh_heap.
  - etrans; [apply pending_advance|]. done.
Qed.

(** The four functions of the parser are framed, whatever the count and
    whatever [Error] does. *)
Lemma framed_parser n :
  (∀ w, framed C w (PrimaryExpression C n w))
  ∧ (∀ w, framed C w (MultiplicativeExpression C n w))
  ∧ (∀ w, framed C w (AdditiveExpression C n w))
  ∧ (∀ w, framed C w (Expression C n w)).
Proof.
  induction n as [n IH] using lt_wf_ind.
  destruct n as [|n]; [repeat split; done|].
  assert (HP : ∀ k v, k < S n → framed C v (PrimaryExpression C k v))
    by (intros k v Hk; apply (IH k Hk)).
  assert (HM : ∀ k v, k < S n → framed C v (MultiplicativeExpression C k v))
    by (intros k v Hk; apply (IH k Hk)).
  assert (HA : ∀ k v, k < S n → framed C v (AdditiveExpression C k v))
    by (intros k v Hk; apply (IH k Hk)).
  assert (HE : ∀ k v, k < S n → framed C v (Expression C k v))
    by (intros k v Hk; apply (IH k Hk)).
  repeat split; intros w.
  - destruct (decide (kind (curToken w) = TK_NUM)) as [Hn|Hn].
    { rewrite PrimaryExpression_num by done. apply framed_enter_literal. }
    destruct (decide (kind (curToken w) = TK_LPAREN)) as [Hp|Hp].
    2:{ rewrite PrimaryExpression_other by done. apply framed_Error. }
    rewrite PrimaryExpression_paren by done.
    eapply (framed_step _ tt); [apply framed_advance|].
    pose proof (HE n (advance w) (Nat.lt_succ_diag_r n)) as Hrun.
    destruct (Expression C n (advance w)) as [expr w'| |]; [|done|done].
    eapply framed_step; [exact Hrun|].
    pose proof (framed_Expect TK_RPAREN w') as Hex.
    destruct (Expect C TK_RPAREN w'); done.
  - rewrite MultiplicativeExpression_cases.
    pose proof (HP n w (Nat.lt_succ_diag_r n)) as Hrun.
    destruct (PrimaryExpression C n w) as [lhs w'| |]; [|done|done].
    eapply framed_step; [exact Hrun|].
    apply framed_binary_while. intros; apply HP; lia.
  - rewrite AdditiveExpression_cases.
    pose proof (HM n w (Nat.lt_succ_diag_r n)) as Hrun.
    destruct (MultiplicativeExpression C n w) as [lhs w'| |]; [|done|done].
    eapply framed_step; [exact Hrun|].
    apply framed_binary_while. intros; apply HM; lia.
  - rewrite Expression_S. apply HA. lia.
Qed.

End Frame.

(** ** What a successful parse builds *)

Lemma repr_weaken D D' h h' p t :
  D' ⊆ D → h ⊆ h' → repr D h p t → repr D' h' p t.
Proof.
  intros HD Hh. revert p. induction t as [v|o v a IHa b IHb]; intros p; cbn.
  - intros (l & -> & Hl & Hlk). exists l. repeat split; [set_solver|].
    by eapply lookup_weaken.
  - intros (l & pa & pb & -> & Hl & Ho & Hlk & Ha & Hb).
    exists l, pa, pb. repeat split; [set_solver|done| |by apply IHa|by apply IHb].
    by eapply lookup_weaken.
Qed.

Lemma repr_insert D h p t l x :
  l ∈ D → repr D h p t → repr D (<[l := x]> h) p t.
Proof.
  intros HD. revert p. induction t as [v|o v a IHa b IHb]; intros p; cbn.
  - intros (l' & -> & Hl & Hlk). exists l'. repeat split; [done|].
    rewrite lookup_insert_ne; [done|]. intros ->. done.
  - intros (l' & pa & pb & -> & Hl & Ho & Hlk & Ha & Hb).
    exists l', pa, pb. repeat split; [done|done| |by apply IHa|by apply IHb].
    rewrite lookup_insert_ne; [done|]. intros ->. done.
Qed.

Lemma operator_tokens_advance w :
  operator_tokens (tokens w) =
    if isArithmeticOperator (kind (curToken w))
    then kind (curToken w) :: operator_tokens (tokens (advance w))
    else operator_tokens (tokens (advance w)).
Proof.
  unfold tokens, advance. destruct (source w) as [|t s]; cbn; reflexivity.
Qed.

Lemma literal_tokens_advance w :
  literal_tokens (tokens w) =
    if decide (kind (curToken w) = TK_NUM)
    then tokval (curToken w) :: literal_tokens (tokens (advance w))
    else literal_tokens (tokens (advance w)).
Proof.
  unfold tokens, advance. destruct (source w) as [|t s]; cbn; reflexivity.
Qed.

Lemma allocated_app a b k :
  allocated (a + b) k = allocated a k ++ allocated b (counter_after a k).
Proof.
  revert k. induction a as [|a IH]; intros k; cbn; [done|]. by rewrite IH.
Qed.

Lemma counter_after_app a b k :
  counter_after (a + b) k = counter_after b (counter_after a k).
Proof. revert k. induction a as [|a IH]; intros k; cbn; [done|]. by rewrite IH. Qed.

Lemma wrap_int_id z : (INT_MIN ≤ z ≤ INT_MAX)%Z → wrap_int z = z.
Proof.
  unfold wrap_int, wrap, INT_MIN, INT_MAX. intros Hz.
  rewrite Z.mod_small; lia.
Qed.

Lemma allocated_no_overflow n k :
  (INT_MIN ≤ k)%Z → (k + Z.of_nat n ≤ INT_MAX + 1)%Z →
  allocated n k = map (fun i => (k + Z.of_nat i)%Z) (seq 0 n)
  ∧ counter_after n k = (if n is O then k else wrap_int (k + Z.of_nat n)).
Proof.
  revert k. induction n as [|n IH]; intros k Hlo Hhi; cbn [allocated counter_after].
  - done.
  - assert (Hw : n = O ∨ wrap_int (k + 1) = (k + 1)%Z).
    { destruct n; [(left; done)|right]. apply wrap_int_id. unfold INT_MIN in *. lia. }
    destruct Hw as [->|Hw].
    + cbn. split; [by rewrite Z.add_0_r|done].
    + rewrite Hw. destruct (IH (k + 1)%Z) as [Ha Hc]; [unfold INT_MIN in *; lia|lia|].
      rewrite Ha, Hc. split.
      * cbn [seq map]. rewrite Z.add_0_r. f_equal.
        rewrite <- seq_shift, map_map. apply map_ext. intros i. lia.
      * destruct n; [done|]. f_equal. lia.
Qed.

Section Parsed.

Context (C : Collaborators).

Lemma isArithmeticOperator_not_num k :
  isArithmeticOperator k = true → k ≠ TK_NUM.
Proof. by intros Hk ->. Qed.

(** One iteration of a loop extends the tree built so far by one
    operator node, out of a fresh cell, numbered by the counter. *)
Lemma parsed_operator_node operand n w0 left w tl p w' :
  (∀ v, framed C v (operand n v)) → builds C (operand n) →
  isArithmeticOperator (kind (curToken w)) = true →
  dom (heap w0) ⊆ dom (heap w) →
  parsed C w0 left w tl →
  operator_node C operand n left w = Ret p w' → quiet w w' →
  ∃ t, parsed C w0 p w' t.
Proof.
  intros Hfr Hop Hk Hdom (Hrep & Hops & Hlits & Htmp & Hcnt) Hrun Hq.
  pose proof (framed_operator_node C operand n left w Hfr) as Hframe.
  rewrite Hrun in Hframe. destruct Hframe as (Hsub & _ & _ & Herr & _).
  rewrite operator_node_cases in Hrun.
  set (l := fresh (dom (heap w))) in *.
  set (w2 := enter_operator C left w) in *.
  assert (Hl : l ∉ dom (heap w)) by apply is_fresh.
  assert (Hh2 : heap w2 = <[l := mkNode (kind (curToken w))
                         (mkValue (temp_name C (tmpNo w)) 0) left NULL]> (heap w)).
  { unfold w2, enter_operator. by rewrite heap_advance. }
  assert (Hl2 : l ∈ dom (heap w2)) by (rewrite Hh2, dom_insert_L; set_solver).
  assert (Hd2 : dom (heap w) ⊆ dom (heap w2)) by (rewrite Hh2, dom_insert_L; set_solver).
  pose proof (Hfr w2) as Hfr2.
  destruct (operand n w2) as [rhs w3| |] eqn:Hrhs; [|done|done].
  destruct Hfr2 as (Hsub3 & _ & _ & Herr3 & _).
  assert (Hnd : heap w3 !! l = Some (mkNode (kind (curToken w))
                         (mkValue (temp_name C (tmpNo w)) 0) left NULL)).
  { eapply lookup_weaken; [|exact Hsub3]. rewrite Hh2. apply lookup_insert_eq. }
  rewrite Hnd in Hrun. inversion Hrun; subst p w'; clear Hrun.
  cbn [heap set_heap err] in *.
  assert (Herr2 : err w2 = err w).
  { unfold w2, enter_operator. by rewrite err_advance. }
  destruct (Hop w2 rhs w3 Hrhs) as (tr & Hrep' & Hops' & Hlits' & Htmp' & Hcnt').
  { unfold quiet in *. rewrite Herr2. done. }
  exists (Bin (kind (curToken w)) (mkValue (temp_name C (tmpNo w)) 0) tl tr).
  assert (Htok2 : tokens w2 = tokens (advance w)).
  { unfold w2, enter_operator, tokens, advance. cbn. by destruct (GetToken _). }
  assert (Htmp2 : tmpNo w2 = wrap_int (tmpNo w + 1)).
  { unfold w2, enter_operator. by rewrite tmpNo_advance. }
  split; [|split; [|split; [|split]]];
    cbn [heap set_heap tmpNo tokens curToken source].
  - cbn [repr]. exists l, left, rhs. split; [done|]. split; [set_solver|].
    split; [done|]. split; [by rewrite lookup_insert_eq|]. split.
    + eapply repr_weaken; [reflexivity|exact Hsub|exact Hrep].
    + eapply repr_weaken; [..|apply repr_insert; [exact Hl2|exact Hrep']].
      * set_solver.
      * reflexivity.
  - cbn [operators tokens curToken source set_heap]. rewrite Hops.
    rewrite operator_tokens_advance, Hk, <- Htok2, Hops'.
    rewrite <- app_assoc. done.
  - cbn [literals tokens curToken source set_heap]. rewrite Hlits.
    rewrite literal_tokens_advance.
    destruct (decide _) as [Hnum|_];
      [by apply isArithmeticOperator_not_num in Hk|].
    rewrite <- Htok2, Hlits', app_assoc. done.
  - cbn [temporaries operators name]. rewrite length_app. cbn [length].
    rewrite allocated_app, map_app. cbn [allocated map].
    rewrite Htmp, Htmp', Htmp2, <- Hcnt. done.
  - cbn [tmpNo set_heap operators]. rewrite length_app. cbn [length].
    rewrite counter_after_app. cbn [counter_after].
    rewrite Hcnt', Htmp2, <- Hcnt. done.
Qed.

Lemma parsed_binary_while isop operand n :
  (∀ k, isop k = true → isArithmeticOperator k = true) →
  (∀ k v, k < n → framed C v (operand k v)) →
  (∀ k, k < n → builds C (operand k)) →
  ∀ w0 left w tl p w',
    dom (heap w0) ⊆ dom (heap w) → parsed C w0 left w tl →
    binary_while C isop operand n left w = Ret p w' → quiet w w' →
    ∃ t, parsed C w0 p w' t.
Proof.
  intros Hisop. induction n as [|n IH]; intros Hfr Hop w0 left w tl p w' Hdom Hpar Hrun Hq;
    [discriminate|].
  rewrite binary_while_S in Hrun.
  destruct (isop (kind (curToken w))) eqn:Hk.
  2:{ inversion Hrun; subst. by exists tl. }
  assert (Hfr' : ∀ v, framed C v (operand n v)) by (intros; apply Hfr; lia).
  pose proof (framed_operator_node C operand n left w Hfr') as Hf1.
  destruct (operator_node C operand n left w) as [expr w1| |] eqn:Hnode; [|done|done].
  pose proof (framed_binary_while C isop operand n
                (fun k v Hlt => Hfr k v (Nat.lt_lt_succ_r _ _ Hlt)) expr w1) as Hf2.
  rewrite Hrun in Hf2.
  destruct Hf1 as (Hs1 & _ & _ & He1 & _). destruct Hf2 as (_ & _ & _ & He2 & _).
  unfold quiet in *.
  destruct (parsed_operator_node operand n w0 left w tl expr w1) as [t1 Ht1]; try done.
  - apply Hop. lia.
  - by apply Hisop.
  - unfold quiet. lia.
  - eapply (IH (fun k v Hlt => Hfr k v (Nat.lt_lt_succ_r _ _ Hlt))
               (fun k Hlt => Hop k (Nat.lt_lt_succ_r _ _ Hlt)) w0 expr w1 t1);
      [|done|done|lia].
    etrans; [exact Hdom|]. by apply subseteq_dom.
Qed.

Lemma parsed_enter_literal w :
  kind (curToken w) = TK_NUM →
  parsed C w (Addr (fresh (dom (heap w)))) (enter_literal w) (Leaf (tokval (curToken w))).
Proof.
  intros Hk.
  assert (Htok : tokens (enter_literal w) = tokens (advance w)).
  { unfold enter_literal, tokens, advance. cbn. by destruct (GetToken _). }
  repeat split.
  - cbn. exists (fresh (dom (heap w))). split; [done|]. split; [apply is_fresh|].
    unfold enter_literal. rewrite heap_advance. cbn. apply lookup_insert_eq.
  - rewrite operator_tokens_advance, Hk, Htok. done.
  - rewrite literal_tokens_advance, Htok. by destruct (decide _).
  - unfold enter_literal. by rewrite tmpNo_advance.
Qed.

(** Whenever one of the four functions returns without a report, it has
    built a tree in the sense of [parsed]. *)
Lemma builds_parser n :
  builds C (PrimaryExpression C n) ∧ builds C (MultiplicativeExpression C n)
  ∧ builds C (AdditiveExpression C n) ∧ builds C (Expression C n).
Proof.
  induction n as [n IH] using lt_wf_ind.
  destruct n as [|n]; [repeat split; intros w p w' Hrun; discriminate|].
  assert (HP : ∀ k, k < S n → builds C (PrimaryExpression C k)) by (intros k Hk; apply (IH k Hk)).
  assert (HM : ∀ k, k < S n → builds C (MultiplicativeExpression C k)) by (intros k Hk; apply (IH k Hk)).
  assert (HA : ∀ k, k < S n → builds C (AdditiveExpression C k)) by (intros k Hk; apply (IH k Hk)).
  assert (HE : ∀ k, k < S n → builds C (Expression C k)) by (intros k Hk; apply (IH k Hk)).
  clear IH. repeat split; intros w p w' Hrun Hq; unfold quiet in *.
  - destruct (decide (kind (curToken w) = TK_NUM)) as [Hn|Hn].
    { rewrite PrimaryExpression_num in Hrun by done. inversion Hrun; subst.
      eexists. by apply parsed_enter_literal. }
    destruct (decide (kind (curToken w) = TK_LPAREN)) as [Hp|Hp].
    2:{ rewrite PrimaryExpression_other in Hrun by done.
        destruct (error_returns C); [|done]. inversion Hrun; subst.
        cbn in Hq. rewrite length_app in Hq. cbn in Hq. lia. }
    rewrite PrimaryExpression_paren in Hrun by done.
    pose proof (proj2 (proj2 (proj2 (framed_parser C n))) (advance w)) as Hf.
    destruct (Expression C n (advance w)) as [expr w1| |] eqn:Hinner; [|done|done].
    destruct Hf as (_ & _ & _ & He & _). rewrite err_advance in He.
    rewrite Expect_cases in Hrun. destruct (decide _) as [Hr|Hr].
    2:{ unfold Error in Hrun. destruct (error_returns C); [|done].
        inversion Hrun; subst. cbn in Hq. rewrite length_app in Hq. cbn in Hq. lia. }
    inversion Hrun; subst. rewrite err_advance in Hq.
    destruct (HE n (Nat.lt_succ_diag_r n) (advance w) p w1 Hinner)
      as (t & Hrep & Hops & Hlits & Htmp & Hcnt).
    { unfold quiet. rewrite err_advance. lia. }
    exists t. repeat split.
    + rewrite heap_advance in *. done.
    + rewrite operator_tokens_advance, Hp. cbn [isArithmeticOperator bool_decide].
      rewrite Hops. f_equal. rewrite operator_tokens_advance, Hr. done.
    + rewrite literal_tokens_advance, Hp.
      destruct (decide (TK_LPAREN = TK_NUM)); [done|]. rewrite Hlits. f_equal.
      rewrite literal_tokens_advance, Hr. by destruct (decide _).
    + rewrite tmpNo_advance in Htmp. done.
    + rewrite tmpNo_advance in *. done.
  - rewrite MultiplicativeExpression_cases in Hrun.
    pose proof (proj1 (framed_parser C n) w) as Hf.
    destruct (PrimaryExpression C n w) as [lhs w1| |] eqn:Hfirst; [|done|done].
    pose proof (framed_binary_while C is_mop (PrimaryExpression C) n
                  (fun k v _ => proj1 (framed_parser C k) v) lhs w1) as Hf2.
    rewrite Hrun in Hf2.
    destruct Hf as (Hs1 & _ & _ & He1 & _). destruct Hf2 as (_ & _ & _ & He2 & _).
    destruct (HP n (Nat.lt_succ_diag_r n) w lhs w1 Hfirst) as [tl Htl];
      [unfold quiet; lia|].
    eapply (parsed_binary_while is_mop (PrimaryExpression C) n)
      with (w0 := w) (w := w1) (left := lhs) (tl := tl); try done.
    + intros k. unfold is_mop, isArithmeticOperator.
      repeat case_bool_decide; done.
    + intros k v _. apply framed_parser.
    + intros k Hk. apply HP. lia.
    + by apply subseteq_dom.
    + unfold quiet. lia.
  - rewrite AdditiveExpression_cases in Hrun.
    pose proof (proj1 (proj2 (framed_parser C n)) w) as Hf.
    destruct (MultiplicativeExpression C n w) as [lhs w1| |] eqn:Hfirst; [|done|done].
    pose proof (framed_binary_while C is_aop (MultiplicativeExpression C) n
                  (fun k v _ => proj1 (proj2 (framed_parser C k)) v) lhs w1) as Hf2.
    rewrite Hrun in Hf2.
    destruct Hf as (Hs1 & _ & _ & He1 & _). destruct Hf2 as (_ & _ & _ & He2 & _).
    destruct (HM n (Nat.lt_succ_diag_r n) w lhs w1 Hfirst) as [tl Htl];
      [unfold quiet; lia|].
    eapply (parsed_binary_while is_aop (MultiplicativeExpression C) n)
      with (w0 := w) (w := w1) (left := lhs) (tl := tl); try done.
    + intros k. unfold is_aop, isArithmeticOperator.
      repeat case_bool_decide; done.
    + intros k v _. apply framed_parser.
    + intros k Hk. apply HM. lia.
    + by apply subseteq_dom.
    + unfold quiet. lia.
  - rewrite Expression_S in Hrun. by apply (HA n (Nat.lt_succ_diag_r n)).
Qed.

End Parsed.

(** ** Evaluation leaves the memory alone *)

Section Evaluation.

Context (C : Collaborators).

Lemma EvalExpression_S n root :
  EvalExpression C (S n) root =
    (let* _ := assert (negb (is_null root)) in
     let* nd := load root in
     if decide (op nd = TK_NUM) then
       ret (numVal (value nd))
     else if isArithmeticOperator (op nd) then
       let* _ := assert (negb (is_null (kids0 nd))) in
       let* _ := assert (negb (is_null (kids1 nd))) in
       let* leftOperand := EvalExpression C n (kids0 nd) in
       let* nd := load root in
       let* rightOperand := EvalExpression C n (kids1 nd) in
       let* nd := load root in
       match op nd with
       | TK_ADD =>
           let* d := name_of root in let* a := name_of (kids0 nd) in let* b := name_of (kids1 nd) in
           let* _ := EmitIR "+" d a b in
           ret (long_add leftOperand rightOperand)
       | TK_SUB =>
           let* d := name_of root in let* a := name_of (kids0 nd) in let* b := name_of (kids1 nd) in
           let* _ := EmitIR "-" d a b in
           ret (long_sub leftOperand rightOperand)
       | TK_MUL =>
           let* d := name_of root in let* a := name_of (kids0 nd) in let* b := name_of (kids1 nd) in
           let* _ := EmitIR "*" d a b in
           ret (long_mul leftOperand rightOperand)
       | TK_DIV =>
           match long_div leftOperand rightOperand with
           | None => halt Undefined
           | Some result =>
               let* d := name_of root in let* a := name_of (kids0 nd) in let* b := name_of (kids1 nd) in
               let* _ := EmitIR "/" d a b in
               ret result
           end
       | _ => ret 0%Z
       end
     else
       let* _ := Error C "Unknown operator/operand" in
       ret 0%Z).
Proof. reflexivity. Qed.

Lemma untouched_refl w : untouched w w.
Proof. by repeat split. Qed.

Lemma untouched_trans w1 w2 w3 : untouched w1 w2 → untouched w2 w3 → untouched w1 w3.
Proof. unfold untouched. intros (?&?&?&?) (?&?&?&?). repeat split; congruence. Qed.

Lemma reads_only_bind {A B} (m : M A) (k : A → M B) :
  reads_only m → (∀ a, reads_only (k a)) → reads_only (bind m k).
Proof.
  intros Hm Hk w. unfold bind. specialize (Hm w).
  destruct (m w) as [a w1|s w1|]; [|done|done].
  specialize (Hk a w1). destruct (k a w1); [| |done]; by eapply untouched_trans.
Qed.

Lemma reads_only_ret {A} (a : A) : reads_only (ret a).
Proof. intros w. apply untouched_refl. Qed.

Lemma reads_only_halt {A} s : reads_only (@halt A s).
Proof. intros w. apply untouched_refl. Qed.

Lemma reads_only_assert c : reads_only (assert c).
Proof. destruct c; [apply reads_only_ret|apply reads_only_halt]. Qed.

Lemma reads_only_load p : reads_only (load p).
Proof.
  intros w. unfold load. destruct p as [|l]; [apply untouched_refl|].
  destruct (heap w !! l); apply untouched_refl.
Qed.

Lemma reads_only_name_of p : reads_only (name_of p).
Proof.
  apply reads_only_bind; [apply reads_only_load|]. intros; apply reads_only_ret.
Qed.

Lemma reads_only_EmitIR s d a b : reads_only (EmitIR s d a b).
Proof. intros w. by repeat split. Qed.

Lemma reads_only_Error msg : reads_only (Error C msg).
Proof. intros w. unfold Error. destruct (error_returns C); by repeat split. Qed.

Lemma reads_only_emit s root nd (v : Z) :
  reads_only (let* d := name_of root in let* a := name_of (kids0 nd) in
              let* b := name_of (kids1 nd) in
              let* _ := EmitIR s d a b in ret v).
Proof.
  repeat (apply reads_only_bind; [apply reads_only_name_of|intros]).
  apply reads_only_bind; [apply reads_only_EmitIR|intros; apply reads_only_ret].
Qed.

(** [EvalExpression] writes to the output and, through [Error], to the
    log of messages, and to nothing else. *)
Lemma EvalExpression_reads_only n : ∀ root, reads_only (EvalExpression C n root).
Proof.
  induction n as [|n IH]; intros root; [done|].
  rewrite EvalExpression_S.
  apply reads_only_bind; [apply reads_only_assert|intros _].
  apply reads_only_bind; [apply reads_only_load|intros nd].
  destruct (decide _); [apply reads_only_ret|].
  destruct (isArithmeticOperator _).
  2:{ apply reads_only_bind; [apply reads_only_Error|intros; apply reads_only_ret]. }
  do 2 (apply reads_only_bind; [apply reads_only_assert|intros _]).
  apply reads_only_bind; [apply IH|intros l].
  apply reads_only_bind; [apply reads_only_load|intros nd1].
  apply reads_only_bind; [apply IH|intros r].
  apply reads_only_bind; [apply reads_only_load|intros nd2].
  destruct (op nd2); try apply reads_only_ret; try apply reads_only_emit.
  destruct (long_div l r); [apply reads_only_emit|apply reads_only_halt].
Qed.

(** ** Evaluation of the tree a pointer stands for *)

Lemma bind_Ret {A B} (m : M A) (k : A → M B) a w w1 :
  m w = Ret a w1 → bind m k w = k a w1.
Proof. unfold bind. by intros ->. Qed.

Lemma bind_ext_at {A B} (m m' : M A) (k k' : A → M B) w :
  m w = m' w → (∀ a w1, m' w = Ret a w1 → k a w1 = k' a w1) →
  bind m k w = bind m' k' w.
Proof.
  intros Hm Hk. unfold bind. rewrite Hm.
  destruct (m' w) as [a w1| |]; [|done|done]. by apply Hk.
Qed.

Lemma eval_tree_reads_only t : reads_only (eval_tree t).
Proof.
  induction t as [v|o v a IHa b IHb]; cbn [eval_tree]; [apply reads_only_ret|].
  apply reads_only_bind; [done|intros l].
  apply reads_only_bind; [done|intros r].
  destruct o; try apply reads_only_ret;
    try destruct (long_div l r); try apply reads_only_halt;
    (apply reads_only_bind; [apply reads_only_EmitIR|intros; apply reads_only_ret]).
Qed.

Lemma repr_load D w p t :
  repr D (heap w) p t →
  ∃ nd, load p w = Ret nd w ∧ is_null p = false ∧ name (value nd) = root_name t.
Proof.
  destruct t as [v|o v a b]; cbn.
  - intros (l & -> & _ & Hl). eexists. unfold load. rewrite Hl. done.
  - intros (l & pa & pb & -> & _ & _ & Hl & _). eexists. unfold load. rewrite Hl. done.
Qed.

Lemma repr_name_of D w p t :
  repr D (heap w) p t → name_of p w = Ret (root_name t) w.
Proof.
  intros (nd & Hl & _ & Hn)%repr_load. unfold name_of.
  rewrite (bind_Ret _ _ _ _ _ Hl). by rewrite <- Hn.
Qed.

(** On the heap image of a tree, and with a count above its height,
    [EvalExpression] is [eval_tree]. *)
Lemma EvalExpression_repr t :
  ∀ D n p w, repr D (heap w) p t →
    EvalExpression C (S (height t) + n) p w = eval_tree t w.
Proof.
  induction t as [v|o v a IHa b IHb]; intros D n p w Hrep.
  - destruct Hrep as (l & -> & _ & Hl). cbn [height Nat.add].
    rewrite EvalExpression_S.
    rewrite (bind_Ret _ _ tt w w) by reflexivity.
    rewrite (bind_Ret _ _ (mkNode TK_NUM v NULL NULL) w w) by (unfold load; by rewrite Hl).
    reflexivity.
  - pose proof Hrep as (l & pa & pb & -> & _ & Ho & Hl & Ha & Hb).
    assert (Hroot : ∀ w', heap w' = heap w →
              load (Addr l) w' = Ret (mkNode o v pa pb) w').
    { intros w' Hw'. unfold load. by rewrite Hw', Hl. }
    destruct (repr_load _ _ _ _ Ha) as (nda & _ & Hna & _).
    destruct (repr_load _ _ _ _ Hb) as (ndb & _ & Hnb & _).
    cbn [height]. change (S (S ?k) + n) with (S (S k + n)).
    rewrite EvalExpression_S.
    rewrite (bind_Ret _ _ tt w w) by reflexivity.
    rewrite (bind_Ret _ _ _ w w (Hroot w eq_refl)).
    cbn [op kids0 kids1 value].
    destruct (decide (o = TK_NUM)) as [->|_]; [done|]. rewrite Ho.
    rewrite (bind_Ret _ _ tt w w) by (by rewrite Hna).
    rewrite (bind_Ret _ _ tt w w) by (by rewrite Hnb).
    replace (S (Nat.max (height a) (height b)) + n)
      with (S (height a) + (Nat.max (height a) (height b) - height a + n)) at 1 by lia.
    replace (S (Nat.max (height a) (height b)) + n)
      with (S (height b) + (Nat.max (height a) (height b) - height b + n)) by lia.
    cbn [eval_tree].
    apply bind_ext_at; [by apply (IHa D)|intros x w1 Hx].
    pose proof (eval_tree_reads_only a w) as Hra. rewrite Hx in Hra.
    destruct Hra as (Hh1 & _).
    rewrite (bind_Ret _ _ _ w1 w1 (Hroot w1 Hh1)). cbn [kids1].
    assert (Hb1 : repr D (heap w1) pb b) by (by rewrite Hh1).
    apply bind_ext_at; [by apply (IHb D)|intros y w2 Hy].
    pose proof (eval_tree_reads_only b w1) as Hrb. rewrite Hy in Hrb.
    destruct Hrb as (Hh2 & _).
    assert (Hh : heap w2 = heap w) by congruence.
    rewrite (bind_Ret _ _ _ w2 w2 (Hroot w2 Hh)). cbn [op kids0 kids1].
    assert (Hd : name_of (Addr l) w2 = Ret (name v) w2).
    { rewrite <- Hh in Hrep. apply (repr_name_of _ _ _ _ Hrep). }
    assert (Hna2 : name_of pa w2 = Ret (root_name a) w2).
    { rewrite <- Hh in Ha. apply (repr_name_of _ _ _ _ Ha). }
    assert (Hnb2 : name_of pb w2 = Ret (root_name b) w2).
    { rewrite <- Hh in Hb. apply (repr_name_of _ _ _ _ Hb). }
    destruct o; try done;
      try destruct (long_div x y); try reflexivity;
      rewrite (bind_Ret _ _ _ _ _ Hd), (bind_Ret _ _ _ _ _ Hna2),
        (bind_Ret _ _ _ _ _ Hnb2); reflexivity.
Qed.

(** ** The instructions of a tree *)

Lemma repr_arith_tree D h p t : repr D h p t → arith_tree t.
Proof.
  revert p. induction t as [v|o v a IHa b IHb]; intros p; cbn; [done|].
  intros (l & pa & pb & _ & _ & Ho & _ & Ha & Hb). eauto.
Qed.


(** Evaluating a tree of arithmetic operators either returns, having
    printed the whole code of the tree, or stops at a division without a
    result, having printed less. *)
Lemma eval_tree_result t :
  arith_tree t →
  ∀ w, match eval_tree t w with
       | Ret _ w' => out w' = out w ++ code t ∧ err w' = err w
       | Stop s w' =>
           s = Undefined ∧ err w' = err w
           ∧ ∃ lines, out w' = out w ++ lines ∧ length lines < length (code t)
       | OutOfFuel => False
       end.
Proof.
  induction t as [v|o v a IHa b IHb]; cbn [arith_tree eval_tree code].
  - intros _ w. cbn. by rewrite app_nil_r.
  - intros (Ho & Ha & Hb) w. specialize (IHa Ha w). unfold bind at 1.
    destruct (eval_tree a w) as [x w1|s w1|]; [| |done].
    2:{ destruct IHa as (-> & He & lines & Hl & Hlen). repeat split; [done|].
        exists lines. split; [done|]. rewrite length_app. lia. }
    destruct IHa as (Ho1 & He1). specialize (IHb Hb w1). unfold bind at 1.
    destruct (eval_tree b w1) as [y w2|s w2|]; [| |done].
    2:{ destruct IHb as (-> & He & lines & Hl & Hlen). repeat split; [congruence|].
        exists (code a ++ lines). rewrite Hl, Ho1, <- app_assoc. split; [done|].
        rewrite !length_app. cbn. lia. }
    destruct IHb as (Ho2 & He2).
    assert (Hall : ∀ s (q : Z) w',
      w' = print (instruction s (name v) (root_name a) (root_name b)) w2 →
      out w' = out w ++ code a ++ code b
                 ++ [instruction s (name v) (root_name a) (root_name b)]
      ∧ err w' = err w).
    { intros s q w' ->. cbn. rewrite Ho2, Ho1, <- !app_assoc. split; [done|congruence]. }
    destruct o; try done; try (by eapply Hall).
    destruct (long_div x y); [by eapply Hall|].
    cbn. repeat split; [congruence|]. exists (code a ++ code b).
    rewrite Ho2, Ho1, <- app_assoc. split; [done|]. rewrite !length_app. cbn. lia.
Qed.

End Evaluation.

(** ** The depth count is only a device

    A larger count never changes the outcome of a call that did not use up
    the smaller one, and a count of four per pending token is always
    enough for the parser. *)

Lemma fuel_le_refl {A} (r : outcome A) : fuel_le r r.
Proof. (right; done). Qed.

Lemma fuel_le_trans {A} (r1 r2 r3 : outcome A) :
  fuel_le r1 r2 → fuel_le r2 r3 → fuel_le r1 r3.
Proof. intros [->| ->]; [(left; done)|done]. Qed.

Lemma fuel_le_bind {A B} (m m' : M A) (k k' : A → M B) w :
  fuel_le (m w) (m' w) → (∀ a v, fuel_le (k a v) (k' a v)) →
  fuel_le (bind m k w) (bind m' k' w).
Proof.
  intros [Hm|Hm] Hk; unfold bind; rewrite Hm; [(left; done)|].
  destruct (m' w); [apply Hk|(right; done)|(right; done)].
Qed.

Section Fuel.

Context (C : Collaborators).

Lemma fuel_le_operator_node operand n m lhs w :
  (∀ v, fuel_le (operand n v) (operand m v)) →
  fuel_le (operator_node C operand n lhs w) (operator_node C operand m lhs w).
Proof.
  intros Hop. rewrite !operator_node_cases.
  destruct (Hop (enter_operator C lhs w)) as [-> | ->]; [(left; done)|(right; done)].
Qed.

Lemma fuel_le_binary_while isop operand n :
  (∀ k v, k < n → fuel_le (operand k v) (operand (S k) v)) →
  ∀ lhs w, fuel_le (binary_while C isop operand n lhs w)
                    (binary_while C isop operand (S n) lhs w).
Proof.
  induction n as [|n IH]; intros Hop lhs w; [(left; done)|].
  rewrite (binary_while_S _ _ _ (S n)), (binary_while_S _ _ _ n).
  destruct (isop _); [|(right; done)].
  destruct (fuel_le_operator_node operand n (S n) lhs w) as [-> | ->];
    [intros; apply Hop; lia|(left; done)|].
  destruct (operator_node C operand (S n) lhs w); [|(right; done)|(right; done)].
  apply IH. intros; apply Hop; lia.
Qed.

(** One more unit never changes an outcome that did not use up the count. *)
Lemma fuel_le_parser n :
  (∀ w, fuel_le (PrimaryExpression C n w) (PrimaryExpression C (S n) w))
  ∧ (∀ w, fuel_le (MultiplicativeExpression C n w) (MultiplicativeExpression C (S n) w))
  ∧ (∀ w, fuel_le (AdditiveExpression C n w) (AdditiveExpression C (S n) w))
  ∧ (∀ w, fuel_le (Expression C n w) (Expression C (S n) w)).
Proof.
  induction n as [n IH] using lt_wf_ind.
  destruct n as [|n]; [repeat split; intros; (left; done)|].
  destruct (IH n (Nat.lt_succ_diag_r n)) as (HP & HM & HA & HE).
  repeat split; intros w.
  - destruct (decide (kind (curToken w) = TK_NUM)) as [Hn|Hn].
    { rewrite !PrimaryExpression_num by done. (right; done). }
    destruct (decide (kind (curToken w) = TK_LPAREN)) as [Hp|Hp].
    2:{ rewrite !PrimaryExpression_other by done. (right; done). }
    rewrite !PrimaryExpression_paren by done.
    destruct (HE (advance w)) as [-> | ->]; [(left; done)|(right; done)].
  - rewrite !MultiplicativeExpression_cases.
    destruct (HP w) as [-> | ->]; [(left; done)|].
    destruct (PrimaryExpression C (S n) w); [|(right; done)|(right; done)].
    apply fuel_le_binary_while. intros k v Hk. apply (IH k). lia.
  - rewrite !AdditiveExpression_cases.
    destruct (HM w) as [-> | ->]; [(left; done)|].
    destruct (MultiplicativeExpression C (S n) w); [|(right; done)|(right; done)].
    apply fuel_le_binary_while. intros k v Hk. apply (IH k). lia.
  - rewrite !Expression_S. apply HA.
Qed.

Lemma Expression_fuel n m w :
  fuel_le (Expression C n w) (Expression C (n + m) w).
Proof.
  induction m as [|m IH]; [rewrite Nat.add_0_r; apply fuel_le_refl|].
  eapply fuel_le_trans; [exact IH|]. rewrite Nat.add_succ_r. apply fuel_le_parser.
Qed.

Lemma fuel_le_EvalExpression n :
  ∀ root w, fuel_le (EvalExpression C n root w) (EvalExpression C (S n) root w).
Proof.
  induction n as [|n IH]; intros root w; [(left; done)|].
  rewrite (EvalExpression_S _ (S n)), (EvalExpression_S _ n).
  apply fuel_le_bind; [apply fuel_le_refl|intros _ v].
  apply fuel_le_bind; [apply fuel_le_refl|intros nd v1].
  destruct (decide _); [apply fuel_le_refl|].
  destruct (isArithmeticOperator _); [|apply fuel_le_refl].
  do 2 (apply fuel_le_bind; [apply fuel_le_refl|intros _ ?]).
  apply fuel_le_bind; [apply IH|intros l ?].
  apply fuel_le_bind; [apply fuel_le_refl|intros nd1 ?].
  apply fuel_le_bind; [apply IH|intros r ?].
  apply fuel_le_refl.
Qed.

Lemma EvalExpression_fuel n m root w :
  fuel_le (EvalExpression C n root w) (EvalExpression C (n + m) root w).
Proof.
  induction m as [|m IH]; [rewrite Nat.add_0_r; apply fuel_le_refl|].
  eapply fuel_le_trans; [exact IH|]. rewrite Nat.add_succ_r. apply fuel_le_EvalExpression.
Qed.

(** *** The parser terminates *)

Lemma pending_enter_operator lhs w :
  kind (curToken w) ≠ TK_EOF → pending (enter_operator C lhs w) < pending w.
Proof.
  intros Hk. unfold enter_operator.
  eapply Nat.le_lt_trans; [|apply (pending_advance_lt w Hk)].
  unfold pending, advance. cbn. destruct (GetToken _). done.
Qed.

Lemma binary_while_total isop operand c :
  (∀ k, isop k = true → k ≠ TK_EOF) → c ≤ 4 →
  (∀ k v, framed C v (operand k v)) →
  ∀ n lhs w,
    (∀ k v, pending v < pending w → 4 * pending v + c ≤ k → operand k v ≠ OutOfFuel) →
    4 * pending w + 1 ≤ n →
    binary_while C isop operand n lhs w ≠ OutOfFuel.
Proof.
  intros Hisop Hc Hfr. induction n as [|n IH]; intros lhs w Hop Hn; [lia|].
  rewrite binary_while_S. destruct (isop _) eqn:Hk; [|done].
  apply Hisop in Hk. pose proof (pending_enter_operator lhs w Hk) as Hlt.
  pose proof (framed_operator_node C operand n lhs w (Hfr n)) as Hf.
  assert (Hrun : operand n (enter_operator C lhs w) ≠ OutOfFuel)
    by (apply Hop; lia).
  pose proof (Hfr n (enter_operator C lhs w)) as Hf2.
  rewrite operator_node_cases in Hf |- *.
  destruct (operand n (enter_operator C lhs w)) as [rhs w1| |]; [|done|done].
  destruct Hf2 as (_ & _ & Hp1 & _).
  destruct (heap w1 !! _); [|done]. clear Hf.
  apply IH; [|rewrite pending_set_heap; lia].
  intros k v Hv Hkv. apply Hop; [|done]. rewrite pending_set_heap in Hv. lia.
Qed.

(** Termination, by induction on the number of pending tokens: every
    iteration of a loop and every parenthesis consumes a token. *)
Lemma parser_total μ :
  ∀ n w, pending w = μ →
    (4 * μ + 1 ≤ n → PrimaryExpression C n w ≠ OutOfFuel)
    ∧ (4 * μ + 2 ≤ n → MultiplicativeExpression C n w ≠ OutOfFuel)
    ∧ (4 * μ + 3 ≤ n → AdditiveExpression C n w ≠ OutOfFuel)
    ∧ (4 * μ + 4 ≤ n → Expression C n w ≠ OutOfFuel).
Proof.
  induction μ as [μ IH] using lt_wf_ind. intros n w Hμ.
  assert (HP : ∀ k v, pending v = μ → 4 * μ + 1 ≤ k → PrimaryExpression C k v ≠ OutOfFuel).
  { intros [|k] v Hv Hk; [lia|].
    destruct (decide (kind (curToken v) = TK_NUM)) as [Hn|Hn].
    { by rewrite PrimaryExpression_num. }
    destruct (decide (kind (curToken v) = TK_LPAREN)) as [Hp|Hp].
    2:{ rewrite PrimaryExpression_other by done. by destruct (error_returns C). }
    rewrite PrimaryExpression_paren by done.
    assert (Hlt : pending (advance v) < pending v)
      by (apply pending_advance_lt; by rewrite Hp).
    assert (Hrun : Expression C k (advance v) ≠ OutOfFuel).
    { eapply (IH (pending (advance v))); [lia|done|lia]. }
    destruct (Expression C k (advance v)) as [expr v1| |]; [|done|done].
    rewrite Expect_cases. destruct (decide _); [done|].
    unfold Error. by destruct (error_returns C). }
  assert (HM : ∀ k v, pending v ≤ μ → 4 * pending v + 2 ≤ k →
                 MultiplicativeExpression C k v ≠ OutOfFuel).
  { intros [|k] v Hv Hk; [lia|]. rewrite MultiplicativeExpression_cases.
    assert (Hrun : PrimaryExpression C k v ≠ OutOfFuel).
    { destruct (decide (pending v = μ)) as [Heq|Hne]; [apply HP; [done|lia]|].
      eapply (IH (pending v)); [lia|done|lia]. }
    pose proof (proj1 (framed_parser C k) v) as Hf.
    destruct (PrimaryExpression C k v) as [lhs v1| |]; [|done|done].
    destruct Hf as (_ & _ & Hp & _).
    apply (binary_while_total is_mop (PrimaryExpression C) 1); [|lia| | |lia].
    - intros t Ht ->. done.
    - intros j u. apply framed_parser.
    - intros j u Hu Hj. eapply (IH (pending u)); [lia|done|lia]. }
  assert (HA : ∀ k v, pending v ≤ μ → 4 * pending v + 3 ≤ k →
                 AdditiveExpression C k v ≠ OutOfFuel).
  { intros [|k] v Hv Hk; [lia|]. rewrite AdditiveExpression_cases.
    assert (Hrun : MultiplicativeExpression C k v ≠ OutOfFuel) by (apply HM; lia).
    pose proof (proj1 (proj2 (framed_parser C k)) v) as Hf.
    destruct (MultiplicativeExpression C k v) as [lhs v1| |]; [|done|done].
    destruct Hf as (_ & _ & Hp & _).
    apply (binary_while_total is_aop (MultiplicativeExpression C) 2); [|lia| | |lia].
    - intros t Ht ->. done.
    - intros j u. apply framed_parser.
    - intros j u Hu Hj. apply HM; lia. }
  repeat split; intros Hn.
  - by apply HP.
  - apply HM; lia.
  - apply HA; lia.
  - destruct n as [|n]; [lia|]. rewrite Expression_S. apply HA; lia.
Qed.

(** Every parse ends: with four units per pending token, and four more,
    the count is never used up. *)
Theorem Expression_total w n :
  Expression C (4 * pending w + 4 + n) w ≠ OutOfFuel.
Proof. apply (parser_total (pending w)); [done|lia]. Qed.

End Fuel.

(** ** Parsing does not look at the heap

    What the parser consumes, allocates and reports is decided by the
    counter and the token stream alone: two runs that start with the same
    counter and the same tokens end alike, wherever [malloc] puts the
    nodes. *)

Lemma same_input_advance w1 w2 : same_input w1 w2 → same_input (advance w1) (advance w2).
Proof.
  intros (Ht & Hc & Hs). unfold same_input, advance. rewrite Hs.
  destruct (GetToken (source w2)). cbn. done.
Qed.

Section Deterministic.

Context (C : Collaborators).

Lemma same_input_enter_operator l1 l2 w1 w2 :
  same_input w1 w2 →
  same_input (enter_operator C l1 w1) (enter_operator C l2 w2).
Proof.
  intros (Ht & Hc & Hs). unfold enter_operator. apply same_input_advance.
  repeat split; cbn; congruence.
Qed.

Lemma alike_operator_node operand n l1 l2 w1 w2 :
  (∀ v, framed C v (operand n v)) →
  (∀ v1 v2, same_input v1 v2 → alike (operand n v1) (operand n v2)) →
  same_input w1 w2 →
  alike (operator_node C operand n l1 w1) (operator_node C operand n l2 w2).
Proof.
  intros Hfr Hop Hw.
  pose proof (framed_operator_node C operand n l1 w1 Hfr) as Hf1.
  pose proof (framed_operator_node C operand n l2 w2 Hfr) as Hf2.
  rewrite !operator_node_cases in *.
  pose proof (Hop _ _ (same_input_enter_operator l1 l2 w1 w2 Hw)) as Hal.
  destruct (operand n (enter_operator C l1 w1)) as [r1 v1|s1 v1|],
           (operand n (enter_operator C l2 w2)) as [r2 v2|s2 v2|]; try done.
  destruct (heap v1 !! _); [|by destruct Hf1].
  destruct (heap v2 !! _); [|by destruct Hf2].
  exact Hal.
Qed.

Lemma alike_binary_while isop operand n :
  (∀ k v, framed C v (operand k v)) →
  (∀ k v1 v2, k < n → same_input v1 v2 → alike (operand k v1) (operand k v2)) →
  ∀ l1 l2 w1 w2, same_input w1 w2 →
    alike (binary_while C isop operand n l1 w1) (binary_while C isop operand n l2 w2).
Proof.
  intros Hfr. induction n as [|n IH]; intros Hop l1 l2 w1 w2 Hw; [done|].
  rewrite !binary_while_S. destruct Hw as (Ht & Hc & Hs). rewrite Hc.
  destruct (isop _); [|done].
  assert (Hal : alike (operator_node C operand n l1 w1) (operator_node C operand n l2 w2)).
  { apply alike_operator_node; [apply Hfr| |done]. intros; apply Hop; [lia|done]. }
  destruct (operator_node C operand n l1 w1) as [e1 v1|s1 v1|],
           (operator_node C operand n l2 w2) as [e2 v2|s2 v2|]; try done.
  apply IH; [intros; apply Hop; [lia|done]|done].
Qed.

(** Two calls with the same count, counter and tokens end alike. *)
Lemma alike_parser n :
  (∀ w1 w2, same_input w1 w2 →
     alike (PrimaryExpression C n w1) (PrimaryExpression C n w2))
  ∧ (∀ w1 w2, same_input w1 w2 →
     alike (MultiplicativeExpression C n w1) (MultiplicativeExpression C n w2))
  ∧ (∀ w1 w2, same_input w1 w2 →
     alike (AdditiveExpression C n w1) (AdditiveExpression C n w2))
  ∧ (∀ w1 w2, same_input w1 w2 →
     alike (Expression C n w1) (Expression C n w2)).
Proof.
  induction n as [n IH] using lt_wf_ind.
  destruct n as [|n]; [repeat split; done|].
  destruct (IH n (Nat.lt_succ_diag_r n)) as (HP & HM & HA & HE).
  repeat split; intros w1 w2 Hw.
  - pose proof Hw as (Ht & Hc & Hs).
    destruct (decide (kind (curToken w2) = TK_NUM)) as [Hn|Hn].
    { rewrite !PrimaryExpression_num by congruence.
      unfold enter_literal. apply same_input_advance. repeat split; cbn; congruence. }
    destruct (decide (kind (curToken w2) = TK_LPAREN)) as [Hp|Hp].
    2:{ rewrite !PrimaryExpression_other by congruence.
        destruct (error_returns C); [|done]. repeat split; cbn; congruence. }
    rewrite !PrimaryExpression_paren by congruence.
    pose proof (HE _ _ (same_input_advance _ _ Hw)) as Hal.
    destruct (Expression C n (advance w1)) as [e1 v1|s1 v1|],
             (Expression C n (advance w2)) as [e2 v2|s2 v2|]; try done.
    rewrite !Expect_cases. destruct Hal as (Ht' & Hc' & Hs'). rewrite Hc'.
    destruct (decide _).
    + apply same_input_advance. done.
    + unfold Error. destruct (error_returns C); [|done]. repeat split; cbn; congruence.
  - rewrite !MultiplicativeExpression_cases.
    pose proof (HP _ _ Hw) as Hal.
    destruct (PrimaryExpression C n w1) as [e1 v1|s1 v1|],
             (PrimaryExpression C n w2) as [e2 v2|s2 v2|]; try done.
    apply alike_binary_while; [intros; apply framed_parser| |done].
    intros k u1 u2 Hk. apply (IH k). lia.
  - rewrite !AdditiveExpression_cases.
    pose proof (HM _ _ Hw) as Hal.
    destruct (MultiplicativeExpression C n w1) as [e1 v1|s1 v1|],
             (MultiplicativeExpression C n w2) as [e2 v2|s2 v2|]; try done.
    apply alike_binary_while; [intros; apply framed_parser| |done].
    intros k u1 u2 Hk. apply (IH k). lia.
  - rewrite !Expression_S. by apply HA.
Qed.

End Deterministic.

(** ** Whole runs *)

Lemma run_fuel C n m ts : fuel_le (run C n ts) (run C (n + m) ts).
Proof.
  unfold run. apply fuel_le_bind; [apply Expression_fuel|].
  intros p v. apply EvalExpression_fuel.
Qed.

Lemma summary_fuel C n m ts s :
  summary (run C n ts) = Some s → summary (run C (n + m) ts) = Some s.
Proof.
  intros Hs. destruct (run_fuel C n m ts) as [Hr | <-]; [|done].
  rewrite Hr in Hs. discriminate.
Qed.

Lemma substring_all s n : String.length s ≤ n → String.substring 0 n s = s.
Proof.
  revert n. induction s as [|c s IH]; intros [|n] Hn; cbn in *; try done; try lia.
  f_equal. apply IH. lia.
Qed.

Lemma temp_name_fits C k :
  String.length ("t" +:+ pretty k) < MAX_ID_LEN C → temp_name C k = "t" +:+ pretty k.
Proof. intros Hk. unfold temp_name. apply substring_all. lia. Qed.

Lemma temp_name_0 C : 3 ≤ MAX_ID_LEN C → temp_name C 0 = "t0".
Proof.
  intros H. apply (temp_name_fits C 0).
  replace (String.length ("t" +:+ pretty 0%Z)) with 2 by (vm_compute; reflexivity). lia.
Qed.

Lemma temp_name_1 C : 3 ≤ MAX_ID_LEN C → temp_name C 1 = "t1".
Proof.
  intros H. apply (temp_name_fits C 1).
  replace (String.length ("t" +:+ pretty 1%Z)) with 2 by (vm_compute; reflexivity). lia.
Qed.

(** C1.  For the tokens of ["2 * 3 + 4"] the run returns 10 and prints two
    instructions: first the multiplication, into [t0], then the addition,
    into [t1], which uses [t0]; so the multiplication is emitted first and
    its temporary was allocated, and numbered, first.  This holds for
    every depth count from 12 on. *)
Theorem C1_mul_then_add C a b c n :
  3 ≤ MAX_ID_LEN C →
  summary (run C (12 + n) (input_2_mul_3_add_4 a b c)) =
    Some (10%Z, [instruction "*" "t0" a b; instruction "+" "t1" "t0" c], []).
Proof.
  intros Hlen. apply summary_fuel.
  rewrite <- (temp_name_0 C Hlen), <- (temp_name_1 C Hlen).
  vm_compute. reflexivity.
Qed.

Lemma C1_mul_then_add_witness :
  3 ≤ MAX_ID_LEN host
  ∧ summary (run host (12 + 0) (input_2_mul_3_add_4 "2" "3" "4")) =
      Some (10%Z, [instruction "*" "t0" "2" "3"; instruction "+" "t1" "t0" "4"], []).
Proof.
  split; [cbn; lia|]. apply (C1_mul_then_add host "2" "3" "4" 0). cbn. lia.
Defined.

(** C2.  For the tokens of ["(1 + 2) * 3"] the run returns 9 and prints
    the addition of the group, into [t0], before the multiplication, into
    [t1]. *)
Theorem C2_group_then_mul C a b c n :
  3 ≤ MAX_ID_LEN C →
  summary (run C (12 + n) (input_paren_1_add_2_mul_3 a b c)) =
    Some (9%Z, [instruction "+" "t0" a b; instruction "*" "t1" "t0" c], []).
Proof.
  intros Hlen. apply summary_fuel.
  rewrite <- (temp_name_0 C Hlen), <- (temp_name_1 C Hlen).
  vm_compute. reflexivity.
Qed.

Lemma C2_group_then_mul_witness :
  3 ≤ MAX_ID_LEN host
  ∧ summary (run host (12 + 0) (input_paren_1_add_2_mul_3 "1" "2" "3")) =
      Some (9%Z, [instruction "+" "t0" "1" "2"; instruction "*" "t1" "t0" "3"], []).
Proof.
  split; [cbn; lia|]. apply (C2_group_then_mul host "1" "2" "3" 0). cbn. lia.
Defined.

(** C3.  For the tokens of ["3 + 4"] the run returns 7 and prints exactly
    one instruction, [t0 = a + b], where [a] and [b] are the names the
    two literal tokens carry. *)
Theorem C3_single_add C a b n :
  3 ≤ MAX_ID_LEN C →
  summary (run C (12 + n) (input_3_add_4 a b)) =
    Some (7%Z, [instruction "+" "t0" a b], []).
Proof.
  intros Hlen. apply summary_fuel.
  rewrite <- (temp_name_0 C Hlen).
  vm_compute. reflexivity.
Qed.

Lemma C3_single_add_witness :
  3 ≤ MAX_ID_LEN host
  ∧ summary (run host (12 + 0) (input_3_add_4 "3" "4")) =
      Some (7%Z, ["t0 = 3 + 4" +:+ newline], []).
Proof.
  split; [cbn; lia|]. apply (C3_single_add host "3" "4" 0). cbn. lia.
Defined.

(** ** One instruction per operator *)


Lemma parses_parsed C w p w' : parses C w p w' → ∃ t, parsed C w p w' t.
Proof. intros (n & Hrun & Hq). by eapply builds_parser. Qed.




Lemma EvalExpression_settled C k p w r :
  EvalExpression C k p w = r → r ≠ OutOfFuel →
  ∀ n, EvalExpression C n p w = OutOfFuel ∨ EvalExpression C n p w = r.
Proof.
  intros Hk Hr n.
  destruct (EvalExpression_fuel C k n p w) as [Hoof|Hkn]; [congruence|].
  destruct (EvalExpression_fuel C n k p w) as [Hoof|Hnk]; [(left; done)|].
  right. rewrite Hnk, (Nat.add_comm n k), <- Hkn. done.
Qed.


(** ** The numbering of the temporaries *)

Lemma NewTemps_allocated n w :
  ∃ w', NewTemps n w = Ret (allocated n (tmpNo w)) w'
        ∧ tmpNo w' = counter_after n (tmpNo w).
Proof.
  revert w. induction n as [|n IH]; intros w; cbn [NewTemps allocated counter_after].
  - by exists w.
  - unfold bind at 1. cbn [NewTemp].
    destruct (IH (set_tmpNo (wrap_int (tmpNo w + 1)) w)) as (w' & Hrun & Hcnt).
    exists w'. unfold bind. rewrite Hrun. done.
Qed.

Lemma counter_no_overflow n k :
  (INT_MIN ≤ k)%Z → (k + Z.of_nat n ≤ INT_MAX)%Z →
  allocated n k = map (fun i => (k + Z.of_nat i)%Z) (seq 0 n)
  ∧ counter_after n k = (k + Z.of_nat n)%Z.
Proof.
  intros Hlo Hhi. destruct (allocated_no_overflow n k Hlo) as [Ha Hc]; [lia|].
  split; [done|]. rewrite Hc. destruct n; [lia|].
  apply wrap_int_id. unfold INT_MIN in *. lia.
Qed.

Lemma consecutive_increasing k n : increasing (consecutive k n) ∧ NoDup (consecutive k n).
Proof.
  assert (Hinc : increasing (consecutive k n)).
  { intros i j a b Hij Hi Hj. unfold consecutive in *.
    rewrite list_lookup_fmap in Hi, Hj.
    destruct (seq 0 n !! i) as [x|] eqn:Hx; [|done].
    destruct (seq 0 n !! j) as [y|] eqn:Hy; [|done].
    apply lookup_seq in Hx as [-> _]. apply lookup_seq in Hy as [-> _].
    cbn in *. inversion Hi; inversion Hj; subst. lia. }
  split; [done|]. apply NoDup_alt. intros i j a Hi Hj.
  destruct (Nat.lt_trichotomy i j) as [Hlt|[->|Hlt]]; [|done|].
  - pose proof (Hinc i j a a Hlt Hi Hj). lia.
  - pose proof (Hinc j i a a Hlt Hj Hi). lia.
Qed.

Lemma parses_alike C w1 w2 p1 p2 w1' w2' :
  same_input w1 w2 → parses C w1 p1 w1' → parses C w2 p2 w2' →
  same_input w1' w2'.
Proof.
  intros Hw (n1 & H1 & _) (n2 & H2 & _).
  pose proof (proj2 (proj2 (proj2 (alike_parser C (n1 + n2)))) w1 w2 Hw) as Hal.
  destruct (Expression_fuel C n1 n2 w1) as [Hoof|Heq]; [congruence|].
  destruct (Expression_fuel C n2 n1 w2) as [Hoof|Heq']; [congruence|].
  rewrite (Nat.add_comm n2 n1) in Heq'.
  rewrite <- Heq, <- Heq', H1, H2 in Hal. exact Hal.
Qed.

(** C5.  The allocator counts up from its static initial value 0, one per
    call.  A successful parse calls it once per operator token, in the
    order in which the operators stand in the input: read from left to
    right, the destinations of the tree are [t<k>], [t<k+1>], ... where
    [k] is the counter at the start of the parse, whatever the order in
    which the evaluator later visits them (for ["1 + 2 * 3"] the addition
    is numbered first and emitted last).  A second parse of the same
    tokens from the same counter, in any heap, numbers alike.  All of
    this as long as the counter stays in the range of [int]. *)
Theorem C5_temporaries_in_recognition_order C w1 w2 p1 p2 w1' w2' :
  same_input w1 w2 → parses C w1 p1 w1' → parses C w2 p2 w2' →
  (INT_MIN ≤ tmpNo w1)%Z →
  (tmpNo w1 + Z.of_nat (length (operator_tokens (tokens w1))) ≤ INT_MAX)%Z →
  (∃ t1 t2,
     repr (dom (heap w1)) (heap w1') p1 t1 ∧ repr (dom (heap w2)) (heap w2') p2 t2
     ∧ operator_tokens (tokens w1) = operators t1 ++ operator_tokens (tokens w1')
     ∧ numbered_from C (tmpNo w1) t1
     ∧ increasing (consecutive (tmpNo w1) (length (operators t1)))
     ∧ NoDup (consecutive (tmpNo w1) (length (operators t1)))
     ∧ tmpNo w1' = (tmpNo w1 + Z.of_nat (length (operators t1)))%Z
     ∧ operators t2 = operators t1 ∧ temporaries t2 = temporaries t1
     ∧ same_input w1' w2')
  ∧ (∀ ts, ∃ w, NewTemp (start ts) = Ret 0%Z w ∧ tmpNo w = 1%Z)
  ∧ (∀ n v, (INT_MIN ≤ tmpNo v)%Z → (tmpNo v + Z.of_nat n ≤ INT_MAX)%Z →
       ∃ v', NewTemps n v = Ret (consecutive (tmpNo v) n) v'
             ∧ tmpNo v' = (tmpNo v + Z.of_nat n)%Z)
  ∧ summary (run host 12 [num "1" 1; sym TK_ADD "+"; num "2" 2; sym TK_MUL "*"; num "3" 3])
    = Some (7%Z, [instruction "*" "t1" "2" "3"; instruction "+" "t0" "1" "t1"], []).
Proof.
  intros Hw Hp1 Hp2 Hlo Hhi.
  split; [|split; [|split]].
  - destruct (parses_parsed _ _ _ _ Hp1) as (t1 & Hrep1 & Hops1 & Hlit1 & Htmp1 & Hcnt1).
    destruct (parses_parsed _ _ _ _ Hp2) as (t2 & Hrep2 & Hops2 & Hlit2 & Htmp2 & Hcnt2).
    pose proof (parses_alike _ _ _ _ _ _ _ Hw Hp1 Hp2) as Hw'.
    assert (Hlen : length (operators t1) ≤ length (operator_tokens (tokens w1))).
    { rewrite Hops1, length_app. lia. }
    destruct (counter_no_overflow (length (operators t1)) (tmpNo w1) Hlo) as [Ha Hc]; [lia|].
    assert (Hops : operators t2 = operators t1).
    { destruct Hw as (_ & Hc1 & Hs1), Hw' as (_ & Hc2 & Hs2).
      unfold tokens in *. rewrite <- Hc1, <- Hs1, <- Hc2, <- Hs2, Hops1 in Hops2.
      by apply app_inv_tail in Hops2. }
    exists t1, t2. repeat split; try done.
    + unfold numbered_from, consecutive. rewrite Htmp1, Ha. done.
    + apply consecutive_increasing.
    + apply consecutive_increasing.
    + congruence.
    + rewrite Htmp1, Htmp2, Hops. destruct Hw as (-> & _). done.
    + apply Hw'.
    + apply Hw'.
    + apply Hw'.
  - intros ts. eexists. split; reflexivity.
  - intros n v Hlo' Hhi'. destruct (NewTemps_allocated n v) as (v' & Hrun & Hcnt).
    destruct (counter_no_overflow n (tmpNo v) Hlo' Hhi') as [Ha Hc].
    exists v'. rewrite Hrun, Ha, Hcnt, Hc. done.
  - vm_compute. reflexivity.
Qed.

Lemma C5_temporaries_in_recognition_order_witness :
  let ts := input_2_mul_3_add_4 "2" "3" "4" in
  let w1 := start ts in
  let w2 := set_heap {[1%positive := mkNode TK_NA (mkValue "" 0) NULL NULL]} (start ts) in
  ∃ p1 w1' p2 w2',
    same_input w1 w2 ∧ parses host w1 p1 w1' ∧ parses host w2 p2 w2'
    ∧ (INT_MIN ≤ tmpNo w1)%Z
    ∧ (tmpNo w1 + Z.of_nat (length (operator_tokens (tokens w1))) ≤ INT_MAX)%Z
    ∧ p1 ≠ p2
    ∧ ∃ t1 t2,
        repr (dom (heap w1)) (heap w1') p1 t1 ∧ repr (dom (heap w2)) (heap w2') p2 t2
        ∧ operator_tokens (tokens w1) = operators t1 ++ operator_tokens (tokens w1')
        ∧ numbered_from host (tmpNo w1) t1
        ∧ increasing (consecutive (tmpNo w1) (length (operators t1)))
        ∧ NoDup (consecutive (tmpNo w1) (length (operators t1)))
        ∧ tmpNo w1' = (tmpNo w1 + Z.of_nat (length (operators t1)))%Z
        ∧ operators t2 = operators t1 ∧ temporaries t2 = temporaries t1
        ∧ same_input w1' w2'.
Proof.
  intros ts w1 w2.
  destruct (Expression host 12 w1) as [p1 w1'| |] eqn:Hrun1;
    [|vm_compute in Hrun1; discriminate..].
  destruct (Expression host 12 w2) as [p2 w2'| |] eqn:Hrun2;
    [|vm_compute in Hrun2; discriminate..].
  assert (Hp1 : parses host w1 p1 w1').
  { exists 12. split; [done|]. vm_compute in Hrun1. inversion Hrun1; subst.
    unfold quiet. cbn. lia. }
  assert (Hp2 : parses host w2 p2 w2').
  { exists 12. split; [done|]. vm_compute in Hrun2. inversion Hrun2; subst.
    unfold quiet. cbn. lia. }
  assert (Hw : same_input w1 w2) by (repeat split).
  assert (Hlo : (INT_MIN ≤ tmpNo w1)%Z) by (vm_compute; discriminate).
  assert (Hhi : (tmpNo w1 + Z.of_nat (length (operator_tokens (tokens w1))) ≤ INT_MAX)%Z)
    by (vm_compute; discriminate).
  exists p1, w1', p2, w2'. repeat (split; [done|]). split.
  - vm_compute in Hrun1, Hrun2. inversion Hrun1; inversion Hrun2; subst. discriminate.
  - exact (proj1 (C5_temporaries_in_recognition_order host w1 w2 p1 p2 w1' w2'
                    Hw Hp1 Hp2 Hlo Hhi)).
Defined.

(** ** The shape of a parsed tree *)

Lemma repr_not_null D h p t : repr D h p t → p ≠ NULL.
Proof. destruct t; cbn; [intros (l & -> & _)|intros (l & ? & ? & -> & _)]; done. Qed.

Lemma repr_well_shaped D h p t : repr D h p t → well_shaped h p.
Proof.
  revert p. induction t as [v|o v a IHa b IHb]; intros p; cbn.
  - intros (l & -> & _ & Hl). by eapply shaped_literal.
  - intros (l & pa & pb & -> & _ & Ho & Hl & Ha & Hb).
    eapply shaped_operator; [exact Hl|done|..]; cbn.
    + by eapply repr_not_null.
    + by eapply repr_not_null.
    + by apply IHa.
    + by apply IHb.
Qed.

Lemma well_shaped_repr h p : well_shaped h p → ∃ t, repr ∅ h p t.
Proof.
  induction 1 as [l nd Hl Ho H0 H1|l nd Hl Ho H0 H1 Ha [ta IHa] Hb [tb IHb]].
  - exists (Leaf (value nd)). cbn. exists l. repeat split; [set_solver|].
    destruct nd; cbn in *; by subst.
  - exists (Bin (op nd) (value nd) ta tb). cbn. exists l, (kids0 nd), (kids1 nd).
    repeat split; [set_solver|done| |done|done]. by destruct nd.
Qed.

(** C6.  In the tree a successful parse returns, every node is either a
    literal node, with both children null, or an operator node, with both
    children non-null; and the payloads of the literal nodes are, from
    left to right, the values of the literal tokens the parse consumed. *)
Theorem C6_parsed_tree_shape C w p w' :
  parses C w p w' →
  well_shaped (heap w') p
  ∧ ∃ t, repr (dom (heap w)) (heap w') p t
         ∧ literal_tokens (tokens w) = literals t ++ literal_tokens (tokens w').
Proof.
  intros Hp. destruct (parses_parsed _ _ _ _ Hp) as (t & Hrep & _ & Hlit & _).
  split; [by eapply repr_well_shaped|by exists t].
Qed.

Lemma C6_parsed_tree_shape_witness :
  ∃ p w',
    parses host (start (input_paren_1_add_2_mul_3 "1" "2" "3")) p w'
    ∧ well_shaped (heap w') p
    ∧ ∃ t, repr (dom (heap (start (input_paren_1_add_2_mul_3 "1" "2" "3")))) (heap w') p t
           ∧ literal_tokens (tokens (start (input_paren_1_add_2_mul_3 "1" "2" "3")))
             = literals t ++ literal_tokens (tokens w').
Proof.
  destruct (Expression host 12 (start (input_paren_1_add_2_mul_3 "1" "2" "3")))
    as [p w'| |] eqn:Hrun; [|vm_compute in Hrun; discriminate..].
  assert (Hp : parses host (start (input_paren_1_add_2_mul_3 "1" "2" "3")) p w').
  { exists 12. split; [done|]. vm_compute in Hrun. inversion Hrun; subst.
    unfold quiet. cbn. lia. }
  exists p, w'. split; [done|]. exact (C6_parsed_tree_shape host _ p w' Hp).
Defined.

(** ** Evaluation reads, and only reads *)

(** C10.  Evaluating a well-shaped tree ends, whatever the depth count
    above the height of the tree, and however it ends, every cell of the
    heap, and with it every field of every node, is what it was before,
    as are the globals of the parser. *)
Theorem C10_evaluation_reads_only C root w :
  well_shaped (heap w) root →
  (∀ n, match EvalExpression C n root w with
        | Ret _ w' | Stop _ w' => untouched w w'
        | OutOfFuel => True
        end)
  ∧ ∃ N, ∀ m, EvalExpression C (N + m) root w ≠ OutOfFuel.
Proof.
  intros Hs. split; [intros n; apply EvalExpression_reads_only|].
  destruct (well_shaped_repr _ _ Hs) as [t Ht].
  exists (S (height t)). intros m. rewrite (EvalExpression_repr C t ∅ m root w Ht).
  pose proof (eval_tree_result t (repr_arith_tree _ _ _ _ Ht) w) as Hres.
  by destruct (eval_tree t w).
Qed.

Lemma well_shaped_3_add_4 : well_shaped heap_3_add_4 (Addr 3).
Proof.
  eapply shaped_operator; [reflexivity|reflexivity|done|done|..]; cbn.
  - eapply shaped_literal; reflexivity.
  - eapply shaped_literal; reflexivity.
Qed.

Lemma C10_evaluation_reads_only_witness :
  let w := mkWorld 1 eof_token [] heap_3_add_4 [] [] in
  well_shaped (heap w) (Addr 3)
  ∧ (∀ n, match EvalExpression host n (Addr 3) w with
          | Ret _ w' | Stop _ w' => untouched w w'
          | OutOfFuel => True
          end)
  ∧ ∃ N, ∀ m, EvalExpression host (N + m) (Addr 3) w ≠ OutOfFuel.
Proof.
  intros w. split; [exact well_shaped_3_add_4|].
  exact (C10_evaluation_reads_only host (Addr 3) w well_shaped_3_add_4).
Defined.

(** ** Operators the evaluator does not know *)

(** On a node that is neither a literal nor one of the four operators
    the evaluator does [Error("Unknown operator/operand"); return 0;]. *)
Lemma EvalExpression_unknown C n l nd w :
  heap w !! l = Some nd →
  op nd ≠ TK_NUM → isArithmeticOperator (op nd) = false →
  EvalExpression C (S n) (Addr l) w
    = (let* _ := Error C "Unknown operator/operand" in ret 0%Z) w.
Proof.
  intros Hl Hnum Hop. rewrite EvalExpression_S.
  rewrite (bind_Ret _ _ tt w w) by reflexivity.
  rewrite (bind_Ret _ _ nd w w) by (unfold load; by rewrite Hl).
  destruct (decide _) as [|_]; [done|]. by rewrite Hop.
Qed.

(** C7 (amended).  When the node under evaluation is neither a literal
    nor one of the four operators, the message
    ["Unknown operator/operand"] goes to [Error], whatever [Error] does
    then.  Only when [Error] hands control back does the evaluation of
    the node yield the value 0, with nothing printed and nothing but the
    message added to the state; when [Error] ends the process, as the
    reference does, the evaluation stops there and yields no value. *)
Theorem C7_unknown_operator_is_reported C n l nd w :
  heap w !! l = Some nd →
  op nd ≠ TK_NUM → isArithmeticOperator (op nd) = false →
  EvalExpression C (S n) (Addr l) w
    = if error_returns C
      then Ret 0%Z (report "Unknown operator/operand" w)
      else Stop Exited (report "Unknown operator/operand" w).
Proof.
  intros Hl Hnum Hop. rewrite (EvalExpression_unknown C n l nd w Hl Hnum Hop).
  unfold bind, Error. by destruct (error_returns C).
Qed.

Lemma C7_unknown_operator_is_reported_witness :
  let nd := mkNode TK_LPAREN (mkValue "(" 0) NULL NULL in
  let w := mkWorld 0 eof_token [] {[1%positive := nd]} [] [] in
  heap w !! 1%positive = Some nd
  ∧ op nd ≠ TK_NUM ∧ isArithmeticOperator (op nd) = false
  ∧ EvalExpression lenient 1 (Addr 1) w
    = Ret 0%Z (report "Unknown operator/operand" w).
Proof.
  intros nd w.
  assert (H1 : heap w !! 1%positive = Some nd) by reflexivity.
  assert (H2 : op nd ≠ TK_NUM) by discriminate.
  assert (H3 : isArithmeticOperator (op nd) = false) by reflexivity.
  repeat (split; [done|]).
  exact (C7_unknown_operator_is_reported lenient 0 1%positive nd w H1 H2 H3).
Defined.

(** C7 as stated fails for the [Error] of the reference, which ends the
    process: on a node whose kind is ['('] the evaluation stops in
    [Error], with the message reported, and whatever the depth count it
    returns no value, zero or other. *)
Lemma C7_counterexample_error_ends_the_process :
  let nd := mkNode TK_LPAREN (mkValue "(" 0) NULL NULL in
  let w := mkWorld 0 eof_token [] {[1%positive := nd]} [] [] in
  heap w !! 1%positive = Some nd
  ∧ op nd ≠ TK_NUM ∧ isArithmeticOperator (op nd) = false
  ∧ error_returns host = false
  ∧ EvalExpression host 1 (Addr 1) w
    = Stop Exited (report "Unknown operator/operand" w)
  ∧ ∀ n v w', EvalExpression host n (Addr 1) w ≠ Ret v w'.
Proof.
  intros nd w.
  assert (H : ∀ n, EvalExpression host (S n) (Addr 1) w
                   = Stop Exited (report "Unknown operator/operand" w)).
  { intros n. by rewrite (EvalExpression_unknown host n 1%positive nd w). }
  split_and!; [reflexivity|discriminate|reflexivity|reflexivity|apply (H 0)|].
  intros [|n] v w'; [discriminate|]. rewrite H. discriminate.
Qed.

(** ** Syntax errors *)

(** C8.  When [Error] ends the process: a token that is neither a number
    nor ['('] makes [PrimaryExpression] stop with the message
    ["number or '(' expected"]; every parse either returns having
    reported nothing or stops, by way of [Error], with exactly one
    message, nothing printed and no tree returned, and with enough depth
    it does one of the two; and for ["(1 + 2"] the run stops in [Expect]
    with the message for the missing [')'] and has printed nothing. *)
Theorem C8_syntax_errors_are_fatal C :
  error_returns C = false →
  (∀ n w, kind (curToken w) ≠ TK_NUM → kind (curToken w) ≠ TK_LPAREN →
     PrimaryExpression C (S n) w
       = Stop Exited (report "number or '(' expected" w))
  ∧ (∀ n w, match Expression C n w with
            | Ret _ w' => err w' = err w
            | Stop s w' =>
                s = Exited ∧ out w' = out w ∧ ∃ msg, err w' = err w ++ [msg]
            | OutOfFuel => n < 4 * pending w + 4
            end)
  ∧ (∀ a b n, ∃ w',
       run C (12 + n) (input_unterminated a b) = Stop Exited w'
       ∧ err w' = [expect_message C TK_RPAREN] ∧ out w' = []).
Proof.
  intros Herr. split; [|split].
  - intros n w Hn Hp. rewrite PrimaryExpression_other by done. by rewrite Herr.
  - intros n w. pose proof (proj2 (proj2 (proj2 (framed_parser C n))) w) as Hf.
    destruct (Expression C n w) as [p w'|s w'|] eqn:Hrun.
    + destruct Hf as (_ & _ & _ & _ & Hq). by apply Hq.
    + destruct Hf as (-> & _ & Ho & Hmsg). done.
    + destruct (decide (n < 4 * pending w + 4)) as [|Hge]; [done|].
      exfalso. apply (Expression_total C w (n - (4 * pending w + 4))).
      replace (4 * pending w + 4 + (n - (4 * pending w + 4))) with n by lia. done.
  - intros a b n. destruct C as [len ret_ msg]. cbn in Herr. subst ret_.
    eexists. split.
    + destruct (run_fuel (mkCollaborators len false msg) 12 n (input_unterminated a b))
        as [Hoof | <-]; [vm_compute in Hoof; discriminate|].
      vm_compute. reflexivity.
    + split; reflexivity.
Qed.

Lemma C8_syntax_errors_are_fatal_witness :
  error_returns host = false
  ∧ PrimaryExpression host 1 (start [sym TK_ADD "+"])
    = Stop Exited (report "number or '(' expected" (start [sym TK_ADD "+"]))
  ∧ ∃ w', run host (12 + 0) (input_unterminated "1" "2") = Stop Exited w'
          ∧ err w' = [expect_message host TK_RPAREN] ∧ out w' = [].
Proof.
  assert (H : error_returns host = false) by reflexivity.
  destruct (C8_syntax_errors_are_fatal host H) as (H1 & _ & H3).
  split; [done|]. split; [|exact (H3 "1" "2" 0)].
  apply H1; discriminate.
Defined.

(** For comparison, a collaborator whose [Error] returns: on ["1 +"] the
    parser reports the error and returns an addition node whose right
    child is null. *)
Lemma lenient_parse_returns_partial_tree :
  match Expression lenient 12 (start [num "1" 1; sym TK_ADD "+"]) with
  | Ret (Addr l) w =>
      err w = ["number or '(' expected"]
      ∧ ∃ nd, heap w !! l = Some nd ∧ op nd = TK_ADD ∧ kids1 nd = NULL
  | _ => False
  end.
Proof. vm_compute. split; [reflexivity|]. eexists. repeat split. Qed.

(** ** Division *)

Lemma EvalExpression_Ret_load C n p w x w1 :
  EvalExpression C n p w = Ret x w1 →
  is_null p = false ∧ ∃ nd, load p w = Ret nd w.
Proof.
  destruct n as [|n]; [discriminate|]. rewrite EvalExpression_S. unfold bind at 1.
  destruct p as [|l]; [discriminate|]. cbn [assert is_null negb ret].
  unfold bind at 1, load. destruct (heap w !! l) as [nd|]; [eauto|discriminate].
Qed.

Lemma long_div_None x y :
  long_div x y = None ↔ y = 0%Z ∨ (x = LONG_MIN ∧ y = (-1)%Z).
Proof. unfold long_div. destruct (decide _); split; intros; done. Qed.

Lemma long_div_Some x y :
  y ≠ 0%Z → ¬ (x = LONG_MIN ∧ y = (-1)%Z) → long_div x y = Some (Z.quot x y).
Proof. intros Hy Hx. unfold long_div. destruct (decide _) as [[|]|]; done. Qed.

(** C9 (amended).  At a division node whose operands evaluate to [x]
    and [y]: when [y] is not zero and the quotient is representable (the
    pair is not [LONG_MIN], [-1]), the node evaluates to the quotient
    truncated towards zero and prints its instruction; otherwise the
    division is carried out all the same, unguarded: the evaluation stops
    there as undefined, in the state the operands left, with nothing
    reported.  Truncation is towards zero: ["(0 - 7) / 2"] is [-3]. *)
Theorem C9_division_truncates_unguarded C n l nd w x w1 y w2 :
  heap w !! l = Some nd → op nd = TK_DIV →
  EvalExpression C n (kids0 nd) w = Ret x w1 →
  EvalExpression C n (kids1 nd) w1 = Ret y w2 →
  (y ≠ 0%Z → ¬ (x = LONG_MIN ∧ y = (-1)%Z) →
     ∃ line, EvalExpression C (S n) (Addr l) w = Ret (Z.quot x y) (print line w2))
  ∧ (y = 0%Z ∨ (x = LONG_MIN ∧ y = (-1)%Z) →
     EvalExpression C (S n) (Addr l) w = Stop Undefined w2)
  ∧ summary (run host 12 input_minus_7_div_2)
    = Some ((-3)%Z, [instruction "-" "t0" "0" "7"; instruction "/" "t1" "t0" "2"], []).
Proof.
  intros Hl Hop Hx Hy.
  destruct (EvalExpression_Ret_load _ _ _ _ _ _ Hx) as (Hn0 & nd0 & Hl0).
  destruct (EvalExpression_Ret_load _ _ _ _ _ _ Hy) as (Hn1 & nd1 & Hl1).
  pose proof (EvalExpression_reads_only C n (kids0 nd) w) as Hr1. rewrite Hx in Hr1.
  pose proof (EvalExpression_reads_only C n (kids1 nd) w1) as Hr2. rewrite Hy in Hr2.
  destruct Hr1 as (Hh1 & _), Hr2 as (Hh2 & _).
  assert (Hroot : ∀ v, heap v = heap w → load (Addr l) v = Ret nd v).
  { intros v Hv. unfold load. by rewrite Hv, Hl. }
  assert (Hload : ∀ p v v' m, heap v' = heap v → load p v = Ret m v → load p v' = Ret m v').
  { intros p v v' m Hv. unfold load. rewrite Hv. destruct p as [|k]; [done|].
    destruct (heap v !! k); [|done]. by intros [= ->]. }
  assert (Hstep : EvalExpression C (S n) (Addr l) w =
            match long_div x y with
            | None => Stop Undefined w2
            | Some q =>
                Ret q (print (instruction "/" (name (value nd)) (name (value nd0))
                                (name (value nd1))) w2)
            end).
  { rewrite EvalExpression_S.
    rewrite (bind_Ret _ _ tt w w) by reflexivity.
    rewrite (bind_Ret _ _ nd w w) by (by apply Hroot).
    destruct (decide _) as [Hnum|_]; [congruence|].
    rewrite Hop. cbn [isArithmeticOperator bool_decide orb].
    replace (isArithmeticOperator TK_DIV) with true by reflexivity.
    rewrite (bind_Ret _ _ tt w w) by (by rewrite Hn0).
    rewrite (bind_Ret _ _ tt w w) by (by rewrite Hn1).
    rewrite (bind_Ret _ _ _ _ _ Hx).
    rewrite (bind_Ret _ _ nd w1 w1) by (by apply Hroot).
    rewrite (bind_Ret _ _ _ _ _ Hy).
    rewrite (bind_Ret _ _ nd w2 w2) by (apply Hroot; congruence).
    rewrite Hop. destruct (long_div x y) as [q|]; [|reflexivity].
    unfold name_of.
    rewrite (bind_Ret _ _ (name (value nd)) w2 w2)
      by (rewrite (bind_Ret _ _ nd w2 w2) by (apply Hroot; congruence); reflexivity).
    rewrite (bind_Ret _ _ (name (value nd0)) w2 w2)
      by (rewrite (bind_Ret _ _ nd0 w2 w2)
            by (apply (Hload _ w); [congruence|done]); reflexivity).
    rewrite (bind_Ret _ _ (name (value nd1)) w2 w2)
      by (rewrite (bind_Ret _ _ nd1 w2 w2)
            by (apply (Hload _ w1); [congruence|done]); reflexivity).
    reflexivity. }
  split; [|split].
  - intros Hy0 Hmin. rewrite Hstep, (long_div_Some x y Hy0 Hmin). eauto.
  - intros Hnone. apply long_div_None in Hnone. by rewrite Hstep, Hnone.
  - vm_compute. reflexivity.
Qed.

Lemma C9_division_truncates_unguarded_witness :
  let nd := mkNode TK_DIV (mkValue "t0" 0) (Addr 1) (Addr 2) in
  let w := mkWorld 1 eof_token [] heap_7_div_2 [] [] in
  heap w !! 3%positive = Some nd ∧ op nd = TK_DIV
  ∧ EvalExpression host 1 (kids0 nd) w = Ret 7%Z w
  ∧ EvalExpression host 1 (kids1 nd) w = Ret 2%Z w
  ∧ ∃ line, EvalExpression host 2 (Addr 3) w = Ret 3%Z (print line w).
Proof.
  intros nd w.
  assert (H1 : heap w !! 3%positive = Some nd) by (vm_compute; reflexivity).
  assert (H2 : op nd = TK_DIV) by reflexivity.
  assert (H3 : EvalExpression host 1 (kids0 nd) w = Ret 7%Z w) by (vm_compute; reflexivity).
  assert (H4 : EvalExpression host 1 (kids1 nd) w = Ret 2%Z w) by (vm_compute; reflexivity).
  split; [exact H1|]. split; [exact H2|]. split; [exact H3|]. split; [exact H4|].
  apply (proj1 (C9_division_truncates_unguarded host 1 3%positive nd w 7 w 2 w
                  H1 H2 H3 H4)); [lia|].
  intros [Hx _]. vm_compute in Hx. discriminate.
Defined.

(** C9 as stated fails on ["(0 - 9223372036854775807 - 1) / (0 - 1)"]:
    the root of the parsed tree is a division node, its operands evaluate
    to [LONG_MIN] and to the nonzero [-1], and whatever the depth count
    the evaluation of the node returns no value at all. *)
Lemma C9_counterexample_quotient_overflow :
  ∃ l w1 nd,
    parses host (start input_min_div_minus_1) (Addr l) w1
    ∧ heap w1 !! l = Some nd ∧ op nd = TK_DIV
    ∧ match EvalExpression host 24 (kids0 nd) w1 with
      | Ret x wa =>
          x = LONG_MIN
          ∧ match EvalExpression host 24 (kids1 nd) wa with
            | Ret y _ => y = (-1)%Z ∧ y ≠ 0%Z
            | _ => False
            end
      | _ => False
      end
    ∧ ∀ n v w2, EvalExpression host n (Addr l) w1 ≠ Ret v w2.
Proof.
  destruct (Expression host 24 (start input_min_div_minus_1)) as [p w1| |] eqn:Hrun;
    [|vm_compute in Hrun; discriminate..].
  vm_compute in Hrun. inversion Hrun; subst p w1; clear Hrun.
  eexists _, _, _.
  split; [exists 24; split; [vm_compute; reflexivity|unfold quiet; cbn; lia]|].
  split; [vm_compute; reflexivity|]. split; [reflexivity|].
  split; [vm_compute; repeat split; discriminate|].
  intros n v w2.
  match goal with |- EvalExpression host n ?p ?w ≠ _ =>
    destruct (EvalExpression_settled host 24 p w (EvalExpression host 24 p w)
                eq_refl ltac:(vm_compute; discriminate) n) as [-> | ->]
  end; [done|]. vm_compute. discriminate.
Qed.

(** * Further properties *)

#[local] Set Warnings "-clear-no-such-hyp".

(** ** Ownership and release *)

Lemma owns_repr h p t F D : owns h p t F → F ## D → repr D h p t.
Proof.
  revert p F. induction t as [v|o v a IHa b IHb]; intros p F; cbn.
  - intros (l & -> & -> & Hl) HD. exists l. split_and!; [done|set_solver|done].
  - intros (l & pa & pb & Fa & Fb & -> & -> & _ & _ & _ & Ho & Hl & Ha & Hb) HD.
    exists l, pa, pb. split_and!; [done|set_solver|done|done|..].
    + eapply IHa; [done|set_solver].
    + eapply IHb; [done|set_solver].
Qed.

Lemma owns_size h p t F : owns h p t F → size F = nodes t.
Proof.
  revert p F. induction t as [v|o v a IHa b IHb]; intros p F; cbn.
  - intros (l & -> & -> & Hl). apply size_singleton.
  - intros (l & pa & pb & Fa & Fb & -> & -> & HlA & HlB & Hdisj & _ & _ & Ha & Hb).
    rewrite size_union
      by (apply disjoint_union_l; split; [by apply disjoint_singleton_l|done]).
    rewrite size_union by (by apply disjoint_singleton_l).
    rewrite size_singleton, (IHa _ _ Ha), (IHb _ _ Hb). lia.
Qed.

Lemma holds_dom h p s F : holds h p s F → F ⊆ dom h.
Proof.
  revert p F. induction s as [|a IHa b IHb]; intros p F; cbn.
  - intros (_ & ->). set_solver.
  - intros (l & nd & Fa & Fb & -> & -> & _ & _ & _ & Hl & Ha & Hb).
    apply IHa in Ha. apply IHb in Hb.
    assert (Hin : l ∈ dom h) by (apply elem_of_dom; eauto).
    intros k [[->%elem_of_singleton|Hk]%elem_of_union|Hk]%elem_of_union; auto.
Qed.

Lemma holds_agree h h' p s F :
  (∀ l, l ∈ F → h' !! l = h !! l) → holds h p s F → holds h' p s F.
Proof.
  revert p F. induction s as [|a IHa b IHb]; intros p F Hag; cbn; [done|].
  intros (l & nd & Fa & Fb & -> & -> & HlA & HlB & Hdisj & Hl & Ha & Hb).
  exists l, nd, Fa, Fb. split_and!; try done.
  - rewrite Hag; [done|set_solver].
  - apply IHa; [|done]. intros k Hk. apply Hag. set_solver.
  - apply IHb; [|done]. intros k Hk. apply Hag. set_solver.
Qed.

(** A structure of pairwise distinct cells that is the heap image of a
    tree owns its cells in the sense of [owns]. *)
Lemma holds_owns D h p t :
  ∀ s F, repr D h p t → holds h p s F → owns h p t F.
Proof.
  revert p. induction t as [v|o v a IHa b IHb]; intros p s F; cbn [repr owns].
  - intros (l & -> & _ & Hl). destruct s as [|sa sb]; cbn; [by intros [? _]|].
    intros (l' & nd & Fa & Fb & [= <-] & -> & _ & _ & _ & Hl' & Ha & Hb).
    rewrite Hl in Hl'. injection Hl' as <-. cbn in Ha, Hb.
    destruct sa; [|by destruct Ha as (? & ? & ? & ? & ? & _)].
    destruct sb; [|by destruct Hb as (? & ? & ? & ? & ? & _)].
    destruct Ha as [_ ->]. destruct Hb as [_ ->].
    exists l. split_and!; [done|set_solver|done].
  - intros (l & pa & pb & -> & _ & Ho & Hl & Ha & Hb).
    destruct s as [|sa sb]; cbn; [by intros [? _]|].
    intros (l' & nd & Fa & Fb & [= <-] & -> & HlA & HlB & Hdisj & Hl' & Ha' & Hb').
    rewrite Hl in Hl'. injection Hl' as <-. cbn in Ha', Hb'.
    exists l, pa, pb, Fa, Fb. split_and!; try done; [by eapply IHa|by eapply IHb].
Qed.

Section Ownership.

Context (C : Collaborators).

(** One iteration of a loop adds one cell for the operator and the cells
    of the operand to what was built so far, and nothing else. *)
Lemma reserves_operator_node operand n w0 lhs w sl Fl p w' :
  (∀ v, framed C v (operand n v)) → reserves (operand n) →
  holds (heap w) lhs sl Fl → Fl ## dom (heap w0) →
  dom (heap w) = dom (heap w0) ∪ Fl →
  operator_node C operand n lhs w = Ret p w' →
  ∃ s F, holds (heap w') p s F ∧ F ## dom (heap w0)
         ∧ dom (heap w') = dom (heap w0) ∪ F.
Proof.
  intros Hfr Hop Hown Hdisj Hdom Hrun.
  pose proof (framed_operator_node C operand n lhs w Hfr) as Hframe.
  rewrite Hrun in Hframe. destruct Hframe as (Hsub & _).
  rewrite operator_node_cases in Hrun.
  set (l := fresh (dom (heap w))) in *.
  set (w2 := enter_operator C lhs w) in *.
  assert (Hl : l ∉ dom (heap w)) by apply is_fresh.
  assert (Hh2 : heap w2 = <[l := mkNode (kind (curToken w))
                         (mkValue (temp_name C (tmpNo w)) 0) lhs NULL]> (heap w)).
  { unfold w2, enter_operator. by rewrite heap_advance. }
  assert (Hd2 : dom (heap w2) = {[l]} ∪ dom (heap w)) by (by rewrite Hh2, dom_insert_L).
  pose proof (Hfr w2) as Hfr2.
  destruct (operand n w2) as [rhs w3| |] eqn:Hrhs; [|done|done].
  destruct Hfr2 as (Hsub3 & _).
  assert (Hnd : heap w3 !! l = Some (mkNode (kind (curToken w))
                         (mkValue (temp_name C (tmpNo w)) 0) lhs NULL)).
  { eapply lookup_weaken; [|exact Hsub3]. rewrite Hh2. apply lookup_insert_eq. }
  rewrite Hnd in Hrun. inversion Hrun; subst p w'; clear Hrun.
  cbn [heap set_heap] in *.
  destruct (Hop w2 rhs w3 Hrhs) as (sr & Fr & Hownr & Hdisjr & Hdomr).
  pose proof (holds_dom _ _ _ _ Hown) as HFl.
  exists (Node sl sr), ({[l]} ∪ Fl ∪ Fr).
  split_and!.
  - cbn [holds]. eexists l, _, Fl, Fr. split_and!; try done.
    + set_solver.
    + set_solver.
    + set_solver.
    + by rewrite lookup_insert_eq.
    + cbn [kids0 set_kids1]. eapply holds_agree; [|exact Hown]. intros j Hj.
      destruct (heap w !! j) as [x|] eqn:Hx;
        [exact (lookup_weaken _ _ _ _ Hx Hsub)|].
      apply not_elem_of_dom in Hx. exfalso. by apply Hx, HFl.
    + cbn [kids1 set_kids1]. eapply holds_agree; [|exact Hownr]. intros j Hj.
      apply lookup_insert_ne. set_solver.
  - set_solver.
  - rewrite dom_insert_L, Hdomr, Hd2, Hdom. set_solver.
Qed.

Lemma reserves_binary_while isop operand n :
  (∀ k v, k < n → framed C v (operand k v)) →
  (∀ k, k < n → reserves (operand k)) →
  ∀ w0 lhs w sl Fl p w',
    holds (heap w) lhs sl Fl → Fl ## dom (heap w0) →
    dom (heap w) = dom (heap w0) ∪ Fl →
    binary_while C isop operand n lhs w = Ret p w' →
    ∃ s F, holds (heap w') p s F ∧ F ## dom (heap w0)
           ∧ dom (heap w') = dom (heap w0) ∪ F.
Proof.
  induction n as [|n IH];
    intros Hfr Hop w0 lhs w sl Fl p w' Hown Hdisj Hdom Hrun; [discriminate|].
  rewrite binary_while_S in Hrun.
  destruct (isop (kind (curToken w))) eqn:Hk.
  2:{ inversion Hrun; subst. by exists sl, Fl. }
  assert (Hfr' : ∀ v, framed C v (operand n v)) by (intros; apply Hfr; lia).
  destruct (operator_node C operand n lhs w) as [expr w1| |] eqn:Hnode; [|done|done].
  destruct (reserves_operator_node operand n w0 lhs w sl Fl expr w1)
    as (s1 & F1 & Hown1 & Hdisj1 & Hdom1); try done.
  - apply Hop. lia.
  - eapply (IH (fun k v Hlt => Hfr k v (Nat.lt_lt_succ_r _ _ Hlt))
               (fun k Hlt => Hop k (Nat.lt_lt_succ_r _ _ Hlt)) w0 expr w1 s1 F1);
      done.
Qed.

(** Whenever one of the four functions returns, with or without a
    report, the cells it has added hang below the pointer it returns,
    each of them once. *)
Lemma reserves_parser n :
  reserves (PrimaryExpression C n) ∧ reserves (MultiplicativeExpression C n)
  ∧ reserves (AdditiveExpression C n) ∧ reserves (Expression C n).
Proof.
  induction n as [n IH] using lt_wf_ind.
  destruct n as [|n]; [repeat split; intros w p w' Hrun; discriminate|].
  assert (HP : ∀ k, k < S n → reserves (PrimaryExpression C k)) by (intros k Hk; apply (IH k Hk)).
  assert (HM : ∀ k, k < S n → reserves (MultiplicativeExpression C k)) by (intros k Hk; apply (IH k Hk)).
  assert (HA : ∀ k, k < S n → reserves (AdditiveExpression C k)) by (intros k Hk; apply (IH k Hk)).
  assert (HE : ∀ k, k < S n → reserves (Expression C k)) by (intros k Hk; apply (IH k Hk)).
  clear IH. repeat split; intros w p w' Hrun.
  - destruct (decide (kind (curToken w) = TK_NUM)) as [Hn|Hn].
    { rewrite PrimaryExpression_num in Hrun by done. inversion Hrun; subst.
      exists (Node Hole Hole), {[fresh (dom (heap w))]}.
      unfold enter_literal. rewrite heap_advance. cbn [heap set_heap].
      split_and!.
      - eexists _, _, ∅, ∅.
        split_and!; [done|set_solver..|apply lookup_insert_eq|done|done].
      - apply disjoint_singleton_l, is_fresh.
      - rewrite dom_insert_L. set_solver. }
    destruct (decide (kind (curToken w) = TK_LPAREN)) as [Hp|Hp].
    2:{ rewrite PrimaryExpression_other in Hrun by done.
        destruct (error_returns C); [|done]. inversion Hrun; subst.
        exists Hole, ∅. cbn. split_and!; [done|done|set_solver..]. }
    rewrite PrimaryExpression_paren in Hrun by done.
    destruct (Expression C n (advance w)) as [expr w1| |] eqn:Hinner; [|done|done].
    destruct (HE n (Nat.lt_succ_diag_r n) (advance w) expr w1 Hinner)
      as (s & F & Hown & Hdisj & Hdom).
    rewrite heap_advance in Hdisj, Hdom.
    assert (Hw' : p = expr ∧ heap w' = heap w1).
    { rewrite Expect_cases in Hrun. destruct (decide _) as [Hr|Hr].
      - inversion Hrun; subst. by rewrite heap_advance.
      - unfold Error in Hrun. destruct (error_returns C); [|done].
        by inversion Hrun; subst. }
    destruct Hw' as [-> Hw']. exists s, F. by rewrite Hw'.
  - rewrite MultiplicativeExpression_cases in Hrun.
    destruct (PrimaryExpression C n w) as [lhs w1| |] eqn:Hfirst; [|done|done].
    destruct (HP n (Nat.lt_succ_diag_r n) w lhs w1 Hfirst) as (sl & Fl & Hown & Hdisj & Hdom).
    eapply (reserves_binary_while is_mop (PrimaryExpression C) n)
      with (w0 := w) (w := w1) (lhs := lhs) (sl := sl) (Fl := Fl); try done.
    + intros k v _. apply framed_parser.
    + intros k Hk. apply HP. lia.
  - rewrite AdditiveExpression_cases in Hrun.
    destruct (MultiplicativeExpression C n w) as [lhs w1| |] eqn:Hfirst; [|done|done].
    destruct (HM n (Nat.lt_succ_diag_r n) w lhs w1 Hfirst) as (sl & Fl & Hown & Hdisj & Hdom).
    eapply (reserves_binary_while is_aop (MultiplicativeExpression C) n)
      with (w0 := w) (w := w1) (lhs := lhs) (sl := sl) (Fl := Fl); try done.
    + intros k v _. apply framed_parser.
    + intros k Hk. apply HM. lia.
  - rewrite Expression_S in Hrun. by apply (HA n (Nat.lt_succ_diag_r n)).
Qed.

(** Whenever one of the four functions returns without a report, the
    cells it has added are the nodes of the tree, one cell per node. *)
Lemma allocates_parser n :
  allocates (PrimaryExpression C n) ∧ allocates (MultiplicativeExpression C n)
  ∧ allocates (AdditiveExpression C n) ∧ allocates (Expression C n).
Proof.
  assert (H : ∀ m, builds C m → reserves m → allocates m).
  { intros m Hb Hr w p w' Hrun Hq.
    destruct (Hb w p w' Hrun Hq) as (t & Hrep & _).
    destruct (Hr w p w' Hrun) as (s & F & Hh & Hdisj & Hdom).
    exists t, F. split_and!; [by eapply holds_owns|done|done]. }
  destruct (builds_parser C n) as (B1 & B2 & B3 & B4).
  destruct (reserves_parser n) as (R1 & R2 & R3 & R4).
  split_and!; by apply H.
Qed.

End Ownership.

Lemma ReleaseAstExpr_S n root :
  ReleaseAstExpr (S n) root =
    if is_null root then ret tt
    else
      let* nd := load root in
      let* _ := ReleaseAstExpr n (kids0 nd) in
      let* nd := load root in
      let* _ := ReleaseAstExpr n (kids1 nd) in
      free root.
Proof. reflexivity. Qed.

Lemma released_lookup F w w' k :
  released F w w' → k ∉ F → heap w' !! k = heap w !! k.
Proof.
  intros (_ & Hsub & Hdom) Hk.
  destruct (heap w' !! k) as [x|] eqn:Hx.
  - symmetry. exact (lookup_weaken _ _ _ _ Hx Hsub).
  - apply not_elem_of_dom in Hx. rewrite Hdom in Hx.
    symmetry. apply not_elem_of_dom. set_solver.
Qed.

Lemma released_trans F G w w1 w2 :
  released F w w1 → released G w1 w2 → released (F ∪ G) w w2.
Proof.
  intros (H1 & Hs1 & Hd1) (H2 & Hs2 & Hd2). split_and!.
  - rewrite H2 at 1. rewrite H1 at 1. reflexivity.
  - by etrans.
  - rewrite Hd2, Hd1. set_solver.
Qed.

(** [ReleaseAstExpr] on a structure of pairwise distinct cells: with a
    count above its depth, it returns, and it has freed the cells of the
    structure and touched nothing else. *)
Lemma ReleaseAstExpr_holds s :
  ∀ p F w n, holds (heap w) p s F →
    ∃ w', ReleaseAstExpr (S (depth s) + n) p w = Ret tt w' ∧ released F w w'.
Proof.
  induction s as [|a IHa b IHb]; intros p F w n Hh.
  - destruct Hh as (-> & ->). exists w. split; [done|]. split_and!.
    + by destruct w.
    + done.
    + set_solver.
  - destruct Hh as (l & nd & Fa & Fb & -> & -> & HlA & HlB & Hdisj & Hl & Ha & Hb).
    cbn [depth]. change (S (S ?k) + n) with (S (S k + n)).
    rewrite ReleaseAstExpr_S. cbn [is_null].
    rewrite (bind_Ret _ _ nd w w) by (unfold load; by rewrite Hl).
    destruct (IHa (kids0 nd) Fa w (Nat.max (depth a) (depth b) - depth a + n) Ha)
      as (w1 & Hrun1 & Hrel1).
    replace (S (depth a) + (Nat.max (depth a) (depth b) - depth a + n))
      with (S (Nat.max (depth a) (depth b)) + n) in Hrun1 by lia.
    rewrite (bind_Ret _ _ _ _ _ Hrun1).
    assert (Hl1 : heap w1 !! l = Some nd)
      by (by rewrite (released_lookup _ _ _ _ Hrel1 HlA)).
    rewrite (bind_Ret _ _ nd w1 w1) by (unfold load; by rewrite Hl1).
    assert (Hb1 : holds (heap w1) (kids1 nd) b Fb).
    { eapply holds_agree; [|exact Hb]. intros k Hk.
      apply (released_lookup _ _ _ _ Hrel1). set_solver. }
    destruct (IHb (kids1 nd) Fb w1 (Nat.max (depth a) (depth b) - depth b + n) Hb1)
      as (w2 & Hrun2 & Hrel2).
    replace (S (depth b) + (Nat.max (depth a) (depth b) - depth b + n))
      with (S (Nat.max (depth a) (depth b)) + n) in Hrun2 by lia.
    rewrite (bind_Ret _ _ _ _ _ Hrun2).
    assert (Hl2 : heap w2 !! l = Some nd)
      by (by rewrite (released_lookup _ _ _ _ Hrel2 HlB)).
    unfold free. rewrite Hl2. eexists. split; [reflexivity|].
    pose proof (released_trans _ _ _ _ _ Hrel1 Hrel2) as (H12 & Hs12 & Hd12).
    split_and!.
    + cbn. rewrite H12. reflexivity.
    + cbn. etrans; [apply delete_subseteq|done].
    + cbn. rewrite dom_delete_L, Hd12. set_solver.
Qed.

Lemma repr_functional D D' h p t :
  ∀ t', repr D h p t → repr D' h p t' → t = t'.
Proof.
  revert p. induction t as [v|o v a IHa b IHb]; intros p [v'|o' v' a' b']; cbn.
  - intros (l & -> & _ & Hl) (l' & [= <-] & _ & Hl'). congruence.
  - intros (l & -> & _ & Hl) (l' & pa & pb & [= <-] & _ & Ho & Hl' & _).
    rewrite Hl in Hl'. injection Hl' as <- _ _ _. done.
  - intros (l & pa & pb & -> & _ & Ho & Hl & _) (l' & [= <-] & _ & Hl').
    rewrite Hl in Hl'. injection Hl' as -> _ _ _. done.
  - intros (l & pa & pb & -> & _ & _ & Hl & Ha & Hb)
           (l' & pa' & pb' & [= <-] & _ & _ & Hl' & Ha' & Hb').
    rewrite Hl in Hl'. injection Hl' as <- <- <- <-.
    by rewrite (IHa _ _ Ha Ha'), (IHb _ _ Hb Hb').
Qed.

Lemma nodes_operators_literals t :
  nodes t = length (operators t) + length (literals t).
Proof.
  induction t as [v|o v a IHa b IHb]; cbn; [done|].
  rewrite !length_app. cbn. lia.
Qed.

Lemma fuel_le_ReleaseAstExpr n :
  ∀ p w, fuel_le (ReleaseAstExpr n p w) (ReleaseAstExpr (S n) p w).
Proof.
  induction n as [|n IH]; intros p w; [(left; done)|].
  rewrite (ReleaseAstExpr_S (S n)), (ReleaseAstExpr_S n).
  destruct (is_null p); [apply fuel_le_refl|].
  apply fuel_le_bind; [apply fuel_le_refl|intros nd v].
  apply fuel_le_bind; [apply IH|intros _ v1].
  apply fuel_le_bind; [apply fuel_le_refl|intros nd1 v2].
  apply fuel_le_bind; [apply IH|intros _ v3].
  apply fuel_le_refl.
Qed.

Lemma ReleaseAstExpr_fuel n m p w :
  fuel_le (ReleaseAstExpr n p w) (ReleaseAstExpr (n + m) p w).
Proof.
  induction m as [|m IH]; [rewrite Nat.add_0_r; apply fuel_le_refl|].
  eapply fuel_le_trans; [exact IH|]. rewrite Nat.add_succ_r. apply fuel_le_ReleaseAstExpr.
Qed.

(** X1.  Releasing a structure whose nodes are pairwise distinct cells,
    children being null or structures of the same kind, returns once the
    depth count exceeds the depth of the structure; it has then freed
    every cell of the structure, and every other cell, the globals of the
    parser and the output are what they were. *)
Theorem ReleaseAstExpr_frees_the_tree p s F w n :
  holds (heap w) p s F →
  ∃ w', ReleaseAstExpr (depth s + 1 + n) p w = Ret tt w'
        ∧ w' = set_heap (heap w') w
        ∧ (∀ k, k ∈ F → heap w' !! k = None)
        ∧ (∀ k, k ∉ F → heap w' !! k = heap w !! k).
Proof.
  intros Hh. destruct (ReleaseAstExpr_holds s p F w n Hh) as (w' & Hrun & Hrel).
  exists w'. replace (depth s + 1 + n) with (S (depth s) + n) by lia.
  split_and!; [done|apply Hrel| |].
  - intros k Hk. apply not_elem_of_dom. destruct Hrel as (_ & _ & ->). set_solver.
  - intros k Hk. by apply (released_lookup F).
Qed.

Lemma holds_3_add_4 :
  holds heap_3_add_4 (Addr 3) (Node (Node Hole Hole) (Node Hole Hole))
    ({[3%positive]} ∪ ({[1%positive]} ∪ ∅ ∪ ∅) ∪ ({[2%positive]} ∪ ∅ ∪ ∅)).
Proof.
  eexists 3%positive, _, _, _.
  split_and!; [done|done|set_solver|set_solver|set_solver|done|..].
  - eexists 1%positive, _, ∅, ∅.
    split_and!; [done|done|set_solver|set_solver|set_solver|done|done|done].
  - eexists 2%positive, _, ∅, ∅.
    split_and!; [done|done|set_solver|set_solver|set_solver|done|done|done].
Qed.

Lemma ReleaseAstExpr_frees_the_tree_witness :
  let w := mkWorld 1 eof_token [] heap_3_add_4 [] [] in
  let s := Node (Node Hole Hole) (Node Hole Hole) in
  let F : gset positive :=
    {[3%positive]} ∪ ({[1%positive]} ∪ ∅ ∪ ∅) ∪ ({[2%positive]} ∪ ∅ ∪ ∅) in
  holds (heap w) (Addr 3) s F
  ∧ ∃ w', ReleaseAstExpr (depth s + 1 + 0) (Addr 3) w = Ret tt w'
          ∧ w' = set_heap (heap w') w
          ∧ (∀ k, k ∈ F → heap w' !! k = None)
          ∧ (∀ k, k ∉ F → heap w' !! k = heap w !! k).
Proof.
  intros w s F. split; [exact holds_3_add_4|].
  exact (ReleaseAstExpr_frees_the_tree (Addr 3) s F w 0 holds_3_add_4).
Defined.

Lemma ReleaseAstExpr_released p s F w w' m :
  holds (heap w) p s F → p ≠ NULL → released F w w' →
  ReleaseAstExpr (S m) p w' = Stop Undefined w'.
Proof.
  intros Hh Hp Hrel. destruct s as [|a b]; [by destruct Hh|].
  destruct Hh as (l & nd & Fa & Fb & -> & -> & _).
  rewrite ReleaseAstExpr_S. cbn [is_null]. unfold bind, load.
  assert (heap w' !! l = None) as ->; [|done].
  apply not_elem_of_dom. destruct Hrel as (_ & _ & ->). set_solver.
Qed.

(** X2.  A structure must not be released twice: after [ReleaseAstExpr]
    has returned for a structure of pairwise distinct cells, a second
    call on the same non-null root reads a freed cell. *)
Theorem ReleaseAstExpr_twice_is_undefined p s F w n w' m :
  holds (heap w) p s F → p ≠ NULL →
  ReleaseAstExpr n p w = Ret tt w' →
  ReleaseAstExpr (S m) p w' = Stop Undefined w'.
Proof.
  intros Hh Hp Hrun.
  destruct (ReleaseAstExpr_holds s p F w n Hh) as (w1 & Hrun1 & Hrel).
  assert (w1 = w') as ->.
  { destruct (ReleaseAstExpr_fuel n (S (depth s) + n) p w) as [Hn|Hn];
      [congruence|].
    destruct (ReleaseAstExpr_fuel (S (depth s) + n) n p w) as [Hm|Hm];
      [congruence|].
    rewrite (Nat.add_comm n) in Hn. congruence. }
  by eapply ReleaseAstExpr_released.
Qed.

Lemma ReleaseAstExpr_twice_is_undefined_witness :
  let w := mkWorld 1 eof_token [] heap_3_add_4 [] [] in
  let s := Node (Node Hole Hole) (Node Hole Hole) in
  let F : gset positive :=
    {[3%positive]} ∪ ({[1%positive]} ∪ ∅ ∪ ∅) ∪ ({[2%positive]} ∪ ∅ ∪ ∅) in
  let w' := set_heap ∅ w in
  holds (heap w) (Addr 3) s F ∧ Addr 3 ≠ NULL
  ∧ ReleaseAstExpr 3 (Addr 3) w = Ret tt w'
  ∧ ReleaseAstExpr 1 (Addr 3) w' = Stop Undefined w'.
Proof.
  intros w s F w'.
  assert (Hp : Addr 3 ≠ NULL) by discriminate.
  assert (Hrun : ReleaseAstExpr 3 (Addr 3) w = Ret tt w') by (vm_compute; reflexivity).
  split_and!; [exact holds_3_add_4|exact Hp|exact Hrun|].
  exact (ReleaseAstExpr_twice_is_undefined (Addr 3) s F w 3 w' 0 holds_3_add_4 Hp Hrun).
Defined.

(** X3.  Nor must a structure share a part between two children: when
    both children of a node are the same non-null structure,
    [ReleaseAstExpr] frees it for the first child and then reads its freed
    root for the second. *)
Theorem ReleaseAstExpr_shared_operand_is_undefined l o v p s F w n :
  heap w !! l = Some (mkNode o v p p) →
  holds (heap w) p s F → p ≠ NULL → l ∉ F →
  ∃ w', ReleaseAstExpr (depth s + 2 + n) (Addr l) w = Stop Undefined w'.
Proof.
  intros Hl Hh Hp HlF.
  destruct (ReleaseAstExpr_holds s p F w n Hh) as (w1 & Hrun1 & Hrel).
  exists w1. replace (depth s + 2 + n) with (S (S (depth s) + n)) by lia.
  rewrite ReleaseAstExpr_S. cbn [is_null].
  rewrite (bind_Ret _ _ (mkNode o v p p) w w) by (unfold load; by rewrite Hl).
  cbn [kids0 kids1]. rewrite (bind_Ret _ _ _ _ _ Hrun1).
  rewrite (bind_Ret _ _ (mkNode o v p p) w1 w1)
    by (unfold load; by rewrite (released_lookup _ _ _ _ Hrel HlF), Hl).
  cbn [kids1]. unfold bind at 1.
  change (S (depth s) + n) with (S (depth s + n)).
  by rewrite (ReleaseAstExpr_released p s F w w1 _ Hh Hp Hrel).
Qed.

Lemma ReleaseAstExpr_shared_operand_is_undefined_witness :
  let h : gmap positive astExprNode :=
    <[2%positive := mkNode TK_ADD (mkValue "t0" 0) (Addr 1) (Addr 1)]>
      (<[1%positive := mkNode TK_NUM (mkValue "3" 3) NULL NULL]> ∅) in
  let w := mkWorld 1 eof_token [] h [] [] in
  let s := Node Hole Hole in
  let F : gset positive := {[1%positive]} ∪ ∅ ∪ ∅ in
  heap w !! 2%positive = Some (mkNode TK_ADD (mkValue "t0" 0) (Addr 1) (Addr 1))
  ∧ holds (heap w) (Addr 1) s F ∧ Addr 1 ≠ NULL
  ∧ (2%positive ∉ F)
  ∧ ∃ w', ReleaseAstExpr (depth s + 2 + 0) (Addr 2) w = Stop Undefined w'.
Proof.
  intros h w s F.
  assert (Hl : heap w !! 2%positive
               = Some (mkNode TK_ADD (mkValue "t0" 0) (Addr 1) (Addr 1))) by done.
  assert (Hh : holds (heap w) (Addr 1) s F).
  { eexists 1%positive, _, ∅, ∅.
    split_and!; [done|done|set_solver|set_solver|set_solver|done|done|done]. }
  assert (Hp : Addr 1 ≠ NULL) by discriminate.
  assert (HlF : 2%positive ∉ F) by set_solver.
  split_and!; [exact Hl|exact Hh|exact Hp|exact HlF|].
  exact (ReleaseAstExpr_shared_operand_is_undefined
           2 TK_ADD (mkValue "t0" 0) (Addr 1) s F w 0 Hl Hh Hp HlF).
Defined.

(** X4.  No leak and no stray free: whatever [Expression] returns, a
    tree, a partial tree (when [Error] returns) or a null pointer,
    [ReleaseAstExpr] releases it, and the heap is then what it was before
    the parse, for every depth count above some bound. *)
Theorem parse_then_release_restores_heap C n w p w' :
  Expression C n w = Ret p w' →
  ∃ N, ∀ m, ReleaseAstExpr (N + m) p w' = Ret tt (set_heap (heap w) w').
Proof.
  intros Hrun.
  destruct (proj2 (proj2 (proj2 (reserves_parser C n))) w p w' Hrun)
    as (s & F & Hown & Hdisj & Hdom).
  pose proof (proj2 (proj2 (proj2 (framed_parser C n))) w) as Hf.
  rewrite Hrun in Hf. destruct Hf as (Hsub & _).
  exists (S (depth s)). intros m.
  destruct (ReleaseAstExpr_holds s p F w' m Hown) as (w'' & Hrel & Hr).
  rewrite Hrel. f_equal. destruct Hr as (Hw & Hs & Hd). rewrite Hw. f_equal.
  apply map_eq. intros k. destruct (decide (k ∈ F)) as [Hk|Hk].
  - transitivity (@None astExprNode); [|symmetry];
      apply not_elem_of_dom; [rewrite Hd|]; set_solver.
  - rewrite (released_lookup F w' w'' k) by done.
    destruct (heap w !! k) as [x|] eqn:Hx.
    + exact (lookup_weaken _ _ _ _ Hx Hsub).
    + apply not_elem_of_dom. rewrite Hdom. apply not_elem_of_dom in Hx. set_solver.
Qed.

Lemma parse_then_release_restores_heap_witness :
  let w := set_heap heap_7_div_2
             (start [num "1" 1; sym TK_ADD "+"; sym TK_RPAREN ")"]) in
  ∃ p w',
    Expression lenient 9 w = Ret p w'
    ∧ ∃ N, ∀ m, ReleaseAstExpr (N + m) p w' = Ret tt (set_heap (heap w) w').
Proof.
  intros w. destruct (Expression lenient 9 w) as [p w'| |] eqn:Hrun;
    [|vm_compute in Hrun; discriminate..].
  exists p, w'. split; [done|].
  exact (parse_then_release_restores_heap lenient 9 w p w' Hrun).
Defined.

(** X5.  A successful parse allocates one cell for each literal token and
    one for each operator token it consumes, and nothing else. *)
Theorem parse_allocates_one_cell_per_token C w p w' :
  parses C w p w' →
  ∃ ops lits,
    operator_tokens (tokens w) = ops ++ operator_tokens (tokens w')
    ∧ literal_tokens (tokens w) = lits ++ literal_tokens (tokens w')
    ∧ size (dom (heap w')) = size (dom (heap w)) + length ops + length lits.
Proof.
  intros (n & Hrun & Hq).
  destruct (proj2 (proj2 (proj2 (allocates_parser C n))) w p w' Hrun Hq)
    as (t' & F & Hown & Hdisj & Hdom).
  destruct (proj2 (proj2 (proj2 (builds_parser C n))) w p w' Hrun Hq)
    as (t & Hrep & Hops & Hlits & _).
  assert (t' = t) as ->
    by (eapply repr_functional; [eapply owns_repr; [exact Hown|exact Hdisj]|exact Hrep]).
  exists (operators t), (literals t). split_and!; [done|done|].
  rewrite Hdom, size_union by done.
  rewrite (owns_size _ _ _ _ Hown), nodes_operators_literals. lia.
Qed.

Lemma parse_allocates_one_cell_per_token_witness :
  ∃ p w',
    parses host (start (input_paren_1_add_2_mul_3 "1" "2" "3")) p w'
    ∧ ∃ ops lits,
        operator_tokens (tokens (start (input_paren_1_add_2_mul_3 "1" "2" "3")))
          = ops ++ operator_tokens (tokens w')
        ∧ literal_tokens (tokens (start (input_paren_1_add_2_mul_3 "1" "2" "3")))
          = lits ++ literal_tokens (tokens w')
        ∧ size (dom (heap w'))
          = size (dom (heap (start (input_paren_1_add_2_mul_3 "1" "2" "3"))))
            + length ops + length lits.
Proof.
  destruct (Expression host 12 (start (input_paren_1_add_2_mul_3 "1" "2" "3")))
    as [p w'| |] eqn:Hrun; [|vm_compute in Hrun; discriminate..].
  assert (Hp : parses host (start (input_paren_1_add_2_mul_3 "1" "2" "3")) p w').
  { exists 12. split; [done|]. vm_compute in Hrun. inversion Hrun; subst.
    unfold quiet. cbn. lia. }
  exists p, w'. split; [done|].
  exact (parse_allocates_one_cell_per_token host _ p w' Hp).
Defined.

(** ** What the parser leaves behind *)

Lemma binary_while_exit C isop operand (Q : TokenKind → Prop) :
  (∀ k u r u', operand k u = Ret r u' → Q (kind (curToken u'))) →
  ∀ n lhs w p w',
    Q (kind (curToken w)) →
    binary_while C isop operand n lhs w = Ret p w' →
    Q (kind (curToken w')) ∧ isop (kind (curToken w')) = false.
Proof.
  intros Hop. induction n as [|n IH]; intros lhs w p w' HQ Hrun; [done|].
  rewrite binary_while_S in Hrun.
  destruct (isop (kind (curToken w))) eqn:Hk.
  - rewrite operator_node_cases in Hrun.
    destruct (operand n _) as [rhs w1| |] eqn:Hrhs; [|done|done].
    destruct (heap w1 !! _); [|done].
    eapply IH; [|exact Hrun]. cbn. by eapply Hop.
  - injection Hrun as <- <-. done.
Qed.

Lemma MultiplicativeExpression_exit C n w p w' :
  MultiplicativeExpression C n w = Ret p w' → is_mop (kind (curToken w')) = false.
Proof.
  destruct n as [|n]; [done|]. rewrite MultiplicativeExpression_cases.
  destruct (PrimaryExpression C n w) as [lhs w1| |]; [|done|done].
  intros Hrun.
  by apply (binary_while_exit C is_mop (PrimaryExpression C) (fun _ => True))
    in Hrun as [_ ?].
Qed.

(** X6.  The parser is greedy: when [Expression] returns, the token under
    the cursor is not an arithmetic operator, whether or not errors were
    reported on the way. *)
Theorem Expression_stops_at_a_non_operator C n w p w' :
  Expression C n w = Ret p w' →
  isArithmeticOperator (kind (curToken w')) = false.
Proof.
  destruct n as [|[|n]]; [done|done|]. rewrite Expression_S, AdditiveExpression_cases.
  destruct (MultiplicativeExpression C n w) as [lhs w1| |] eqn:Hm; [|done|done].
  intros Hrun. apply MultiplicativeExpression_exit in Hm.
  apply (binary_while_exit C is_aop (MultiplicativeExpression C)
           (fun k => is_mop k = false)) in Hrun as [Hmop Haop]; [| |done].
  - revert Hmop Haop. unfold is_mop, is_aop, isArithmeticOperator.
    by destruct (kind (curToken w')).
  - intros k u r u'. apply MultiplicativeExpression_exit.
Qed.

Lemma Expression_stops_at_a_non_operator_witness :
  let w := start (input_3_add_4 "3" "4" ++ [sym TK_RPAREN ")"; sym TK_MUL "*"]) in
  ∃ p w', Expression host 9 w = Ret p w'
          ∧ isArithmeticOperator (kind (curToken w')) = false.
Proof.
  intros w. destruct (Expression host 9 w) as [p w'| |] eqn:Hrun;
    [|vm_compute in Hrun; discriminate..].
  exists p, w'. split; [done|].
  exact (Expression_stops_at_a_non_operator host 9 w p w' Hrun).
Defined.

(** X7.  A parse that returns has changed no cell that existed when it was
    called, has printed nothing and has not moved the cursor backwards;
    this holds whether [Error] returns or not. *)
Theorem Expression_keeps_existing_cells C n w p w' :
  Expression C n w = Ret p w' →
  (∀ l nd, heap w !! l = Some nd → heap w' !! l = Some nd)
  ∧ out w' = out w ∧ pending w' ≤ pending w.
Proof.
  intros Hrun. pose proof (proj2 (proj2 (proj2 (framed_parser C n))) w) as Hf.
  rewrite Hrun in Hf. destruct Hf as (Hsub & Hout & Hpend & _).
  split_and!; [|done|done]. intros l nd Hl. exact (lookup_weaken _ _ _ _ Hl Hsub).
Qed.

Lemma Expression_keeps_existing_cells_witness :
  let w := set_heap heap_7_div_2 (start (input_3_add_4 "3" "4")) in
  ∃ p w', Expression lenient 9 w = Ret p w'
          ∧ (∀ l nd, heap w !! l = Some nd → heap w' !! l = Some nd)
          ∧ out w' = out w ∧ pending w' ≤ pending w.
Proof.
  intros w. destruct (Expression lenient 9 w) as [p w'| |] eqn:Hrun;
    [|vm_compute in Hrun; discriminate..].
  exists p, w'. split; [done|].
  exact (Expression_keeps_existing_cells lenient 9 w p w' Hrun).
Defined.

(** X8.  When [Error] returns to its caller, so does the parser: whatever
    the tokens, [Expression] returns a pointer. *)
Theorem Expression_returns_when_Error_returns C w n :
  error_returns C = true →
  ∃ p w', Expression C (4 * pending w + 4 + n) w = Ret p w'.
Proof.
  intros Herr.
  pose proof (proj2 (proj2 (proj2 (framed_parser C (4 * pending w + 4 + n)))) w) as Hf.
  pose proof (Expression_total C w n) as Htot.
  destruct (Expression C (4 * pending w + 4 + n) w) as [p w'|s w'|]; [by eauto| |done].
  destruct Hf as (_ & Hf & _). congruence.
Qed.

Lemma Expression_returns_when_Error_returns_witness :
  let w := start [sym TK_MUL "*"; sym TK_RPAREN ")"] in
  error_returns lenient = true
  ∧ ∃ p w', Expression lenient (4 * pending w + 4 + 0) w = Ret p w'.
Proof.
  intros w. split; [reflexivity|].
  exact (Expression_returns_when_Error_returns lenient w 0 eq_refl).
Defined.

(** X9.  The parser ends on every input, whatever [Error] does: with four
    units of depth per pending token, and four more, the outcome is there,
    and no larger count changes it. *)
Theorem Expression_terminates C w :
  ∃ r, r ≠ OutOfFuel ∧ ∀ n, 4 * pending w + 4 ≤ n → Expression C n w = r.
Proof.
  exists (Expression C (4 * pending w + 4) w). split.
  - pose proof (Expression_total C w 0) as Htot. by rewrite Nat.add_0_r in Htot.
  - intros n Hn. replace n with (4 * pending w + 4 + (n - (4 * pending w + 4))) by lia.
    destruct (Expression_fuel C (4 * pending w + 4) (n - (4 * pending w + 4)) w)
      as [Hoof|Heq]; [|done].
    exfalso. pose proof (Expression_total C w 0) as Htot.
    by rewrite Nat.add_0_r in Htot.
Qed.

(** ** The value and the code of a tree *)

Lemma printed_nil w : printed [] w = w.
Proof. destruct w. unfold printed. cbn. by rewrite app_nil_r. Qed.

Lemma printed_app a b w : printed (a ++ b) w = printed b (printed a w).
Proof. unfold printed. cbn. by rewrite app_assoc. Qed.

Lemma EmitIR_printed s d a b w :
  EmitIR s d a b w = Ret tt (printed [instruction s d a b] w).
Proof. reflexivity. Qed.

(** [eval_tree] as a function of the tree alone. *)
Lemma eval_tree_value_of t :
  arith_tree t →
  ∀ w, match value_of t with
       | Some v => eval_tree t w = Ret v (printed (code t) w)
       | None =>
           ∃ lines, eval_tree t w = Stop Undefined (printed lines w)
                    ∧ lines `prefix_of` code t
                    ∧ length lines < length (code t)
       end.
Proof.
  induction t as [v|o v a IHa b IHb]; intros Harith w.
  - cbn. by rewrite printed_nil.
  - destruct Harith as (Ho & Ha & Hb). specialize (IHa Ha w).
    cbn [value_of eval_tree code].
    destruct (value_of a) as [l|].
    2:{ destruct IHa as (lines & Hrun & Hpre & Hlen). exists lines.
        unfold bind. rewrite Hrun. split_and!; [done| |rewrite length_app; lia].
        by apply prefix_app_r. }
    rewrite (bind_Ret _ _ _ _ _ IHa). specialize (IHb Hb (printed (code a) w)).
    destruct (value_of b) as [r|].
    2:{ destruct IHb as (lines & Hrun & Hpre & Hlen). exists (code a ++ lines).
        unfold bind at 1. rewrite Hrun, printed_app. split_and!; [done| |].
        - apply prefix_app, prefix_app_r, Hpre.
        - rewrite !length_app. lia. }
    rewrite (bind_Ret _ _ _ _ _ IHb).
    assert (Hemit : ∀ s (z : Z),
      bind (EmitIR s (name v) (root_name a) (root_name b)) (fun _ => ret (z : Z))
        (printed (code b) (printed (code a) w))
      = Ret z (printed (code a ++ code b
                 ++ [instruction s (name v) (root_name a) (root_name b)]) w)).
    { intros s z. unfold bind. rewrite EmitIR_printed. unfold ret.
      by rewrite !printed_app. }
    destruct o; try done; try apply Hemit.
    destruct (long_div l r) as [q|]; [apply Hemit|].
    exists (code a ++ code b). split_and!.
    + unfold halt. by rewrite printed_app.
    + apply prefix_app. rewrite <- (app_nil_r (code b)) at 1.
      apply prefix_app. apply prefix_nil.
    + rewrite !length_app. cbn. lia.
Qed.

(** X10.  Evaluation as a function of the tree: the value is the one the
    tree has in the arithmetic of [long], the lines printed are the
    instructions of the tree, operands first, and nothing else of the
    world changes; where a division has no result the run stops there,
    having printed an initial part of those lines. *)
Theorem EvalExpression_value_and_code C D t p w n :
  repr D (heap w) p t →
  match value_of t with
  | Some v => EvalExpression C (S (height t) + n) p w = Ret v (printed (code t) w)
  | None =>
      ∃ lines, EvalExpression C (S (height t) + n) p w = Stop Undefined (printed lines w)
               ∧ lines `prefix_of` code t
               ∧ length lines < length (code t)
  end.
Proof.
  intros Hrep. rewrite (EvalExpression_repr C t D n p w Hrep).
  apply eval_tree_value_of. by eapply repr_arith_tree.
Qed.

Lemma EvalExpression_value_and_code_witness :
  let w := mkWorld 1 eof_token [] heap_7_div_2 [] [] in
  let t := Bin TK_DIV (mkValue "t0" 0) (Leaf (mkValue "7" 7)) (Leaf (mkValue "2" 2)) in
  repr ∅ (heap w) (Addr 3) t
  ∧ EvalExpression host (S (height t) + 0) (Addr 3) w = Ret 3%Z (printed (code t) w).
Proof.
  intros w t.
  assert (Hrep : repr ∅ (heap w) (Addr 3) t).
  { exists 3%positive, (Addr 1), (Addr 2).
    split_and!; [done|set_solver|done|done|..].
    - exists 1%positive. split_and!; [done|set_solver|done].
    - exists 2%positive. split_and!; [done|set_solver|done]. }
  split; [exact Hrep|].
  exact (EvalExpression_value_and_code host ∅ t (Addr 3) w 0 Hrep).
Defined.

(** X11.  Evaluation keeps no state of its own: evaluating the same tree
    again returns the same value and prints the same instructions again. *)
Theorem EvalExpression_again C D t p w n v w1 m :
  repr D (heap w) p t →
  EvalExpression C (S (height t) + n) p w = Ret v w1 →
  EvalExpression C (S (height t) + m) p w1 = Ret v (printed (code t) w1).
Proof.
  intros Hrep Hrun. pose proof (repr_arith_tree _ _ _ _ Hrep) as Harith.
  rewrite (EvalExpression_repr C t D n p w Hrep) in Hrun.
  pose proof (eval_tree_value_of t Harith w) as H1.
  destruct (value_of t) as [v'|] eqn:Hv.
  2:{ destruct H1 as (lines & H1 & _). congruence. }
  rewrite Hrun in H1. injection H1 as -> ->.
  rewrite (EvalExpression_repr C t D m p (printed (code t) w) Hrep).
  pose proof (eval_tree_value_of t Harith (printed (code t) w)) as H2.
  by rewrite Hv in H2.
Qed.

Lemma EvalExpression_again_witness :
  let w := mkWorld 1 eof_token [] heap_3_add_4 [] [] in
  let t := Bin TK_ADD (mkValue "t0" 0) (Leaf (mkValue "3" 3)) (Leaf (mkValue "4" 4)) in
  let w1 := printed (code t) w in
  repr ∅ (heap w) (Addr 3) t
  ∧ EvalExpression host (S (height t) + 0) (Addr 3) w = Ret 7%Z w1
  ∧ EvalExpression host (S (height t) + 5) (Addr 3) w1 = Ret 7%Z (printed (code t) w1).
Proof.
  intros w t w1.
  assert (Hrep : repr ∅ (heap w) (Addr 3) t).
  { exists 3%positive, (Addr 1), (Addr 2).
    split_and!; [done|set_solver|done|done|..].
    - exists 1%positive. split_and!; [done|set_solver|done].
    - exists 2%positive. split_and!; [done|set_solver|done]. }
  assert (Hrun : EvalExpression host (S (height t) + 0) (Addr 3) w = Ret 7%Z w1)
    by (vm_compute; reflexivity).
  split_and!; [exact Hrep|exact Hrun|].
  exact (EvalExpression_again host ∅ t (Addr 3) w 0 7%Z w1 5 Hrep Hrun).
Defined.

Lemma wrap_long_id z : (LONG_MIN ≤ z ≤ LONG_MAX)%Z → wrap_long z = z.
Proof.
  unfold wrap_long, wrap, LONG_MIN, LONG_MAX. intros Hz.
  rewrite Z.mod_small; lia.
Qed.

Lemma value_of_exact t : fits t → value_of t = exact t.
Proof.
  induction t as [v|o v a IHa b IHb]; [done|].
  intros (Hz & Ha & Hb). cbn [value_of exact] in *.
  rewrite (IHa Ha), (IHb Hb).
  assert (Hla : match exact a with Some z => (LONG_MIN ≤ z ≤ LONG_MAX)%Z | None => True end)
    by (destruct a; apply Ha).
  destruct (exact a) as [l|]; [|done]. destruct (exact b) as [r|]; [|done].
  destruct o; try done.
  - unfold long_add. by rewrite wrap_long_id.
  - unfold long_sub. by rewrite wrap_long_id.
  - unfold long_mul. by rewrite wrap_long_id.
  - unfold long_div. destruct (decide (r = 0%Z)) as [->|Hr].
    + rewrite decide_True; [done|by left].
    + rewrite decide_False; [done|]. intros [?|[-> ->]]; [done|].
      clear -Hz. vm_compute in Hz. destruct Hz as [_ Hz]. by apply Hz.
Qed.

(** X12.  As long as every literal and every intermediate result is a
    [long], evaluation returns the value the expression has in the
    integers, with quotients truncated towards zero. *)
Theorem EvalExpression_exact C D t p w n z :
  repr D (heap w) p t → fits t → exact t = Some z →
  EvalExpression C (S (height t) + n) p w = Ret z (printed (code t) w).
Proof.
  intros Hrep Hfits Hz. rewrite (EvalExpression_repr C t D n p w Hrep).
  pose proof (eval_tree_value_of t (repr_arith_tree _ _ _ _ Hrep) w) as Hrun.
  by rewrite (value_of_exact t Hfits), Hz in Hrun.
Qed.

Lemma EvalExpression_exact_witness :
  let w := mkWorld 1 eof_token [] heap_7_div_2 [] [] in
  let t := Bin TK_DIV (mkValue "t0" 0) (Leaf (mkValue "7" 7)) (Leaf (mkValue "2" 2)) in
  repr ∅ (heap w) (Addr 3) t ∧ fits t ∧ exact t = Some 3%Z
  ∧ EvalExpression host (S (height t) + 0) (Addr 3) w = Ret 3%Z (printed (code t) w).
Proof.
  intros w t.
  assert (Hrep : repr ∅ (heap w) (Addr 3) t).
  { exists 3%positive, (Addr 1), (Addr 2).
    split_and!; [done|set_solver|done|done|..].
    - exists 1%positive. split_and!; [done|set_solver|done].
    - exists 2%positive. split_and!; [done|set_solver|done]. }
  assert (Hfits : fits t) by (vm_compute; intuition discriminate).
  assert (Hz : exact t = Some 3%Z) by reflexivity.
  split_and!; [exact Hrep|exact Hfits|exact Hz|].
  exact (EvalExpression_exact host ∅ t (Addr 3) w 0 3%Z Hrep Hfits Hz).
Defined.

(** ** The names of the temporaries *)

Lemma pretty_N_go_length k :
  ∀ x s, (x < 10 ^ N.of_nat k)%N →
    String.length (pretty_N_go x s) ≤ k + String.length s.
Proof.
  induction k as [|k IH]; intros x s Hx.
  - assert (x = 0%N) as -> by (cbn in Hx; lia). by rewrite pretty_N_go_0.
  - destruct (decide (x = 0%N)) as [->|Hne]; [rewrite pretty_N_go_0; lia|].
    rewrite pretty_N_go_step by lia.
    etrans; [apply IH|cbn; lia].
    apply N.Div0.div_lt_upper_bound.
    rewrite Nat2N.inj_succ, N.pow_succ_r' in Hx. lia.
Qed.

Lemma pretty_positive_length x :
  (Z.pos x ≤ 2 ^ 31)%Z → String.length (pretty x) ≤ 10.
Proof.
  intros Hx. unfold pretty, pretty_positive, pretty, pretty_N.
  destruct (decide _) as [|_]; [done|].
  etrans; [apply (pretty_N_go_length 10)|cbn; lia].
  change (10 ^ N.of_nat 10)%N with 10000000000%N. lia.
Qed.

(** ["%d"] of an [int] takes at most eleven characters. *)
Lemma pretty_int_length z :
  (INT_MIN ≤ z ≤ INT_MAX)%Z → String.length (pretty z) ≤ 11.
Proof.
  unfold INT_MIN, INT_MAX. intros Hz. destruct z as [|x|x].
  - cbn. lia.
  - change (pretty (Z.pos x)) with (pretty x).
    etrans; [apply pretty_positive_length|]; lia.
  - change (pretty (Z.neg x)) with ("-" +:+ pretty x). cbn [String.append String.length].
    apply le_n_S. apply pretty_positive_length. lia.
Qed.

(** With room for thirteen characters the name of a temporary is not cut
    short, and different numbers give different names. *)
Lemma temp_name_inj C a b :
  13 ≤ MAX_ID_LEN C → (INT_MIN ≤ a ≤ INT_MAX)%Z → (INT_MIN ≤ b ≤ INT_MAX)%Z →
  temp_name C a = temp_name C b → a = b.
Proof.
  intros Hlen Ha Hb.
  pose proof (pretty_int_length a Ha) as Hla.
  pose proof (pretty_int_length b Hb) as Hlb.
  rewrite (temp_name_fits C a), (temp_name_fits C b).
  - intros [= Heq]. by apply (inj pretty).
  - change (String.length ("t" +:+ pretty b)) with (S (String.length (pretty b))). lia.
  - change (String.length ("t" +:+ pretty a)) with (S (String.length (pretty a))). lia.
Qed.

Lemma NoDup_map_on {A B} (f : A → B) (l : list A) :
  (∀ x y, In x l → In y l → f x = f y → x = y) → NoDup l → NoDup (map f l).
Proof.
  induction l as [|x l IH]; intros Hinj Hnd; cbn; [constructor|].
  apply NoDup_cons in Hnd as [Hx Hnd]. constructor.
  - rewrite list_elem_of_In. intros (y & Hy & Hin)%in_map_iff.
    apply Hx. rewrite list_elem_of_In.
    rewrite <- (Hinj y x); [done|by right|by left|done].
  - apply IH; [|done]. intros y z Hy Hz. apply Hinj; by right.
Qed.

(** X13.  The destinations of the operators of a parsed tree carry
    pairwise different names, as long as the name buffer has room for
    thirteen characters and the counter does not run over [INT_MAX]. *)
Theorem parsed_temporaries_are_distinct C w p w' :
  13 ≤ MAX_ID_LEN C → (INT_MIN ≤ tmpNo w)%Z →
  parses C w p w' →
  ∃ t, repr (dom (heap w)) (heap w') p t
       ∧ ((tmpNo w + Z.of_nat (length (operators t)) ≤ INT_MAX + 1)%Z →
          NoDup (temporaries t)).
Proof.
  intros Hlen Hlo Hp. destruct (parses_parsed _ _ _ _ Hp) as (t & Hrep & _ & _ & Htmp & _).
  exists t. split; [done|]. intros Hhi. rewrite Htmp.
  destruct (allocated_no_overflow (length (operators t)) (tmpNo w) Hlo Hhi) as [-> _].
  apply NoDup_map_on.
  - intros a b (i & <- & Hi%in_seq)%in_map_iff (j & <- & Hj%in_seq)%in_map_iff.
    apply temp_name_inj; [done|unfold INT_MIN, INT_MAX in *; lia..].
  - apply NoDup_map_on; [|apply NoDup_ListNoDup, seq_NoDup].
    intros i j _ _. lia.
Qed.

Lemma parsed_temporaries_are_distinct_witness :
  let w := start (input_2_mul_3_add_4 "2" "3" "4") in
  13 ≤ MAX_ID_LEN host ∧ (INT_MIN ≤ tmpNo w)%Z
  ∧ ∃ p w',
      parses host w p w'
      ∧ ∃ t, repr (dom (heap w)) (heap w') p t
             ∧ ((tmpNo w + Z.of_nat (length (operators t)) ≤ INT_MAX + 1)%Z →
                NoDup (temporaries t)).
Proof.
  intros w.
  assert (H1 : 13 ≤ MAX_ID_LEN host) by (cbn; lia).
  assert (H2 : (INT_MIN ≤ tmpNo w)%Z) by (vm_compute; discriminate).
  split_and!; [exact H1|exact H2|].
  destruct (Expression host 12 w) as [p w'| |] eqn:Hrun;
    [|vm_compute in Hrun; discriminate..].
  assert (Hp : parses host w p w').
  { exists 12. split; [done|]. vm_compute in Hrun. inversion Hrun; subst.
    unfold quiet. cbn. lia. }
  exists p, w'. split; [exact Hp|].
  exact (parsed_temporaries_are_distinct host w p w' H1 H2 Hp).
Defined.

(** ** The parser and the grammar *)

Lemma reads_same l :
  ∀ w w', curToken w = curToken w' → source w = source w' → reads w l → reads w' l.
Proof.
  induction l as [|t l IH]; intros w w' Hc Hs; cbn; [done|].
  intros [<- Hr]. split; [done|].
  eapply IH; [..|exact Hr]; unfold advance; rewrite Hs; by destruct (GetToken _).
Qed.

Lemma reads_start ts : reads (start ts) (ts ++ [eof_token]).
Proof.
  assert (H : ∀ l w, curToken w :: source w = l → reads w (l ++ [eof_token])).
  { induction l as [|t l IH]; intros w Hw; [done|].
    injection Hw as Hc Hs. split; [done|].
    destruct l as [|t' l].
    - cbn. unfold advance. rewrite Hs. done.
    - apply IH. unfold advance. rewrite Hs. done. }
  destruct ts as [|t ts]; [done|]. by apply H.
Qed.

Lemma passes_same_l ts :
  ∀ w v w', curToken w = curToken v → source w = source v →
    passes v ts w' → passes w ts w'.
Proof.
  induction ts as [|t ts IH]; intros w v w' Hc Hs; cbn.
  - intros [-> ->]. done.
  - intros [<- Hp]. split; [done|].
    eapply IH; [..|exact Hp]; unfold advance; rewrite Hs; by destruct (GetToken _).
Qed.

Lemma passes_same_r ts :
  ∀ w w' v, curToken v = curToken w' → source v = source w' →
    passes w ts w' → passes w ts v.
Proof.
  induction ts as [|t ts IH]; intros w w' v Hc Hs; cbn.
  - intros [<- <-]. done.
  - intros [<- Hp]. split; [done|]. by eapply IH.
Qed.

Lemma passes_app ta :
  ∀ w w1 tb w2, passes w ta w1 → passes w1 tb w2 → passes w (ta ++ tb) w2.
Proof.
  induction ta as [|t ta IH]; intros w w1 tb w2; cbn.
  - intros [Hc Hs] Hp. by eapply passes_same_l.
  - intros [<- Hp1] Hp2. split; [done|]. by eapply IH.
Qed.

Lemma passes_advance w : passes w [curToken w] (advance w).
Proof. done. Qed.

Lemma passes_reads ts : ∀ w w', passes w ts w' → reads w ts.
Proof.
  induction ts as [|t ts IH]; intros w w'; cbn; [done|].
  intros [<- Hp]. split; [done|]. by eapply IH.
Qed.

Lemma Ret_mono {A} (f : nat → M A) :
  (∀ n w, fuel_le (f n w) (f (S n) w)) →
  ∀ n m w a w', f n w = Ret a w' → n ≤ m → f m w = Ret a w'.
Proof.
  intros Hf n m w a w' Hrun Hle. induction Hle as [|m Hle IH]; [done|].
  destruct (Hf m w) as [H|H]; congruence.
Qed.

Lemma is_mop_arithmetic k : is_mop k = true → isArithmeticOperator k = true.
Proof. by destruct k. Qed.

Lemma is_aop_arithmetic k : is_aop k = true → isArithmeticOperator k = true.
Proof. by destruct k. Qed.

Lemma is_aop_not_mop k : is_aop k = true → is_mop k = false.
Proof. by destruct k. Qed.

(** A phrase begins with a number or with an opening parenthesis, and has
    more than twice as many tokens as operators. *)
Lemma derives_first lv e ts :
  derives lv e ts →
  ∃ t ts', ts = t :: ts' ∧ (kind t = TK_NUM ∨ kind t = TK_LPAREN).
Proof.
  induction 1 as [t Ht | l r e ts Hl Hr Hd IH | e ts Hd IH
                 | t a ta b tb Ht Ha IHa Hb IHb | e ts Hd IH
                 | t a ta b tb Ht Ha IHa Hb IHb]; eauto.
  - destruct IHa as (t0 & ts' & -> & Hk). eauto.
  - destruct IHa as (t0 & ts' & -> & Hk). eauto.
Qed.

Lemma derives_length lv e ts : derives lv e ts → 2 * nops e + 1 ≤ length ts.
Proof.
  induction 1; cbn [nops length]; rewrite ?length_app; cbn [length]; lia.
Qed.

Lemma height_label C e : ∀ k, height (label C k e) ≤ nops e.
Proof.
  induction e as [v|o a IHa b IHb]; intros k; cbn; [done|].
  specialize (IHa k).
  specialize (IHb (wrap_int (counter_after (nops a) k + 1))). lia.
Qed.

Lemma pending_start ts : pending (start ts) ≤ length ts.
Proof.
  destruct ts as [|t ts]; unfold pending; cbn; [done|].
  destruct (decide _); lia.
Qed.

Section Grammar.

Context (C : Collaborators).

Lemma returns_layer (f operand : nat → M AstExprNodePtr) isop :
  (∀ n w, f (S n) w =
     match operand n w with
     | Ret lhs w' => binary_while C isop operand n lhs w'
     | Stop s w' => Stop s w'
     | OutOfFuel => OutOfFuel
     end) →
  (∀ n w, fuel_le (operand n w) (operand (S n) w)) →
  ∀ w l w1 q w2,
    returns operand w l w1 →
    returns (fun n => binary_while C isop operand n l) w1 q w2 →
    returns f w q w2.
Proof.
  intros Hcases Hmono w l w1 q w2 [n1 H1] [n2 H2]. exists (S (n1 `max` n2)).
  rewrite Hcases, (Ret_mono operand Hmono n1 _ w l w1 H1) by lia.
  apply (Ret_mono (fun n => binary_while C isop operand n l)) with n2; [|done|lia].
  intros n v. apply fuel_le_binary_while. intros k u _. apply Hmono.
Qed.

Lemma returns_loop_exit isop operand l w :
  isop (kind (curToken w)) = false →
  returns (fun n => binary_while C isop operand n l) w l w.
Proof. intros Hk. exists 1. by rewrite binary_while_S, Hk. Qed.

Lemma returns_loop_step isop operand l w r w1 nd q w2 :
  (∀ n w, fuel_le (operand n w) (operand (S n) w)) →
  isop (kind (curToken w)) = true →
  returns operand (enter_operator C l w) r w1 →
  heap w1 !! fresh (dom (heap w)) = Some nd →
  returns (fun n => binary_while C isop operand n (Addr (fresh (dom (heap w)))))
    (set_heap (<[fresh (dom (heap w)) := set_kids1 r nd]> (heap w1)) w1) q w2 →
  returns (fun n => binary_while C isop operand n l) w q w2.
Proof.
  intros Hmono Hk [n1 H1] Hnd [n2 H2]. exists (S (n1 `max` n2)).
  rewrite binary_while_S, Hk, operator_node_cases.
  rewrite (Ret_mono operand Hmono n1 _ _ r w1 H1), Hnd by lia.
  apply (Ret_mono (fun n => binary_while C isop operand n _)) with n2; [|done|lia].
  intros n v. apply fuel_le_binary_while. intros k u _. apply Hmono.
Qed.

(** The node of an operator, once both operands are built. *)
Lemma repr_node w pa w1 ta pb u1 tb :
  isArithmeticOperator (kind (curToken w1)) = true →
  repr (dom (heap w)) (heap w1) pa ta → heap w ⊆ heap w1 →
  repr (dom (heap (enter_operator C pa w1))) (heap u1) pb tb →
  heap (enter_operator C pa w1) ⊆ heap u1 →
  ∃ nd, heap u1 !! fresh (dom (heap w1)) = Some nd
        ∧ repr (dom (heap w))
            (<[fresh (dom (heap w1)) := set_kids1 pb nd]> (heap u1))
            (Addr (fresh (dom (heap w1))))
            (Bin (kind (curToken w1)) (mkValue (temp_name C (tmpNo w1)) 0) ta tb)
        ∧ heap w ⊆ <[fresh (dom (heap w1)) := set_kids1 pb nd]> (heap u1).
Proof.
  intros Hk Hrepa Hsuba Hrepb Hsubb.
  set (l := fresh (dom (heap w1))) in *.
  set (u := enter_operator C pa w1) in *.
  set (nd := mkNode (kind (curToken w1)) (mkValue (temp_name C (tmpNo w1)) 0) pa NULL).
  assert (Hl : heap w1 !! l = None) by apply fresh_heap.
  assert (Hhu : heap u = <[l := nd]> (heap w1)).
  { unfold u, enter_operator. by rewrite heap_advance. }
  assert (Hnd : heap u1 !! l = Some nd).
  { eapply lookup_weaken; [|exact Hsubb]. rewrite Hhu. apply lookup_insert_eq. }
  assert (Hw1 : heap w1 ⊆ <[l := set_kids1 pb nd]> (heap u1)).
  { apply insert_subseteq_r; [done|]. etrans; [|exact Hsubb].
    rewrite Hhu. by apply insert_subseteq. }
  exists nd. split_and!; [done| |by etrans].
  exists l, pa, pb. split_and!; [done| |done|by rewrite lookup_insert_eq|..].
  - intros Hin. apply (subseteq_dom _ _ Hsuba) in Hin.
    by apply not_elem_of_dom in Hl.
  - eapply repr_weaken; [reflexivity|exact Hw1|exact Hrepa].
  - eapply repr_weaken; [|reflexivity|apply repr_insert; [|exact Hrepb]].
    + rewrite Hhu, dom_insert_L. apply subseteq_dom in Hsuba. set_solver.
    + rewrite Hhu, dom_insert_L. set_solver.
Qed.

Lemma grown_node w pa w1 a pb u1 b :
  isArithmeticOperator (kind (curToken w1)) = true →
  grown C w pa w1 a → grown C (enter_operator C pa w1) pb u1 b →
  ∃ nd, heap u1 !! fresh (dom (heap w1)) = Some nd
        ∧ grown C w (Addr (fresh (dom (heap w1))))
            (set_heap (<[fresh (dom (heap w1)) := set_kids1 pb nd]> (heap u1)) u1)
            (Op (kind (curToken w1)) a b).
Proof.
  intros Hk (Hrepa & Hsuba & Htmpa) (Hrepb & Hsubb & Htmpb).
  assert (Htu : tmpNo (enter_operator C pa w1) = wrap_int (tmpNo w1 + 1))
    by (unfold enter_operator; by rewrite tmpNo_advance).
  rewrite Htu in Hrepb, Htmpb.
  destruct (repr_node w pa w1 _ pb u1 _ Hk Hrepa Hsuba Hrepb Hsubb)
    as (nd & Hnd & Hrep & Hsub).
  exists nd. split; [done|]. unfold grown. cbn [heap set_heap tmpNo label nops].
  rewrite <- Htmpa. split_and!; [done|done|].
  rewrite Htmpb, counter_after_app, <- Htmpa. done.
Qed.

Lemma grown_literal w :
  grown C w (Addr (fresh (dom (heap w)))) (enter_literal w) (Num (tokval (curToken w))).
Proof.
  unfold grown, enter_literal. rewrite heap_advance, tmpNo_advance.
  cbn [heap set_heap label nops counter_after]. split_and!; [|by apply insert_subseteq, fresh_heap|done].
  exists (fresh (dom (heap w))). split_and!; [done|apply is_fresh|].
  apply lookup_insert_eq.
Qed.

Lemma grown_advance w p w1 e : grown C (advance w) p w1 e → grown C w p (advance w1) e.
Proof. unfold grown. by rewrite !heap_advance, !tmpNo_advance. Qed.

Lemma built_node w pa w1 a pb u1 b :
  isArithmeticOperator (kind (curToken w1)) = true →
  built C w pa w1 a → built C (enter_operator C pa w1) pb u1 b →
  ∃ nd, heap u1 !! fresh (dom (heap w1)) = Some nd
        ∧ built C w (Addr (fresh (dom (heap w1))))
            (set_heap (<[fresh (dom (heap w1)) := set_kids1 pb nd]> (heap u1)) u1)
            (Op (kind (curToken w1)) a b).
Proof.
  intros Hk (Hga & Herra) (Hgb & Herrb).
  destruct (grown_node w pa w1 a pb u1 b Hk Hga Hgb) as (nd & Hnd & Hg).
  exists nd. split; [done|]. split; [done|]. cbn [err set_heap].
  rewrite Herrb. unfold enter_operator. by rewrite err_advance.
Qed.

Lemma reads_enter_operator l w rest :
  reads (advance w) rest → reads (enter_operator C l w) rest.
Proof.
  apply reads_same; unfold enter_operator, advance; cbn; by destruct (GetToken _).
Qed.

Lemma PrimaryExpression_mono n w :
  fuel_le (PrimaryExpression C n w) (PrimaryExpression C (S n) w).
Proof. apply (fuel_le_parser C n). Qed.

Lemma MultiplicativeExpression_mono n w :
  fuel_le (MultiplicativeExpression C n w) (MultiplicativeExpression C (S n) w).
Proof. apply (fuel_le_parser C n). Qed.

(** Each function of the parser accepts the phrases of its level. *)
Lemma accepts_derivation lv e ts : derives lv e ts → accepts C lv e ts.
Proof.
  induction 1 as [t Ht | l r e ts Hl Hr Hd IH | e ts Hd IH
                 | t a ta b tb Ht Ha IHa Hb IHb | e ts Hd IH
                 | t a ta b tb Ht Ha IHa Hb IHb];
    intros w rest Hreads.
  - destruct Hreads as [<- Hrest].
    exists (Addr (fresh (dom (heap w)))), (enter_literal w). split_and!.
    + exists 1. by apply PrimaryExpression_num.
    + eapply reads_same; [..|exact Hrest];
        unfold enter_literal, advance; cbn; by destruct (GetToken _).
    + split; [apply grown_literal|]. unfold enter_literal. by rewrite err_advance.
  - cbn in Hreads. destruct Hreads as [Hc Hreads].
    rewrite <- app_assoc in Hreads. cbn in Hreads.
    destruct (IH (advance w) (r :: rest) Hreads) as (p & w1 & [Hc1 Hr1] & Hb & Hcont).
    { cbn. by rewrite Hr. }
    destruct (Hcont p w1) as [n Hn].
    { apply returns_loop_exit. by rewrite Hc1, Hr. }
    exists p, (advance w1). split_and!.
    + exists (S (S n)). rewrite PrimaryExpression_paren by (by rewrite Hc).
      rewrite Expression_S, Hn, Expect_cases.
      by rewrite decide_True by (by rewrite Hc1).
    + done.
    + destruct Hb as (Hg & Herr). split; [by apply grown_advance|].
      by rewrite !err_advance in *.
  - destruct (IH w rest Hreads) as (p & w1 & Hret & Hr1 & Hb).
    exists p, w1. split_and!; [done|done|]. intros q w2 Hloop.
    eapply returns_layer;
      [apply MultiplicativeExpression_cases|apply PrimaryExpression_mono
      |exact Hret|exact Hloop].
  - rewrite <- app_assoc in Hreads. cbn in Hreads.
    destruct (IHa w (t :: tb ++ rest) Hreads) as (pa & w1 & [Hc1 Hr1] & Hba & Hcont).
    destruct (IHb (enter_operator C pa w1) rest (reads_enter_operator _ _ _ Hr1))
      as (pb & u1 & Hretb & Hr2 & Hbb).
    destruct (built_node w pa w1 a pb u1 b) as (nd & Hnd & Hbuilt);
      [rewrite Hc1; by apply is_mop_arithmetic|done|done|].
    exists (Addr (fresh (dom (heap w1)))),
      (set_heap (<[fresh (dom (heap w1)) := set_kids1 pb nd]> (heap u1)) u1).
    split_and!.
    + eapply reads_same; [..|exact Hr2]; done.
    + rewrite <- Hc1. exact Hbuilt.
    + intros q w2 Hloop. apply Hcont.
      eapply returns_loop_step;
        [apply PrimaryExpression_mono|by rewrite Hc1|exact Hretb|exact Hnd|exact Hloop].
  - intros Hnm. destruct rest as [|r rest]; [done|].
    destruct (IH w (r :: rest) Hreads) as (p & w1 & [Hc1 Hr1] & Hb & Hcont).
    exists p, w1. split_and!; [done|done|]. intros q w2 Hloop.
    eapply returns_layer;
      [apply AdditiveExpression_cases|apply MultiplicativeExpression_mono
      | |exact Hloop].
    apply Hcont, returns_loop_exit. by rewrite Hc1.
  - intros Hnm. destruct rest as [|r rest]; [done|].
    rewrite <- app_assoc in Hreads. cbn in Hreads.
    destruct (IHa w (t :: tb ++ r :: rest) Hreads) as (pa & w1 & [Hc1 Hr1] & Hba & Hcont).
    { cbn. by apply is_aop_not_mop. }
    destruct (IHb (enter_operator C pa w1) (r :: rest) (reads_enter_operator _ _ _ Hr1))
      as (pb & u1 & [Hc2 Hr2] & Hbb & Hcontb).
    destruct (built_node w pa w1 a pb u1 b) as (nd & Hnd & Hbuilt);
      [rewrite Hc1; by apply is_aop_arithmetic|done|done|].
    exists (Addr (fresh (dom (heap w1)))),
      (set_heap (<[fresh (dom (heap w1)) := set_kids1 pb nd]> (heap u1)) u1).
    split_and!.
    + eapply (reads_same (r :: rest)); [..|exact (conj Hc2 Hr2)]; done.
    + rewrite <- Hc1. exact Hbuilt.
    + intros q w2 Hloop. apply Hcont.
      eapply returns_loop_step;
        [apply MultiplicativeExpression_mono|by rewrite Hc1| |exact Hnd|exact Hloop].
      apply Hcontb, returns_loop_exit. by rewrite Hc2.
Qed.

(** [Expression] on a phrase, with the depth count of [Expression_total]. *)
Lemma Expression_on_phrase e ts r rest w n :
  derives Additive e ts →
  isArithmeticOperator (kind r) = false →
  reads w (ts ++ r :: rest) →
  ∃ p w', Expression C (4 * pending w + 4 + n) w = Ret p w'
          ∧ built C w p w' e ∧ reads w' (r :: rest).
Proof.
  intros Hd Hr Hreads.
  destruct (accepts_derivation _ _ _ Hd w (r :: rest) Hreads)
    as (p & w' & [Hc Hrest] & Hb & Hcont).
  { cbn. revert Hr. by destruct (kind r). }
  destruct (Hcont p w') as [k Hk].
  { apply returns_loop_exit. rewrite Hc. revert Hr. by destruct (kind r). }
  exists p, w'. split_and!; try done.
  assert (Hrun : Expression C (S k) w = Ret p w') by (by rewrite Expression_S).
  pose proof (Expression_total C w n) as Htot.
  destruct (Expression_fuel C (S k) (4 * pending w + 4 + n) w) as [Hoof|Heq];
    [congruence|].
  destruct (Expression_fuel C (4 * pending w + 4 + n) (S k) w) as [Hoof|Heq'];
    [done|].
  rewrite Heq', (Nat.add_comm _ (S k)), <- Heq. done.
Qed.

(** *** Every parse is a derivation *)

Lemma derived_binary_while isop operand lvl lvo n :
  (∀ k, isop k = true → isArithmeticOperator k = true) →
  (∀ t a ta b tb, isop (kind t) = true → derives lvl a ta → derives lvo b tb →
     derives lvl (Op (kind t) a b) (ta ++ t :: tb)) →
  (∀ k v, k < n → framed C v (operand k v)) →
  (∀ k, k < n → derived C lvo (operand k)) →
  ∀ w0 lhs w p w',
    shaped C w0 lvl lhs w →
    binary_while C isop operand n lhs w = Ret p w' → quiet w w' →
    shaped C w0 lvl p w'.
Proof.
  intros Hisop Hstep. induction n as [|n IH];
    intros Hfr Hop w0 lhs w p w' Hsh Hrun Hq; [discriminate|].
  rewrite binary_while_S in Hrun.
  destruct (isop (kind (curToken w))) eqn:Hk.
  2:{ by inversion Hrun; subst. }
  rewrite operator_node_cases in Hrun.
  pose proof (Hfr n (enter_operator C lhs w) (Nat.lt_succ_diag_r n)) as Hf1.
  destruct (operand n (enter_operator C lhs w)) as [rhs w3| |] eqn:Hrhs; [|done|done].
  destruct (heap w3 !! fresh (dom (heap w))) as [nd|] eqn:Hnd; [|done].
  set (w1 := set_heap (<[fresh (dom (heap w)) := set_kids1 rhs nd]> (heap w3)) w3) in *.
  pose proof (framed_binary_while C isop operand n
                (fun k v Hlt => Hfr k v (Nat.lt_lt_succ_r _ _ Hlt))
                (Addr (fresh (dom (heap w)))) w1) as Hf2.
  rewrite Hrun in Hf2.
  destruct Hf1 as (Hs1 & _ & _ & He1 & _). destruct Hf2 as (_ & _ & _ & He2 & _).
  assert (Heu : err (enter_operator C lhs w) = err w)
    by (unfold enter_operator; by rewrite err_advance).
  unfold quiet in *. rewrite Heu in He1. change (err w1) with (err w3) in He2.
  destruct (Hop n (Nat.lt_succ_diag_r n) _ _ _ Hrhs) as (tsb & b & Hdb & Hpb & Hgb).
  { unfold quiet. rewrite Heu. lia. }
  destruct Hsh as (tsa & a & Hda & Hpa & Hga).
  destruct (grown_node w0 lhs w a rhs w3 b (Hisop _ Hk) Hga Hgb) as (nd' & Hnd' & Hg).
  rewrite Hnd in Hnd'. injection Hnd' as <-.
  eapply (IH (fun k v Hlt => Hfr k v (Nat.lt_lt_succ_r _ _ Hlt))
             (fun k Hlt => Hop k (Nat.lt_lt_succ_r _ _ Hlt)) w0 _ w1);
    [|exact Hrun|change (err w1) with (err w3); lia].
  exists (tsa ++ curToken w :: tsb), (Op (kind (curToken w)) a b).
  split_and!; [by apply Hstep| |exact Hg].
  eapply passes_app; [exact Hpa|]. split; [done|].
  eapply passes_same_l; [..|eapply passes_same_r; [..|exact Hpb]]; try done;
    unfold enter_operator, advance; cbn; by destruct (GetToken _).
Qed.

(** Whenever one of the four functions returns without a report, the
    tokens it has passed over are a phrase of its level and the tree it
    returns is the tree of that phrase. *)
Lemma derived_parser n :
  derived C Primary (PrimaryExpression C n)
  ∧ derived C Multiplicative (MultiplicativeExpression C n)
  ∧ derived C Additive (AdditiveExpression C n)
  ∧ derived C Additive (Expression C n).
Proof.
  induction n as [n IH] using lt_wf_ind.
  destruct n as [|n]; [repeat split; intros w p w' Hrun; discriminate|].
  assert (HP : ∀ k, k < S n → derived C Primary (PrimaryExpression C k))
    by (intros k Hk; apply (IH k Hk)).
  assert (HM : ∀ k, k < S n → derived C Multiplicative (MultiplicativeExpression C k))
    by (intros k Hk; apply (IH k Hk)).
  assert (HA : ∀ k, k < S n → derived C Additive (AdditiveExpression C k))
    by (intros k Hk; apply (IH k Hk)).
  assert (HE : ∀ k, k < S n → derived C Additive (Expression C k))
    by (intros k Hk; apply (IH k Hk)).
  clear IH. repeat split; intros w p w' Hrun Hq; unfold quiet in *.
  - destruct (decide (kind (curToken w) = TK_NUM)) as [Hn|Hn].
    { rewrite PrimaryExpression_num in Hrun by done. inversion Hrun; subst.
      exists [curToken w], (Num (tokval (curToken w))).
      split_and!; [by apply derives_num| |apply grown_literal].
      eapply passes_same_r; [..|apply passes_advance];
        unfold enter_literal, advance; cbn; by destruct (GetToken _). }
    destruct (decide (kind (curToken w) = TK_LPAREN)) as [Hp|Hp].
    2:{ rewrite PrimaryExpression_other in Hrun by done.
        destruct (error_returns C); [|done]. inversion Hrun; subst.
        cbn in Hq. rewrite length_app in Hq. cbn in Hq. lia. }
    rewrite PrimaryExpression_paren in Hrun by done.
    pose proof (proj2 (proj2 (proj2 (framed_parser C n))) (advance w)) as Hf.
    destruct (Expression C n (advance w)) as [expr w1| |] eqn:Hinner; [|done|done].
    destruct Hf as (_ & _ & _ & He & _). rewrite err_advance in He.
    rewrite Expect_cases in Hrun. destruct (decide _) as [Hr|Hr].
    2:{ unfold Error in Hrun. destruct (error_returns C); [|done].
        inversion Hrun; subst. cbn in Hq. rewrite length_app in Hq. cbn in Hq. lia. }
    inversion Hrun; subst. rewrite err_advance in Hq.
    destruct (HE n (Nat.lt_succ_diag_r n) (advance w) p w1 Hinner)
      as (ts & e & Hd & Hpass & Hg).
    { unfold quiet. rewrite err_advance. lia. }
    exists (curToken w :: ts ++ [curToken w1]), e.
    split_and!; [by apply derives_paren|split; [done|]|by apply grown_advance].
    eapply passes_app; [exact Hpass|apply passes_advance].
  - rewrite MultiplicativeExpression_cases in Hrun.
    pose proof (proj1 (framed_parser C n) w) as Hf.
    destruct (PrimaryExpression C n w) as [lhs w1| |] eqn:Hfirst; [|done|done].
    pose proof (framed_binary_while C is_mop (PrimaryExpression C) n
                  (fun k v _ => proj1 (framed_parser C k) v) lhs w1) as Hf2.
    rewrite Hrun in Hf2.
    destruct Hf as (Hs1 & _ & _ & He1 & _). destruct Hf2 as (_ & _ & _ & He2 & _).
    destruct (HP n (Nat.lt_succ_diag_r n) w lhs w1 Hfirst)
      as (ts & e & Hd & Hpass & Hg); [unfold quiet; lia|].
    eapply (derived_binary_while is_mop (PrimaryExpression C) Multiplicative Primary n)
      with (w := w1) (lhs := lhs); [..|exact Hrun|unfold quiet; lia].
    + apply is_mop_arithmetic.
    + intros. by apply derives_mop.
    + intros k v _. apply framed_parser.
    + intros k Hk. apply HP. lia.
    + exists ts, e. split_and!; [by apply derives_primary|done..].
  - rewrite AdditiveExpression_cases in Hrun.
    pose proof (proj1 (proj2 (framed_parser C n)) w) as Hf.
    destruct (MultiplicativeExpression C n w) as [lhs w1| |] eqn:Hfirst; [|done|done].
    pose proof (framed_binary_while C is_aop (MultiplicativeExpression C) n
                  (fun k v _ => proj1 (proj2 (framed_parser C k)) v) lhs w1) as Hf2.
    rewrite Hrun in Hf2.
    destruct Hf as (Hs1 & _ & _ & He1 & _). destruct Hf2 as (_ & _ & _ & He2 & _).
    destruct (HM n (Nat.lt_succ_diag_r n) w lhs w1 Hfirst)
      as (ts & e & Hd & Hpass & Hg); [unfold quiet; lia|].
    eapply (derived_binary_while is_aop (MultiplicativeExpression C) Additive Multiplicative n)
      with (w := w1) (lhs := lhs); [..|exact Hrun|unfold quiet; lia].
    + apply is_aop_arithmetic.
    + intros. by apply derives_aop.
    + intros k v _. apply framed_parser.
    + intros k Hk. apply HM. lia.
    + exists ts, e. split_and!; [by apply derives_multiplicative|done..].
  - rewrite Expression_S in Hrun. by apply (HA n (Nat.lt_succ_diag_r n)).
Qed.

End Grammar.

(** X14.  The parser accepts the grammar, and reads it as the grammar
    says: when the tokens ahead are a phrase for an expression, followed
    by a token that is not an arithmetic operator, [Expression] returns
    the tree of exactly that expression, built out of fresh cells, with
    its operators numbered from the counter on; it reports nothing and
    stops with the cursor on the token after the phrase. So [*] and [/]
    bind tighter than [+] and [-], operators of one level group from the
    left, and parentheses override both. *)
Theorem Expression_parses_the_grammar C e ts r rest w n :
  derives Additive e ts →
  isArithmeticOperator (kind r) = false →
  reads w (ts ++ r :: rest) →
  ∃ p w',
    Expression C (4 * pending w + 4 + n) w = Ret p w'
    ∧ repr (dom (heap w)) (heap w') p (label C (tmpNo w) e)
    ∧ tmpNo w' = counter_after (nops e) (tmpNo w)
    ∧ err w' = err w ∧ reads w' (r :: rest).
Proof.
  intros Hd Hr Hreads.
  destruct (Expression_on_phrase C e ts r rest w n Hd Hr Hreads)
    as (p & w' & Hrun & ((Hrep & _ & Htmp) & Herr) & Hrest).
  by exists p, w'.
Qed.

Lemma Expression_parses_the_grammar_witness :
  let ts := input_paren_1_add_2_mul_3 "1" "2" "3" in
  let e := Op TK_MUL (Op TK_ADD (Num (mkValue "1" 1)) (Num (mkValue "2" 2)))
                     (Num (mkValue "3" 3)) in
  derives Additive e ts
  ∧ isArithmeticOperator (kind eof_token) = false
  ∧ reads (start ts) (ts ++ eof_token :: [])
  ∧ ∃ p w',
      Expression host (4 * pending (start ts) + 4 + 0) (start ts) = Ret p w'
      ∧ repr (dom (heap (start ts))) (heap w') p (label host (tmpNo (start ts)) e)
      ∧ tmpNo w' = counter_after (nops e) (tmpNo (start ts))
      ∧ err w' = err (start ts) ∧ reads w' (eof_token :: []).
Proof.
  intros ts e.
  assert (Hd : derives Additive e ts).
  { apply derives_multiplicative.
    apply (derives_mop (sym TK_MUL "*")
             (Op TK_ADD (Num (mkValue "1" 1)) (Num (mkValue "2" 2)))
             [sym TK_LPAREN "("; num "1" 1; sym TK_ADD "+"; num "2" 2; sym TK_RPAREN ")"]
             (Num (mkValue "3" 3)) [num "3" 3]); [reflexivity| |].
    - apply derives_primary.
      apply (derives_paren (sym TK_LPAREN "(") (sym TK_RPAREN ")") _
               [num "1" 1; sym TK_ADD "+"; num "2" 2]); [reflexivity..|].
      apply (derives_aop (sym TK_ADD "+") (Num (mkValue "1" 1)) [num "1" 1]
               (Num (mkValue "2" 2)) [num "2" 2]); [reflexivity| |].
      + apply derives_multiplicative, derives_primary.
        by apply (derives_num (num "1" 1)).
      + apply derives_primary. by apply (derives_num (num "2" 2)).
    - by apply (derives_num (num "3" 3)). }
  assert (Hr : isArithmeticOperator (kind eof_token) = false) by reflexivity.
  assert (Hreads : reads (start ts) (ts ++ eof_token :: [])) by apply reads_start.
  split_and!; [exact Hd|exact Hr|exact Hreads|].
  exact (Expression_parses_the_grammar host e ts eof_token [] (start ts) 0 Hd Hr Hreads).
Defined.

(** X15.  The parser accepts nothing but the grammar: when [Expression]
    returns without a report, the tokens the cursor has passed over are a
    phrase of the grammar, and the tree returned is the tree of the
    expression that phrase stands for. *)
Theorem quiet_parse_is_a_derivation C w p w' :
  parses C w p w' →
  ∃ ts e, derives Additive e ts ∧ passes w ts w'
          ∧ repr (dom (heap w)) (heap w') p (label C (tmpNo w) e).
Proof.
  intros (n & Hrun & Hq).
  destruct (proj2 (proj2 (proj2 (derived_parser C n))) w p w' Hrun Hq)
    as (ts & e & Hd & Hpass & Hrep & _).
  by exists ts, e.
Qed.

Lemma quiet_parse_is_a_derivation_witness :
  ∃ p w',
    parses lenient (start (input_paren_1_add_2_mul_3 "1" "2" "3")) p w'
    ∧ ∃ ts e, derives Additive e ts
              ∧ passes (start (input_paren_1_add_2_mul_3 "1" "2" "3")) ts w'
              ∧ repr (dom (heap (start (input_paren_1_add_2_mul_3 "1" "2" "3"))))
                  (heap w') p
                  (label lenient (tmpNo (start (input_paren_1_add_2_mul_3 "1" "2" "3"))) e).
Proof.
  destruct (Expression lenient 12 (start (input_paren_1_add_2_mul_3 "1" "2" "3")))
    as [p w'| |] eqn:Hrun; [|vm_compute in Hrun; discriminate..].
  assert (Hp : parses lenient (start (input_paren_1_add_2_mul_3 "1" "2" "3")) p w').
  { exists 12. split; [done|]. vm_compute in Hrun. inversion Hrun; subst.
    unfold quiet. cbn. lia. }
  exists p, w'. split; [done|].
  exact (quiet_parse_is_a_derivation lenient _ p w' Hp).
Defined.

(** X16.  When [Error] ends the process, the parser rejects what the
    grammar does not derive: if no phrase begins the tokens ahead,
    [Expression] stops with one message and has printed nothing. *)
Theorem Expression_rejects_what_is_no_phrase C w n :
  error_returns C = false →
  (∀ e ts, derives Additive e ts → ¬ reads w ts) →
  ∃ w' msg, Expression C (4 * pending w + 4 + n) w = Stop Exited w'
            ∧ err w' = err w ++ [msg] ∧ out w' = out w.
Proof.
  intros Herr Hno.
  pose proof (proj2 (proj2 (proj2 (framed_parser C (4 * pending w + 4 + n)))) w) as Hf.
  pose proof (Expression_total C w n) as Htot.
  destruct (Expression C (4 * pending w + 4 + n) w) as [p w'|s w'|] eqn:Hrun; [| |done].
  - exfalso. destruct Hf as (_ & _ & _ & _ & He).
    destruct (proj2 (proj2 (proj2 (derived_parser C _))) w p w' Hrun)
      as (ts & e & Hd & Hpass & _).
    { unfold quiet. by rewrite He. }
    eapply Hno; [exact Hd|]. by eapply passes_reads.
  - destruct Hf as (-> & _ & Ho & msg & Hmsg). by exists w', msg.
Qed.

Lemma Expression_rejects_what_is_no_phrase_witness :
  let w := start [sym TK_MUL "*"; num "3" 3] in
  error_returns host = false
  ∧ (∀ e ts, derives Additive e ts → ¬ reads w ts)
  ∧ ∃ w' msg, Expression host (4 * pending w + 4 + 0) w = Stop Exited w'
              ∧ err w' = err w ++ [msg] ∧ out w' = out w.
Proof.
  intros w.
  assert (Hno : ∀ e ts, derives Additive e ts → ¬ reads w ts).
  { intros e ts Hd Hr. destruct (derives_first _ _ _ Hd) as (t & ts' & -> & Hk).
    destruct Hr as [<- _]. by destruct Hk. }
  split_and!; [reflexivity|exact Hno|].
  exact (Expression_rejects_what_is_no_phrase host w 0 eq_refl Hno).
Defined.

(** ** The whole run *)

(** X17.  What the program does with a phrase of the grammar: [Expression]
    followed by [EvalExpression] returns the value of the expression in
    the arithmetic of [long] and prints the instructions of its tree, with
    the temporaries numbered from [t0] on; where a division has no result
    the run stops there, having printed an initial part of them. *)
Theorem run_compiles_every_phrase C e ts n :
  derives Additive e ts →
  match value_of (label C 0 e) with
  | Some v =>
      summary (run C (4 * length ts + 4 + n) ts) = Some (v, code (label C 0 e), [])
  | None =>
      ∃ w', run C (4 * length ts + 4 + n) ts = Stop Undefined w'
            ∧ out w' `prefix_of` code (label C 0 e) ∧ err w' = []
  end.
Proof.
  intros Hd.
  pose proof (pending_start ts) as Hpend.
  pose proof (derives_length _ _ _ Hd) as Hlen.
  pose proof (height_label C e 0) as Hh.
  destruct (Expression_on_phrase C e ts eof_token [] (start ts)
              (4 * length ts + 4 + n - (4 * pending (start ts) + 4)) Hd eq_refl
              (reads_start ts))
    as (p & w' & Hrun & ((Hrep & _ & _) & Herr) & _).
  replace (4 * pending (start ts) + 4
           + (4 * length ts + 4 + n - (4 * pending (start ts) + 4)))
    with (4 * length ts + 4 + n) in Hrun by lia.
  pose proof (proj2 (proj2 (proj2 (framed_parser C (4 * length ts + 4 + n)))) (start ts))
    as Hf.
  rewrite Hrun in Hf. destruct Hf as (_ & Hout & _).
  change (tmpNo (start ts)) with 0%Z in Hrep.
  unfold run. rewrite (bind_Ret _ _ _ _ _ Hrun).
  replace (4 * length ts + 4 + n)
    with (S (height (label C 0 e))
          + (4 * length ts + 4 + n - S (height (label C 0 e)))) by lia.
  rewrite (EvalExpression_repr C _ _ _ p w' Hrep).
  pose proof (eval_tree_value_of _ (repr_arith_tree _ _ _ _ Hrep) w') as Hev.
  destruct (value_of (label C 0 e)) as [v|].
  - rewrite Hev. cbn. rewrite Hout, Herr. done.
  - destruct Hev as (lines & -> & Hpre & _). eexists. split; [done|].
    cbn. rewrite Hout, Herr. done.
Qed.

Lemma run_compiles_every_phrase_witness :
  let ts := input_2_mul_3_add_4 "2" "3" "4" in
  let e := Op TK_ADD (Op TK_MUL (Num (mkValue "2" 2)) (Num (mkValue "3" 3)))
                     (Num (mkValue "4" 4)) in
  derives Additive e ts
  ∧ summary (run host (4 * length ts + 4 + 0) ts)
    = Some (10%Z, code (label host 0 e), []).
Proof.
  intros ts e.
  assert (Hd : derives Additive e ts).
  { apply (derives_aop (sym TK_ADD "+")
             (Op TK_MUL (Num (mkValue "2" 2)) (Num (mkValue "3" 3)))
             [num "2" 2; sym TK_MUL "*"; num "3" 3]
             (Num (mkValue "4" 4)) [num "4" 4]); [reflexivity| |].
    - apply derives_multiplicative.
      apply (derives_mop (sym TK_MUL "*") (Num (mkValue "2" 2)) [num "2" 2]
               (Num (mkValue "3" 3)) [num "3" 3]); [reflexivity| |].
      + apply derives_primary. by apply (derives_num (num "2" 2)).
      + by apply (derives_num (num "3" 3)).
    - apply derives_primary. by apply (derives_num (num "4" 4)). }
  split; [exact Hd|].
  exact (run_compiles_every_phrase host e ts 0 Hd).
Defined.
